(** * rakoshare: control session, metainfo and file store

    A shallow embedding of the Go sources ([metainfo.go], the control
    session and the file store) together with the properties stated about
    them.  Go strings are byte strings and are modelled by [string]
    (8-bit characters); [[]byte] is [list byte]; [int] and [int64] are
    [Z] with the 64-bit wrap-around written out where the code computes. *)

From Stdlib Require Import ZArith Lia Strings.Ascii Strings.String Strings.Byte List Bool.
From stdpp Require Import base option list gmap strings fin_maps.

Local Open Scope Z_scope.

(** ** Machine integers *)

(** Go's [int] on a 64-bit platform and [int64]: two's complement. *)
Definition wrap64 (x : Z) : Z := (x + 2 ^ 63) mod 2 ^ 64 - 2 ^ 63.

Definition MinInt64 : Z := - 2 ^ 63.
Definition MaxInt64 : Z := 2 ^ 63 - 1.

Definition in_int64 (x : Z) : Prop := MinInt64 <= x <= MaxInt64.

(** ** Results

    A call returns a value, returns an error, or does not return: the
    process is aborted ([log.Fatal]) or panics. *)
Inductive outcome (A : Type) :=
| Done (a : A)
| Failed (err : string)
| Fatal.
Arguments Done {A} a.
Arguments Failed {A} err.
Arguments Fatal {A}.

(** ** Bytes and strings *)

Definition zero_byte : byte := x00.

Definition byte_val (b : byte) : Z := Z.of_N (Byte.to_N b).

Definition byte_of_Z (z : Z) : byte :=
  match Byte.of_N (Z.to_N (z mod 256)) with
  | Some b => b
  | None => x00
  end.

Definition is_zero_byte (b : byte) : bool := Byte.eqb b x00.

(** [[]byte(s)] and [string(b)]. *)
Definition bytes_of_string (s : string) : list byte := list_byte_of_string s.
Definition string_of_bytes (b : list byte) : string := string_of_list_byte b.

Definition char_val (c : ascii) : Z := Z.of_N (N_of_ascii c).

(** [len(s)] *)
Definition len (s : string) : Z := Z.of_nat (String.length s).

(** [s[:n]] and [s[n:]] on strings, for [0 <= n <= len(s)]. *)
Fixpoint str_take (n : nat) (s : string) : string :=
  match n, s with
  | S n', String c s' => String c (str_take n' s')
  | _, _ => EmptyString
  end.

Fixpoint str_drop (n : nat) (s : string) : string :=
  match n, s with
  | S n', String _ s' => str_drop n' s'
  | _, _ => s
  end.

(** [strings.HasPrefix] *)
Fixpoint HasPrefix (s prefix : string) : bool :=
  match prefix, s with
  | EmptyString, _ => true
  | String p prefix', String c s' => Ascii.eqb c p && HasPrefix s' prefix'
  | String _ _, EmptyString => false
  end.

(** [strings.HasSuffix] *)
Definition HasSuffix (s suffix : string) : bool :=
  let n := String.length s in
  let m := String.length suffix in
  (m <=? n)%nat && String.eqb (str_drop (n - m) s) suffix.

(** [strings.Replace(s, old, "", 1)]: the first occurrence of [old] is
    removed; an empty [old] matches at the start and changes nothing. *)
Fixpoint remove_first (s old : string) : string :=
  if HasPrefix s old then str_drop (String.length old) s
  else match s with
       | EmptyString => EmptyString
       | String c s' => String c (remove_first s' old)
       end.

(** [strings.Split(s, sep)] for a separator of one byte, the only form
    the sources use: the pieces between the occurrences of [sep]. *)
Fixpoint Split (s : string) (sep : ascii) : list string :=
  match s with
  | EmptyString => [EmptyString]
  | String c s' =>
      if Ascii.eqb c sep then EmptyString :: Split s' sep
      else match Split s' sep with
           | [] => [String c EmptyString]
           | p :: ps => String c p :: ps
           end
  end.

Fixpoint contains_char (c : ascii) (s : string) : bool :=
  match s with
  | EmptyString => false
  | String d s' => Ascii.eqb d c || contains_char c s'
  end.

(** ** strconv *)

Definition is_digit (c : ascii) : bool :=
  (48 <=? char_val c) && (char_val c <=? 57).

Definition digit_char (d : Z) : ascii := ascii_of_N (Z.to_N (48 + d)).

(** The digit loop of [strconv.Atoi]: [n = n*10 + int(ch - '0')],
    failing on a byte that is not a digit. *)
Fixpoint parse_digits (s : string) (n : Z) : option Z :=
  match s with
  | EmptyString => Some n
  | String c s' =>
      if is_digit c then parse_digits s' (n * 10 + (char_val c - 48))
      else None
  end.

(** [strconv.Atoi]: an optional sign, then at least one digit; a value
    outside [int] is a range error.  [None] stands for [err != nil]. *)
Definition Atoi (s : string) : option Z :=
  match s with
  | EmptyString => None
  | String c s' =>
      let neg := Ascii.eqb c "-" in
      let body := if neg || Ascii.eqb c "+" then s' else s in
      match body with
      | EmptyString => None
      | _ =>
          match parse_digits body 0 with
          | None => None
          | Some n =>
              let v := if neg then - n else n in
              if (MinInt64 <=? v) && (v <=? MaxInt64) then Some v else None
          end
      end
  end.

(** Decimal digits of a non-negative number, most significant first. *)
Fixpoint digits_of (fuel : nat) (n : Z) (acc : string) : string :=
  match fuel with
  | O => acc
  | S f =>
      let acc' := String (digit_char (n mod 10)) acc in
      if n / 10 =? 0 then acc' else digits_of f (n / 10) acc'
  end.

Definition decimal (n : Z) : string :=
  digits_of (S (Z.to_nat (Z.log2 n))) n EmptyString.

(** [strconv.Itoa] *)
Definition Itoa (n : Z) : string :=
  if n <? 0 then String "-" (decimal (- n)) else decimal n.

(** ** encoding/hex and crypto/sha1 *)

Definition hex_digit (d : Z) : ascii :=
  if d <? 10 then ascii_of_N (Z.to_N (48 + d))
  else ascii_of_N (Z.to_N (87 + d)).

(** [hex.EncodeToString], also [fmt.Sprintf("%x", b)] on bytes. *)
Fixpoint hex_encode (bs : list byte) : string :=
  match bs with
  | [] => EmptyString
  | b :: bs' =>
      String (hex_digit (byte_val b / 16))
        (String (hex_digit (byte_val b mod 16)) (hex_encode bs'))
  end.

Module SHA1.

Definition w32 (x : Z) : Z := x mod 2 ^ 32.

Definition rotl (n x : Z) : Z :=
  w32 (Z.lor (Z.shiftl x n) (Z.shiftr x (32 - n))).

Definition be32 (a b c d : Z) : Z :=
  Z.lor (Z.shiftl a 24) (Z.lor (Z.shiftl b 16) (Z.lor (Z.shiftl c 8) d)).

Definition bytes_of_word (n : nat) (x : Z) : list Z :=
  map (fun i => Z.shiftr x (8 * Z.of_nat i) mod 256) (rev (seq 0 n)).

(** Message padding: the bit [1], zeros up to 56 modulo 64, then the
    bit length on 64 bits, big endian. *)
Definition pad (msg : list Z) : list Z :=
  let l := Z.of_nat (length msg) in
  msg ++ 128 :: repeat 0 (Z.to_nat ((55 - l) mod 64)) ++ bytes_of_word 8 (8 * l).

Fixpoint words (bs : list Z) : list Z :=
  match bs with
  | a :: b :: c :: d :: r => be32 a b c d :: words r
  | _ => []
  end.

(** The message schedule, kept most recent word first. *)
Fixpoint schedule (n : nat) (rws : list Z) : list Z :=
  match n with
  | O => rws
  | S n' =>
      let w := rotl 1 (Z.lxor (Z.lxor (nth 2 rws 0) (nth 7 rws 0))
                              (Z.lxor (nth 13 rws 0) (nth 15 rws 0))) in
      schedule n' (w :: rws)
  end.

Definition state : Type := Z * Z * Z * Z * Z.

Definition round (st : state) (tw : nat * Z) : state :=
  let '(a, b, c, d, e) := st in
  let '(t, w) := tw in
  let '(f, k) :=
    if (t <? 20)%nat then
      (Z.lor (Z.land b c) (Z.land (Z.lxor b 0xFFFFFFFF) d), 0x5A827999)
    else if (t <? 40)%nat then
      (Z.lxor (Z.lxor b c) d, 0x6ED9EBA1)
    else if (t <? 60)%nat then
      (Z.lor (Z.lor (Z.land b c) (Z.land b d)) (Z.land c d), 0x8F1BBCDC)
    else
      (Z.lxor (Z.lxor b c) d, 0xCA62C1D6) in
  (w32 (rotl 5 a + f + e + k + w), a, rotl 30 b, c, d).

Definition block (st : state) (ws16 : list Z) : state :=
  let ws := rev (schedule 64 (rev ws16)) in
  let '(a, b, c, d, e) := fold_left round (combine (seq 0 80) ws) st in
  let '(h0, h1, h2, h3, h4) := st in
  (w32 (h0 + a), w32 (h1 + b), w32 (h2 + c), w32 (h3 + d), w32 (h4 + e)).

Fixpoint blocks (fuel : nat) (ws : list Z) (st : state) : state :=
  match fuel, ws with
  | S f, _ :: _ => blocks f (skipn 16 ws) (block st (firstn 16 ws))
  | _, _ => st
  end.

Definition init : state :=
  (0x67452301, 0xEFCDAB89, 0x98BADCFE, 0x10325476, 0xC3D2E1F0).

(** [sha1.Sum] *)
Definition Sum (msg : list byte) : list byte :=
  let ws := words (pad (map byte_val msg)) in
  let '(h0, h1, h2, h3, h4) := blocks (length ws) ws init in
  map byte_of_Z (flat_map (bytes_of_word 4) [h0; h1; h2; h3; h4]).

End SHA1.


(** ** Package path *)

(** [strings.Join] *)
Fixpoint join_with (sep : string) (l : list string) : string :=
  match l with
  | [] => EmptyString
  | x :: xs =>
      match xs with
      | [] => x
      | _ :: _ => x +:+ sep +:+ join_with sep xs
      end
  end.

(** The elements of a path that [path.Clean] keeps as they are. *)
Definition is_real (e : string) : bool :=
  negb (String.eqb e "" || String.eqb e "." || String.eqb e "..").

(** One element of a path in [path.Clean], against the elements kept so
    far (innermost first): empty and [.] elements are dropped, [..]
    removes the last kept element when there is one to remove, is
    dropped at the root and is kept in front of a relative path. *)
Definition clean_step (rooted : bool) (kept : list string) (elem : string)
    : list string :=
  if String.eqb elem "" || String.eqb elem "." then kept
  else if String.eqb elem ".." then
    match kept with
    | top :: rest =>
        if String.eqb top ".." then (if rooted then kept else elem :: kept)
        else rest
    | [] => if rooted then [] else [elem]
    end
  else elem :: kept.

(** [path.Clean], element by element: the shortest path equivalent to
    [p] by purely lexical processing. *)
Definition Clean (p : string) : string :=
  match p with
  | EmptyString => "."%string
  | String c _ =>
      let rooted := Ascii.eqb c "/" in
      let kept := rev (fold_left (clean_step rooted) (Split p "/") []) in
      if rooted then String "/" (join_with "/" kept)
      else match kept with
           | [] => "."%string
           | _ => join_with "/" kept
           end
  end.

(** [path.Join]: empty elements are ignored, the rest is joined with
    slashes and cleaned; only empty elements give the empty string. *)
Definition Join (elem : list string) : string :=
  match filter (fun e => e ≠ EmptyString) elem with
  | [] => EmptyString
  | es => Clean (join_with "/" es)
  end.

(** [path.Ext]: from the last dot of the last element, if any. *)
Fixpoint Ext_rev (r : string) (acc : string) : string :=
  match r with
  | EmptyString => EmptyString
  | String c r' =>
      if Ascii.eqb c "/" then EmptyString
      else if Ascii.eqb c "." then String c acc
      else Ext_rev r' (String c acc)
  end.

Definition str_rev (s : string) : string :=
  string_of_list_ascii (rev (list_ascii_of_string s)).

Definition Ext (p : string) : string := Ext_rev (str_rev p) EmptyString.

(** Index just after the last slash, zero when there is none. *)
Fixpoint after_last_slash (s : string) (i : nat) (last : nat) : nat :=
  match s with
  | EmptyString => last
  | String c s' =>
      after_last_slash s' (S i) (if Ascii.eqb c "/" then S i else last)
  end.

(** [path.Split]: the directory, up to and with the last slash, and the
    file after it. *)
Definition path_Split (p : string) : string * string :=
  let i := after_last_slash p 0 0 in
  (str_take i p, str_drop i p).

(** *** The elements of a cleaned path *)

(** The elements kept by [path.Clean], innermost first. *)
Definition process (rooted : bool) (l : list string) (st : list string) :=
  fold_left (clean_step rooted) l st.

(** The elements that are never dropped on sight. *)
Definition is_kept (e : string) : bool :=
  negb (String.eqb e "" || String.eqb e ".").

(** A cleaned path written from its elements. *)
Definition render (rooted : bool) (K : list string) : string :=
  if rooted then String "/" (join_with "/" K)
  else match K with
       | [] => "."%string
       | _ => join_with "/" K
       end.

(** The elements [path.Clean] keeps of a path, outermost first. *)
Definition clean_elems (p : string) : list string :=
  List.rev (process (HasPrefix p "/") (Split p "/") []).


(** ** The file system the store works on *)

(** A regular file with its bytes, or a directory with the size the
    system reports for it. *)
Inductive node :=
| File (content : list byte)
| Dir (size : Z).

(** Nodes are kept under their absolute cleaned path; the root
    directory always exists. *)
Record FS := { cwd : string; nodes : gmap string node }.

Definition set_nodes (fs : FS) (m : gmap string node) : FS :=
  {| cwd := cwd fs; nodes := m |}.

Definition resolve (fs : FS) (p : string) : string :=
  if HasPrefix p "/" then Clean p else Clean (cwd fs +:+ "/" +:+ p).

Definition is_dir (fs : FS) (key : string) : bool :=
  String.eqb key "/" ||
  match nodes fs !! key with
  | Some (Dir _) => true
  | _ => false
  end.

Definition parent (key : string) : string := Clean (fst (path_Split key)).

Definition node_size (nd : node) : Z :=
  match nd with
  | File c => Z.of_nat (length c)
  | Dir sz => sz
  end.

(** [os.Stat]; [None] is the error of a path that does not exist. *)
Definition os_Stat (fs : FS) (p : string) : option node :=
  let key := resolve fs p in
  if String.eqb key "/" then Some (Dir 4096) else nodes fs !! key.

Definition has_children (fs : FS) (key : string) : bool :=
  existsb (fun kv : string * node => HasPrefix (fst kv) (key +:+ "/"))
          (map_to_list (nodes fs)).

(** [os.Remove]: a file, or an empty directory. *)
Definition os_Remove (fs : FS) (p : string) : option string * FS :=
  let key := resolve fs p in
  match nodes fs !! key with
  | Some (File _) => (None, set_nodes fs (delete key (nodes fs)))
  | Some (Dir _) =>
      if has_children fs key then (Some "directory not empty"%string, fs)
      else (None, set_nodes fs (delete key (nodes fs)))
  | None => (Some "no such file or directory"%string, fs)
  end.

(** [os.Create]: the file is created empty, or truncated when it
    exists; its directory must exist. *)
Definition os_Create (fs : FS) (p : string) : option string * FS :=
  let key := resolve fs p in
  if is_dir fs key then (Some "is a directory"%string, fs)
  else if negb (is_dir fs (parent key)) then
    (Some "no such file or directory"%string, fs)
  else (None, set_nodes fs (<[key := File []]> (nodes fs))).

(** A file cut or extended with zeros to [n] bytes. *)
Definition resize (c : list byte) (n : nat) : list byte :=
  take n c ++ replicate (n - length c) x00.

(** [os.Truncate] *)
Definition os_Truncate (fs : FS) (p : string) (size : Z) : option string * FS :=
  let key := resolve fs p in
  match nodes fs !! key with
  | Some (File c) =>
      if size <? 0 then (Some "invalid argument"%string, fs)
      else (None, set_nodes fs (<[key := File (resize c (Z.to_nat size))]> (nodes fs)))
  | Some (Dir _) => (Some "is a directory"%string, fs)
  | None => (Some "no such file or directory"%string, fs)
  end.

(** [os.MkdirAll] along the elements of an absolute path: directories
    that exist are kept, a regular file in the way is an error. *)
Fixpoint mkdirs (elems : list string) (cur : string) (m : gmap string node)
    : option string * gmap string node :=
  match elems with
  | [] => (None, m)
  | e :: es =>
      let key := cur +:+ "/" +:+ e in
      match m !! key with
      | Some (File _) => (Some "not a directory"%string, m)
      | Some (Dir _) => mkdirs es key m
      | None => mkdirs es key (<[key := Dir 4096]> m)
      end
  end.

Definition os_MkdirAll (fs : FS) (p : string) : option string * FS :=
  let key := resolve fs p in
  let elems := filter (fun e => e ≠ EmptyString) (Split key "/") in
  let '(err, m) := mkdirs elems "" (nodes fs) in
  (err, set_nodes fs m).

(** [ReadAt] of [os.File] on the bytes of a file: the buffer [b] after the
    call, the count and the error; fewer bytes than asked is [EOF]. *)
Definition file_ReadAt (c : list byte) (b : list byte) (off : Z)
    : list byte * Z * option string :=
  if off <? 0 then (b, 0, Some "negative offset"%string)
  else
    let got := take (length b) (drop (Z.to_nat off) c) in
    let n := length got in
    (got ++ drop n b, Z.of_nat n,
     if (n <? length b)%nat then Some "EOF"%string else None).

(** [WriteAt] of [os.File]: the bytes of the file after the call; a write
    past the end leaves a hole of zeros. *)
Definition file_WriteAt (c : list byte) (b : list byte) (off : Z)
    : option (list byte) :=
  if off <? 0 then None
  else
    match b with
    | [] => Some c
    | _ =>
        let o := Z.to_nat off in
        Some (resize (take o c) o ++ b ++ drop (o + length b) c)
    end.

(** ** Metainfo records *)

Record FileDict := {
  fd_Length : Z;
  fd_Path : list string;
  fd_Md5sum : string
}.

Record InfoDict := {
  PieceLength : Z;
  Pieces : string;
  Private : Z;
  Name : string;
  Length : Z;
  Md5sum : string;
  Files : list FileDict
}.

(** ** File store *)

Record fileEntry := { fe_length : Z; fe_name : string }.

(** [offsets] and [files] are parallel arrays, in increasing offset
    order. *)
Record fileStore := { offsets : list Z; files : list fileEntry }.

(** [copyfile]: the target is created first, then filled from the
    source as it is at that moment. *)
Definition copyfile (fs : FS) (fromname toname : string) : option string * FS :=
  match os_Stat fs fromname with
  | None => (Some "open for read"%string, fs)
  | Some _ =>
      match os_Create fs toname with
      | (Some e, fs1) => (Some e, fs1)
      | (None, fs1) =>
          match os_Stat fs1 fromname with
          | Some (File c) =>
              (None, set_nodes fs1 (<[resolve fs1 toname := File c]> (nodes fs1)))
          | _ => (Some "copy"%string, fs1)
          end
      end
  end.

(** [fileEntry.open]: the entry, the error returned and the file system
    afterwards.  A failed truncation is assigned to a shadowed [err] and
    is not returned. *)
Definition fileEntry_open (fs : FS) (name : string) (length : Z)
    : fileEntry * option string * FS :=
  let partname := name +:+ ".part" in
  let fs1 :=
    match os_Stat fs partname with
    | Some _ => snd (os_Remove fs partname)
    | None => fs
    end in
  let needToRetrieve :=
    match os_Stat fs1 name with
    | None => true
    | Some st => negb (node_size st =? length)
    end in
  if needToRetrieve then
    let ext := Ext name in
    let rawname := remove_first name ext in
    let rawname :=
      if 60 <? len rawname then str_take 60 rawname +:+ "[...]" else rawname in
    let partname := rawname +:+ ext +:+ ".part" in
    match os_Create fs1 partname with
    | (Some e, fs2) => ({| fe_length := length; fe_name := name |}, Some e, fs2)
    | (None, fs2) =>
        let fs3 := snd (os_Truncate fs2 partname length) in
        ({| fe_length := length; fe_name := partname |}, None, fs3)
    end
  else ({| fe_length := length; fe_name := name |}, None, fs1).

Definition isPart (fe : fileEntry) : bool := HasSuffix (fe_name fe) ".part".

(** [fileEntry.SetPart]; both errors are only logged. *)
Definition SetPart (fs : FS) (fe : fileEntry) : fileEntry * FS :=
  if isPart fe then (fe, fs)
  else
    let fs1 := snd (copyfile fs (fe_name fe) (fe_name fe +:+ ".part")) in
    let fe' := {| fe_length := fe_length fe; fe_name := fe_name fe +:+ ".part" |} in
    (fe', snd (os_Truncate fs1 (fe_name fe') (fe_length fe'))).

(** [fileEntry.ReadAt]: the buffer after the call, the count, the error. *)
Definition fileEntry_ReadAt (fe : fileEntry) (fs : FS) (p : list byte) (off : Z)
    : list byte * Z * option string :=
  match os_Stat fs (fe_name fe) with
  | None => (p, 0, Some "open"%string)
  | Some (Dir _) => (p, 0, Some "is a directory"%string)
  | Some (File c) => file_ReadAt c p off
  end.

(** [fileEntry.WriteAt]: the file is opened for reading and writing and
    is not created. *)
Definition fileEntry_WriteAt (fe : fileEntry) (fs : FS) (p : list byte) (off : Z)
    : Z * option string * FS :=
  match os_Stat fs (fe_name fe) with
  | Some (File c) =>
      match file_WriteAt c p off with
      | Some c' =>
          (Z.of_nat (length p), None,
           set_nodes fs (<[resolve fs (fe_name fe) := File c']> (nodes fs)))
      | None => (0, Some "negative offset"%string, fs)
      end
  | _ => (0, Some "open"%string, fs)
  end.

(** [fileEntry.Cleanup]: the error returned is the one of the removal. *)
Definition fileEntry_Cleanup (fs : FS) (fe : fileEntry)
    : fileEntry * option string * FS :=
  if isPart fe then
    let realname := remove_first (fe_name fe) ".part" in
    let fs1 := snd (copyfile fs (fe_name fe) realname) in
    let '(err, fs2) := os_Remove fs1 (fe_name fe) in
    ({| fe_length := fe_length fe; fe_name := realname |}, err, fs2)
  else (fe, None, fs).

(** [ensureDirectory] *)
Definition ensureDirectory (fs : FS) (fullPath : string) : outcome FS :=
  let fullPath := Clean fullPath in
  let fullPath :=
    if negb (HasPrefix fullPath "/") then cwd fs +:+ "/" +:+ fullPath
    else fullPath in
  let base := fst (path_Split fullPath) in
  if String.eqb base "" then Fatal
  else match os_MkdirAll fs base with
       | (Some e, fs') => Failed e
       | (None, fs') => Done fs'
       end.

(** The body of the loop of [NewFileStore] over [info.Files]. *)
Fixpoint NewFileStore_loop (srcs : list FileDict) (storePath : string)
    (st : fileStore) (totalSize : Z) (fs : FS)
    : outcome (fileStore * Z) * FS :=
  match srcs with
  | [] => (Done (st, totalSize), fs)
  | src :: srcs' =>
      let cleanSrcPath := str_drop 1 (Clean ("/" +:+ Join (fd_Path src))) in
      let fullPath := Join [storePath; cleanSrcPath] in
      match ensureDirectory fs fullPath with
      | Fatal => (Fatal, fs)
      | Failed e => (Failed e, fs)
      | Done fs1 =>
          match fileEntry_open fs1 fullPath (fd_Length src) with
          | (_, Some e, fs2) => (Failed e, fs2)
          | (fe, None, fs2) =>
              NewFileStore_loop srcs' storePath
                {| offsets := offsets st ++ [totalSize];
                   files := files st ++ [fe] |}
                (wrap64 (totalSize + fd_Length src)) fs2
          end
      end
  end.

(** [NewFileStore]: single-file mode is a list of one file named by
    [info.Name]. *)
Definition NewFileStore (info : InfoDict) (storePath : string) (fs : FS)
    : outcome (fileStore * Z) * FS :=
  let srcs :=
    match Files info with
    | [] => [ {| fd_Length := Length info; fd_Path := [Name info];
                 fd_Md5sum := Md5sum info |} ]
    | fl => fl
    end in
  NewFileStore_loop srcs storePath {| offsets := []; files := [] |} 0 fs.

(** [sort.Search]: binary search for the least index in [0, n) at which
    [f] holds, [n] when there is none. *)
Fixpoint search_loop (fuel : nat) (f : nat -> bool) (i j : nat) : nat :=
  match fuel with
  | O => i
  | S fuel' =>
      if (i <? j)%nat then
        let h := ((i + j) / 2)%nat in
        if f h then search_loop fuel' f i h
        else search_loop fuel' f (h + 1)%nat j
      else i
  end.

Definition sort_Search (n : nat) (f : nat -> bool) : nat :=
  search_loop n f 0%nat n.

(** [fileStore.find] *)
Definition find (f : fileStore) (offset : Z) : nat :=
  sort_Search (length (offsets f)) (fun i =>
    if Z.of_nat (length (offsets f)) - 1 <=? Z.of_nat i then true
    else offset <=? nth (i + 1) (offsets f) 0).

(** The entries from [index] on, each with its offset. *)
Definition entries_from (f : fileStore) (index : nat) : list (Z * fileEntry) :=
  drop index (zip (offsets f) (files f)).

(** The first loop of [fileStore.ReadAt], from the entry found on:
    [done] is the part of the buffer already filled, [p] the rest of
    it.  The result is the whole buffer, the count, the error and the
    unfilled rest. *)
Fixpoint ReadAt_loop (es : list (Z * fileEntry)) (fs : FS)
    (done p : list byte) (off n : Z)
    : list byte * list byte * Z * option string :=
  match es, p with
  | (o, entry) :: es', _ :: _ =>
      let chunk := Z.of_nat (length p) in
      let itemOffset := wrap64 (off - o) in
      if itemOffset <? fe_length entry then
        let space := wrap64 (fe_length entry - itemOffset) in
        let chunk := if space <? chunk then space else chunk in
        let '(q, nThisTime, err) :=
          fileEntry_ReadAt entry fs (take (Z.to_nat chunk) p) itemOffset in
        let buf := q ++ drop (Z.to_nat chunk) p in
        match err with
        | Some e => (done, buf, n + nThisTime, Some e)
        | None =>
            ReadAt_loop es' fs (done ++ take (Z.to_nat nThisTime) buf)
              (drop (Z.to_nat nThisTime) buf) (wrap64 (off + nThisTime))
              (n + nThisTime)
        end
      else ReadAt_loop es' fs done p off n
  | _, _ => (done, p, n, None)
  end.

(** [fileStore.ReadAt]: what is left of the buffer past the end of the
    store is filled with zeros. *)
Definition fileStore_ReadAt (f : fileStore) (fs : FS) (p : list byte) (off : Z)
    : list byte * Z * option string :=
  let index := find f off in
  match ReadAt_loop (entries_from f index) fs [] p off 0 with
  | (done, rest, n, Some e) => (done ++ rest, n, Some e)
  | (done, rest, n, None) => (done ++ replicate (length rest) x00, n, None)
  end.

(** The first loop of [fileStore.WriteAt]. *)
Fixpoint WriteAt_loop (es : list (Z * fileEntry)) (fs : FS)
    (p : list byte) (off n : Z)
    : list byte * Z * option string * FS :=
  match es, p with
  | (o, entry) :: es', _ :: _ =>
      let chunk := Z.of_nat (length p) in
      let itemOffset := wrap64 (off - o) in
      if itemOffset <? fe_length entry then
        let space := wrap64 (fe_length entry - itemOffset) in
        let chunk := if space <? chunk then space else chunk in
        let '(nThisTime, err, fs') :=
          fileEntry_WriteAt entry fs (take (Z.to_nat chunk) p) itemOffset in
        match err with
        | Some e => (p, n + nThisTime, Some e, fs')
        | None =>
            WriteAt_loop es' fs' (drop (Z.to_nat nThisTime) p)
              (wrap64 (off + nThisTime)) (n + nThisTime)
        end
      else WriteAt_loop es' fs p off n
  | _, _ => (p, n, None, fs)
  end.

(** Index of the first byte that is not zero. *)
Fixpoint first_nonzero (p : list byte) (i : Z) : option Z :=
  match p with
  | [] => None
  | b :: p' => if is_zero_byte b then first_nonzero p' (i + 1) else Some i
  end.

(** [fileStore.WriteAt]: what is left past the end of the store must be
    zeros, and is counted. *)
Definition fileStore_WriteAt (f : fileStore) (fs : FS) (p : list byte) (off : Z)
    : Z * option string * FS :=
  let index := find f off in
  match WriteAt_loop (entries_from f index) fs p off 0 with
  | (_, n, Some e, fs') => (n, Some e, fs')
  | (rest, n, None, fs') =>
      match first_nonzero rest 0 with
      | Some i => (n + i, Some "unexpected non-zero data at end of store"%string, fs')
      | None => (n + Z.of_nat (length rest), None, fs')
      end
  end.

(** The loop of [fileStore.SetBad] over the entries from [index] on. *)
Fixpoint SetPart_all (fs : FS) (es : list fileEntry) : list fileEntry * FS :=
  match es with
  | [] => ([], fs)
  | entry :: es' =>
      let '(entry', fs1) := SetPart fs entry in
      let '(rest, fs2) := SetPart_all fs1 es' in
      (entry' :: rest, fs2)
  end.

(** [fileStore.SetBad] *)
Definition SetBad (f : fileStore) (fs : FS) (from : Z) : fileStore * FS :=
  let index := find f from in
  let '(staged, fs') := SetPart_all fs (drop index (files f)) in
  ({| offsets := offsets f; files := take index (files f) ++ staged |}, fs').

(** [fileStore.Cleanup]: the loop works on a copy of each entry, so the
    store keeps the names it had; the error is the last entry's. *)
Fixpoint fileStore_Cleanup_loop (fs : FS) (es : list fileEntry) (err : option string)
    : option string * FS :=
  match es with
  | [] => (err, fs)
  | fe :: es' =>
      let '(_, err', fs1) := fileEntry_Cleanup fs fe in
      fileStore_Cleanup_loop fs1 es' err'
  end.

Definition fileStore_Cleanup (f : fileStore) (fs : FS) : option string * FS :=
  fileStore_Cleanup_loop fs (files f) None.

(** *** The store and its files *)

(** An entry is backed when its name leads to a regular file of the
    entry's length. *)
Definition backed (fs : FS) (fe : fileEntry) : Prop :=
  ∃ c, os_Stat fs (fe_name fe) = Some (File c) ∧
       Z.of_nat (length c) = fe_length fe.

(** Entries laid out one after the other from [base]. *)
Fixpoint aligned (base : Z) (es : list (Z * fileEntry)) : Prop :=
  match es with
  | [] => True
  | (o, fe) :: es' =>
      o = base ∧ 0 <= fe_length fe ∧ aligned (base + fe_length fe) es'
  end.

Fixpoint end_of (base : Z) (es : list (Z * fileEntry)) : Z :=
  match es with
  | [] => base
  | (_, fe) :: es' => end_of (base + fe_length fe) es'
  end.

(** The invariant of the data model: parallel arrays, cumulative
    offsets, every entry backed by a regular file of its length. *)
Definition store_backed (f : fileStore) (fs : FS) (totalSize : Z) : Prop :=
  length (offsets f) = length (files f) ∧
  aligned 0 (zip (offsets f) (files f)) ∧
  end_of 0 (zip (offsets f) (files f)) = totalSize ∧
  totalSize <= MaxInt64 ∧
  Forall (backed fs) (files f).

(** The backing files of a list of entries, as the file system names
    them. *)
Definition keys (fs : FS) (es : list (Z * fileEntry)) : list string :=
  (fun e => resolve fs (fe_name (snd e))) <$> es.

(** No two entries share a backing file. *)
Definition distinct_files (f : fileStore) (fs : FS) : Prop :=
  NoDup (keys fs (zip (offsets f) (files f))).

(** How many bytes of [p], written at [off], fall before the end of the
    entries [es] laid out from [b]. *)
Definition within (p : list byte) (off b : Z) (es : list (Z * fileEntry)) : nat :=
  Z.to_nat (Z.min (Z.of_nat (length p)) (Z.max 0 (end_of b es - off))).

(** What a write through the store may change: files keep their size,
    and nothing changes outside the keys of [ks]. *)
Definition only_contents (ks : list string) (fs fs' : FS) : Prop :=
  cwd fs' = cwd fs ∧
  (∀ k, k ∉ ks → nodes fs' !! k = nodes fs !! k) ∧
  (∀ k c, nodes fs !! k = Some (File c) →
          ∃ c', nodes fs' !! k = Some (File c') ∧ length c' = length c).


(** The name [fileEntry.open] stages an entry under: the name with its
    extension taken out once, cut to 60 bytes when longer, then the
    extension and [.part]. *)
Definition staging_name (name : string) : string :=
  let ext := Ext name in
  let rawname := remove_first name ext in
  let rawname :=
    if 60 <? len rawname then str_take 60 rawname +:+ "[...]" else rawname in
  rawname +:+ ext +:+ ".part".

(** A path lies inside a root when, both made absolute and cleaned, it
    is the root or continues it after a slash. *)
Definition inside (fs : FS) (root p : string) : bool :=
  let r := resolve fs root in
  let q := resolve fs p in
  String.eqb q r || HasPrefix q (if String.eqb r "/" then r else r +:+ "/").

(** The file system after the removal of a stale staging file, the
    first step of [fileEntry.open]. *)
Definition after_removal (fs : FS) (name : string) : FS :=
  match os_Stat fs (name +:+ ".part") with
  | Some _ => snd (os_Remove fs (name +:+ ".part"))
  | None => fs
  end.

(** The elements of a path made absolute. *)
Definition abs_elems (fs : FS) (p : string) : list string :=
  if HasPrefix p "/" then clean_elems p
  else clean_elems (cwd fs +:+ "/" +:+ p).


(** An entry after [SetPart]. *)
Definition staged (fe : fileEntry) : fileEntry :=
  if isPart fe then fe
  else {| fe_length := fe_length fe; fe_name := fe_name fe +:+ ".part" |}.

(** The files [NewFileStore] goes through, and the path it joins for
    each. *)
Definition sources (info : InfoDict) : list FileDict :=
  match Files info with
  | [] => [ {| fd_Length := Length info; fd_Path := [Name info];
               fd_Md5sum := Md5sum info |} ]
  | fl => fl
  end.

Definition full_path (storePath : string) (src : FileDict) : string :=
  Join [storePath; str_drop 1 (Clean ("/" +:+ Join (fd_Path src)))].


(** ** Control session *)

(** The message persisted in [{dir}/current] and gossiped to peers. *)
Record NewInfo := { InfoHash : string; Rev : string }.

Record IHMessage := { Info : NewInfo; Port : Z; Sig : string }.

Definition zeroIHMessage : IHMessage :=
  {| Info := {| InfoHash := ""; Rev := "" |}; Port := 0; Sig := "" |}.

(** [NewIHMessage]: the private key is accepted and not used. *)
Definition NewIHMessage (port : Z) (ih privkey rev : string) : IHMessage :=
  {| Info := {| InfoHash := ih; Rev := rev |}; Port := port; Sig := "" |}.

(** The fields of a peer's state that the session reads and writes. *)
Record peerState := {
  address : string;
  peer_id : string;
  theirExtensions : gmap string Z
}.

(** An established connection after the handshake: the 48 bytes that
    follow the protocol string, the peer's id and its remote address. *)
Record btConn := {
  header : list byte;
  infohash : string;
  conn_id : string;
  RemoteAddr : string
}.

(** What the session asks of its collaborators, in program order. *)
Inductive event :=
| EvClose (addr : string)
| EvDhtAddNode (addr : string)
| EvSpawn (addr : string)
| EvSendExtensions (addr : string) (ours : gmap Z string)
| EvSendIH (addr : string) (code : byte) (m : IHMessage)
| EvPersist (file : string) (m : IHMessage)
| EvLog (msg : string).

Record ControlSession := {
  cs_Port : Z;
  PeerID : string;
  currentIH : string;
  rev : string;
  ourExtensions : gmap Z string;
  peers : gmap string peerState;
  bitshareDir : string
}.

Definition set_peers (cs : ControlSession) (ps : gmap string peerState) :=
  {| cs_Port := cs_Port cs; PeerID := PeerID cs; currentIH := currentIH cs;
     rev := rev cs; ourExtensions := ourExtensions cs; peers := ps;
     bitshareDir := bitshareDir cs |}.

Definition set_current (cs : ControlSession) (ih r : string) :=
  {| cs_Port := cs_Port cs; PeerID := PeerID cs; currentIH := ih;
     rev := r; ourExtensions := ourExtensions cs; peers := peers cs;
     bitshareDir := bitshareDir cs |}.

(** The revision a new session starts from, given the [Info.Rev] of the
    decoded [current] marker (empty when there is none). *)
Definition initialRev (restored : string) : string :=
  if String.eqb restored "" then "0-"%string
  else
    match Split restored "2" with
    | [p0; _] =>
        match Atoi p0 with
        | Some _ => restored
        | None => "0-"%string
        end
    | _ => "0-"%string
    end.

(** What [NewControlSession] takes from its environment: the process id
    and random number of the peer id, whether the DHT node could be
    created, whether opening [current] failed for another reason than
    its absence, and the decoded marker (zero when decoding failed). *)
Record SessionEnv := {
  env_pid : Z;
  env_rand : Z;
  env_dht_ok : bool;
  env_open_failed : bool;
  env_current : IHMessage
}.

Definition NewControlSession (env : SessionEnv) (listenPort : Z)
    (bitshareDir : string) : outcome ControlSession :=
  let sid := "-tt" +:+ Itoa (env_pid env) +:+ "_" +:+ Itoa (env_rand env) in
  if negb (env_dht_ok env) then Fatal
  else if env_open_failed env then Failed "open current"
  else
    let currentIhMessage := env_current env in
    let rev := initialRev (Rev (Info currentIhMessage)) in
    if (String.length sid <? 20)%nat then Fatal
    else
      Done {| cs_Port := listenPort;
              PeerID := str_take 20 sid;
              currentIH := InfoHash (Info currentIhMessage);
              rev := rev;
              ourExtensions := {[ 1 := "ut_pex"%string; 2 := "bs_metadata"%string ]};
              peers := ∅;
              bitshareDir := bitshareDir |}.

Definition header_byte (h : list byte) (i : nat) : Z :=
  byte_val (nth i h x00).

Definition NewPeerState (addr id : string) : peerState :=
  {| address := addr; peer_id := id; theirExtensions := ∅ |}.

Definition has_peer_id (ps : gmap string peerState) (i : string) : bool :=
  existsb (fun kv => String.eqb (peer_id (snd kv)) i) (map_to_list ps).

Section Admission.

(** The cap on the peer table, a constant declared with the torrent
    session and not in these sources. *)
Variable MAX_NUM_PEERS : nat.

Definition AddPeer (cs : ControlSession) (btconn : btConn)
    : ControlSession * list event :=
  if has_peer_id (peers cs) (conn_id btconn) then (cs, [])
  else
    let theirheader := header btconn in
    let peer := RemoteAddr btconn in
    if (MAX_NUM_PEERS <=? size (peers cs))%nat then
      (cs, [EvLog "We have enough peers. Rejecting additional peer"; EvClose peer])
    else
      let ps := NewPeerState peer (conn_id btconn) in
      let dht := if Z.land (header_byte theirheader 7) 1 =? 1
                 then [EvDhtAddNode peer] else [] in
      let ext := if Z.land (header_byte theirheader 5) 16 =? 16
                 then [EvSendExtensions peer (ourExtensions cs)] else [] in
      (set_peers cs (<[peer := ps]> (peers cs)), dht ++ [EvSpawn peer] ++ ext).

Definition AddPeers (cs : ControlSession) (conns : list btConn) : ControlSession :=
  fold_left (fun c b => fst (AddPeer c b)) conns cs.

End Admission.

Definition ClosePeer (cs : ControlSession) (peer : peerState)
    : ControlSession * list event :=
  (set_peers cs (delete (address peer) (peers cs)), [EvClose (address peer)]).

(** [ihMessage]: the extension code the peer assigned to [bs_metadata]
    (zero when it assigned none), then the message. *)
Definition ihMessage (cs : ControlSession) (ih : string) (ps : peerState) : event :=
  let code := default 0 (theirExtensions ps !! "bs_metadata"%string) in
  EvSendIH (address ps) (byte_of_Z code) (NewIHMessage (cs_Port cs) ih "" (rev cs)).

Definition broadcast (cs : ControlSession) (ih : string) : list event :=
  flat_map (fun kv : string * peerState =>
              match theirExtensions (snd kv) !! "bs_metadata"%string with
              | None => []
              | Some _ => [ihMessage cs ih (snd kv)]
              end)
           (map_to_list (peers cs)).

(** [SetCurrent]; [create_ok] tells whether [current] could be created,
    the process being aborted otherwise. *)
Definition SetCurrent (create_ok : bool) (cs : ControlSession) (ih : string)
    : outcome (ControlSession * list event) :=
  let parts := Split (rev cs) "-" in
  let '(parts, log) :=
    match parts with
    | [_; _] => (parts, [])
    | _ => (["0"%string; ""%string], [EvLog "Invalid rev"])
    end in
  let counter := match Atoi (nth 0 parts ""%string) with
                 | Some c => c
                 | None => 0
                 end in
  let newCounter := Itoa (wrap64 (counter + 1)) in
  let rev' := newCounter +:+ "-" +:+
              hex_encode (SHA1.Sum (bytes_of_string (ih +:+ nth 1 parts ""%string))) in
  let cs' := set_current cs ih rev' in
  if negb create_ok then Fatal
  else
    let mess := NewIHMessage (cs_Port cs') (currentIH cs') "" (rev cs') in
    Done (cs', log ++ [EvPersist (Join [bitshareDir cs'; "current"%string]) mess]
                   ++ broadcast cs' ih).



Definition is_hex (c : ascii) : bool :=
  is_digit c || ((97 <=? char_val c) && (char_val c <=? 102)).

Fixpoint all_chars (f : ascii -> bool) (s : string) : bool :=
  match s with
  | EmptyString => true
  | String c s' => f c && all_chars f s'
  end.

(** The format of a revision in the words of the specification:
    an integer counter, a dash, a hexadecimal hash. *)
Definition parses_as_revision (s : string) : bool :=
  match Split s "-" with
  | [c; h] => bool_decide (is_Some (Atoi c)) && all_chars is_hex h
  | _ => false
  end.

(** No two entries of the table have the same peer id. *)
Definition ids_unique (ps : gmap string peerState) : Prop :=
  ∀ k1 k2 p1 p2,
    ps !! k1 = Some p1 → ps !! k2 = Some p2 → peer_id p1 = peer_id p2 → k1 = k2.

(** ** Metainfo *)

Record MetaInfo := {
  mi_Info : option InfoDict;
  Announce : string;
  AnnounceList : list (list string);
  CreationDate : Z;
  Comment : string;
  CreatedBy : string;
  Encoding : string;
  mi_InfoHash : string
}.

Definition set_InfoHash (m : MetaInfo) (h : string) : MetaInfo :=
  {| mi_Info := mi_Info m; Announce := Announce m;
     AnnounceList := AnnounceList m; CreationDate := CreationDate m;
     Comment := Comment m; CreatedBy := CreatedBy m; Encoding := Encoding m;
     mi_InfoHash := h |}.

(** The two calls [NewMetaInfoFromContent] makes to the bencode
    library: decoding the content into a [MetaInfo], and encoding the
    [Info] pointer of the result, which is nil when the content has no
    [info] key.  Each returns an error or a value. *)
Class Codec := {
  decode_MetaInfo : string -> string + MetaInfo;
  encode_Info : option InfoDict -> string + list byte
}.

(** [NewMetaInfoFromContent]: the metainfo and the error returned.
    When the encoder fails, [err1] is not copied to [err] and both
    results are nil. *)
Definition NewMetaInfoFromContent `{Codec} (content : list byte)
    : option MetaInfo * option string :=
  match decode_MetaInfo (string_of_bytes content) with
  | inl err1 => (None, Some ("Couldn't parse torrent file: " +:+ err1))
  | inr m1 =>
      match encode_Info (mi_Info m1) with
      | inl _ => (None, None)
      | inr written =>
          (Some (set_InfoHash m1 (string_of_bytes (SHA1.Sum written))), None)
      end
  end.

(** *** Bencode

    The codec of the library, for what the sources ask of it: the four
    kinds of value, dictionaries bound to structs by the keys of the
    field tags, absent keys leaving the zero value, keys without field
    ignored, a value of another kind than the field being an error. *)

#[warnings="-register-all"]
Inductive bvalue :=
| BInt (z : Z)
| BStr (s : string)
| BList (l : list bvalue)
| BDict (d : list (string * bvalue)).

Fixpoint str_concat (l : list string) : string :=
  match l with
  | [] => EmptyString
  | s :: l' => s +:+ str_concat l'
  end.

Fixpoint bencode (v : bvalue) : string :=
  match v with
  | BInt z => "i" +:+ Itoa z +:+ "e"
  | BStr s => Itoa (len s) +:+ ":" +:+ s
  | BList l => "l" +:+ str_concat (map bencode l) +:+ "e"
  | BDict d =>
      "d" +:+ str_concat (map (fun kv : string * bvalue =>
                                 Itoa (len (fst kv)) +:+ ":" +:+ fst kv
                                 +:+ bencode (snd kv)) d) +:+ "e"
  end.

(** The text up to the first [c] and the text after it. *)
Fixpoint split_at (c : ascii) (s : string) : option (string * string) :=
  match s with
  | EmptyString => None
  | String d s' =>
      if Ascii.eqb d c then Some (EmptyString, s')
      else match split_at c s' with
           | Some (a, b) => Some (String d a, b)
           | None => None
           end
  end.

Definition parse_string (s : string) : option (string * string) :=
  match split_at ":" s with
  | Some (digits, rest) =>
      match digits, parse_digits digits 0 with
      | String _ _, Some n =>
          if (Z.to_nat n <=? String.length rest)%nat
          then Some (str_take (Z.to_nat n) rest, str_drop (Z.to_nat n) rest)
          else None
      | _, _ => None
      end
  | None => None
  end.

Fixpoint parse (fuel : nat) (s : string) : option (bvalue * string) :=
  match fuel with
  | O => None
  | S f =>
      match s with
      | EmptyString => None
      | String c r =>
          if Ascii.eqb c "i" then
            match split_at "e" r with
            | Some (digits, rest) =>
                match Atoi digits with
                | Some z => Some (BInt z, rest)
                | None => None
                end
            | None => None
            end
          else if Ascii.eqb c "l" then
            match parse_list f r with
            | Some (l, rest) => Some (BList l, rest)
            | None => None
            end
          else if Ascii.eqb c "d" then
            match parse_dict f r with
            | Some (d, rest) => Some (BDict d, rest)
            | None => None
            end
          else
            match parse_string s with
            | Some (x, rest) => Some (BStr x, rest)
            | None => None
            end
      end
  end
with parse_list (fuel : nat) (s : string) : option (list bvalue * string) :=
  match fuel with
  | O => None
  | S f =>
      match s with
      | String "e" rest => Some ([], rest)
      | _ =>
          match parse f s with
          | Some (v, rest) =>
              match parse_list f rest with
              | Some (l, rest') => Some (v :: l, rest')
              | None => None
              end
          | None => None
          end
      end
  end
with parse_dict (fuel : nat) (s : string)
    : option (list (string * bvalue) * string) :=
  match fuel with
  | O => None
  | S f =>
      match s with
      | String "e" rest => Some ([], rest)
      | _ =>
          match parse_string s with
          | Some (k, rest) =>
              match parse f rest with
              | Some (v, rest') =>
                  match parse_dict f rest' with
                  | Some (d, rest'') => Some ((k, v) :: d, rest'')
                  | None => None
                  end
              | None => None
              end
          | None => None
          end
      end
  end.

(** One value is read from the front of the text.  Every call consumes
    a byte within two steps, so twice the length is fuel enough. *)
Definition bdecode (s : string) : option bvalue :=
  match parse (2 * String.length s + 2) s with
  | Some (v, _) => Some v
  | None => None
  end.

Fixpoint dict_get (k : string) (d : list (string * bvalue)) : option bvalue :=
  match d with
  | [] => None
  | (k', v) :: d' => if String.eqb k' k then Some v else dict_get k d'
  end.

Definition get_int (k : string) (d : list (string * bvalue)) : string + Z :=
  match dict_get k d with
  | None => inr 0
  | Some (BInt z) => inr z
  | Some _ => inl ("cannot decode into int: " +:+ k)
  end.

Definition get_str (k : string) (d : list (string * bvalue)) : string + string :=
  match dict_get k d with
  | None => inr EmptyString
  | Some (BStr s) => inr s
  | Some _ => inl ("cannot decode into string: " +:+ k)
  end.

Fixpoint all_strings (l : list bvalue) : string + list string :=
  match l with
  | [] => inr []
  | BStr s :: l' =>
      match all_strings l' with
      | inr r => inr (s :: r)
      | inl e => inl e
      end
  | _ :: _ => inl "cannot decode into string"%string
  end.

Definition get_strs (k : string) (d : list (string * bvalue))
    : string + list string :=
  match dict_get k d with
  | None => inr []
  | Some (BList l) => all_strings l
  | Some _ => inl ("cannot decode into slice: " +:+ k)
  end.

Fixpoint all_string_lists (l : list bvalue) : string + list (list string) :=
  match l with
  | [] => inr []
  | BList x :: l' =>
      match all_strings x, all_string_lists l' with
      | inr a, inr r => inr (a :: r)
      | inl e, _ => inl e
      | _, inl e => inl e
      end
  | _ :: _ => inl "cannot decode into slice"%string
  end.

Definition to_FileDict (v : bvalue) : string + FileDict :=
  match v with
  | BDict d =>
      match get_int "length" d, get_strs "path" d, get_str "md5sum" d with
      | inr n, inr p, inr m =>
          inr {| fd_Length := n; fd_Path := p; fd_Md5sum := m |}
      | inl e, _, _ => inl e
      | _, inl e, _ => inl e
      | _, _, inl e => inl e
      end
  | _ => inl "cannot decode into struct"%string
  end.

Fixpoint all_FileDicts (l : list bvalue) : string + list FileDict :=
  match l with
  | [] => inr []
  | v :: l' =>
      match to_FileDict v, all_FileDicts l' with
      | inr a, inr r => inr (a :: r)
      | inl e, _ => inl e
      | _, inl e => inl e
      end
  end.

Definition to_InfoDict (d : list (string * bvalue)) : string + InfoDict :=
  let fl := match dict_get "files" d with
            | None => inr []
            | Some (BList l) => all_FileDicts l
            | Some _ => inl "cannot decode into slice: files"%string
            end in
  match get_int "piece length" d, get_str "pieces" d, get_int "private" d,
        get_str "name" d, get_int "length" d, get_str "md5sum" d, fl with
  | inr pl, inr ps, inr pr, inr nm, inr ln, inr md, inr fl =>
      inr {| PieceLength := pl; Pieces := ps; Private := pr; Name := nm;
             Length := ln; Md5sum := md; Files := fl |}
  | inl e, _, _, _, _, _, _ => inl e
  | _, inl e, _, _, _, _, _ => inl e
  | _, _, inl e, _, _, _, _ => inl e
  | _, _, _, inl e, _, _, _ => inl e
  | _, _, _, _, inl e, _, _ => inl e
  | _, _, _, _, _, inl e, _ => inl e
  | _, _, _, _, _, _, inl e => inl e
  end.

Definition to_MetaInfo (v : bvalue) : string + MetaInfo :=
  match v with
  | BDict d =>
      let info := match dict_get "info" d with
                  | None => inr None
                  | Some (BDict i) =>
                      match to_InfoDict i with
                      | inr x => inr (Some x)
                      | inl e => inl e
                      end
                  | Some _ => inl "cannot decode into struct: info"%string
                  end in
      let al := match dict_get "announce-list" d with
                | None => inr []
                | Some (BList l) => all_string_lists l
                | Some _ => inl "cannot decode into slice: announce-list"%string
                end in
      match info, get_str "announce" d, al, get_int "creation date" d,
            get_str "comment" d, get_str "created by" d, get_str "encoding" d with
      | inr i, inr an, inr al, inr cd, inr co, inr cb, inr en =>
          inr {| mi_Info := i; Announce := an; AnnounceList := al;
                 CreationDate := cd; Comment := co; CreatedBy := cb;
                 Encoding := en; mi_InfoHash := "" |}
      | inl e, _, _, _, _, _, _ => inl e
      | _, inl e, _, _, _, _, _ => inl e
      | _, _, inl e, _, _, _, _ => inl e
      | _, _, _, inl e, _, _, _ => inl e
      | _, _, _, _, inl e, _, _ => inl e
      | _, _, _, _, _, inl e, _ => inl e
      | _, _, _, _, _, _, inl e => inl e
      end
  | _ => inl "cannot decode into struct"%string
  end.

(** The fields of a struct in the order of their keys; a field tagged
    [omitempty] is left out when it has the zero value. *)
Definition opt_int (k : string) (z : Z) : list (string * bvalue) :=
  if z =? 0 then [] else [(k, BInt z)].

Definition opt_str (k : string) (s : string) : list (string * bvalue) :=
  if String.eqb s "" then [] else [(k, BStr s)].

Definition of_FileDict (f : FileDict) : bvalue :=
  BDict ([("length"%string, BInt (fd_Length f))] ++
         opt_str "md5sum" (fd_Md5sum f) ++
         [("path"%string, BList (map BStr (fd_Path f)))]).

Definition of_InfoDict (i : InfoDict) : bvalue :=
  BDict ((match Files i with
          | [] => []
          | fl => [("files"%string, BList (map of_FileDict fl))]
          end) ++
         opt_int "length" (Length i) ++
         opt_str "md5sum" (Md5sum i) ++
         [("name"%string, BStr (Name i));
          ("piece length"%string, BInt (PieceLength i));
          ("pieces"%string, BStr (Pieces i));
          ("private"%string, BInt (Private i))]).

(** The library on the two calls; encoding a nil pointer is taken to be
    an error. *)
Definition bencode_codec : Codec :=
  {| decode_MetaInfo := fun s =>
       match bdecode s with
       | Some v => to_MetaInfo v
       | None => inl "bencode: syntax error"%string
       end;
     encode_Info := fun o =>
       match o with
       | Some i => inr (bytes_of_string (bencode (of_InfoDict i)))
       | None => inl "bencode: cannot encode nil"%string
       end |}.

(** The checks the specification lists for a descriptor. *)
Definition pieces_multiple_of_20 (i : InfoDict) : Prop :=
  (len (Pieces i) mod 20 = 0).

(** ** The store as a sequence of bytes *)

(** The bytes a name leads to; none when it is not a regular file. *)
Definition file_bytes (fs : FS) (name : string) : list byte :=
  match os_Stat fs name with
  | Some (File c) => c
  | _ => []
  end.

(** The files of the entries one after the other. *)
Fixpoint store_bytes (fs : FS) (es : list fileEntry) : list byte :=
  match es with
  | [] => []
  | fe :: es' => file_bytes fs (fe_name fe) ++ store_bytes fs es'
  end.


(** The offsets [NewFileStore] assigns: each file starts where the sum
    of the lengths before it ends, in [int64] arithmetic. *)
Fixpoint running (base : Z) (ls : list Z) : list Z :=
  match ls with
  | [] => []
  | l :: ls' => base :: running (wrap64 (base + l)) ls'
  end.

Fixpoint total_from (base : Z) (ls : list Z) : Z :=
  match ls with
  | [] => base
  | l :: ls' => total_from (wrap64 (base + l)) ls'
  end.

(** An entry made for a source file under a root: its length, and the
    joined path or the staging name of it. *)
Definition entry_of (storePath : string) (src : FileDict) (fe : fileEntry) : Prop :=
  fe_length fe = fd_Length src ∧
  (fe_name fe = full_path storePath src ∨
   fe_name fe = staging_name (full_path storePath src)).

Definition sum_Z (ls : list Z) : Z := fold_right Z.add 0 ls.


(** ** Staging and cleanup *)

(** [strings.Contains] *)
Fixpoint Contains (s sub : string) : bool :=
  HasPrefix s sub ||
  match s with
  | EmptyString => false
  | String _ s' => Contains s' sub
  end.

(** [os.Create] succeeds on a name that is no directory and whose
    directory exists. *)
Definition creatable (fs : FS) (p : string) : bool :=
  negb (is_dir fs (resolve fs p)) && is_dir fs (parent (resolve fs p)).

(** An entry that is staged, its staging file being there. *)
Definition staged_file (fs : FS) (fe : fileEntry) : Prop :=
  isPart fe = true ∧ ∃ c, os_Stat fs (fe_name fe) = Some (File c).

(** The name [fileEntry.Cleanup] gives an entry. *)
Definition realname (fe : fileEntry) : string := remove_first (fe_name fe) ".part".

(** ** The handshake header and the peer messages *)

(** The value of a hexadecimal digit, of either case. *)
Definition hex_val (c : ascii) : option Z :=
  let v := char_val c in
  if (48 <=? v) && (v <=? 57) then Some (v - 48)
  else if (97 <=? v) && (v <=? 102) then Some (v - 87)
  else if (65 <=? v) && (v <=? 70) then Some (v - 55)
  else None.

(** [hex.DecodeString]; [None] stands for an error: a byte that is no
    digit, or an odd length. *)
Fixpoint hex_decode (s : string) : option (list byte) :=
  match s with
  | EmptyString => Some []
  | String _ EmptyString => None
  | String a (String b s') =>
      match hex_val a, hex_val b, hex_decode s' with
      | Some x, Some y, Some r => Some (byte_of_Z (16 * x + y) :: r)
      | _, _, _ => None
      end
  end.

(** [copy(dst, src)]: the bytes of [dst] after the call. *)
Definition copy_bytes (dst src : list byte) : list byte :=
  take (length dst) src ++ drop (length src) dst.

(** [copy(h[lo:hi], src)] on the array of [h]. *)
Definition copy_at (h : list byte) (lo hi : nat) (src : list byte) : list byte :=
  take lo h ++ copy_bytes (take (hi - lo) (drop lo h)) src ++ drop hi h.

(** [h[i] |= mask] *)
Definition or_byte (h : list byte) (i : nat) (mask : Z) : list byte :=
  <[i := byte_of_Z (Z.lor (header_byte h i) mask)]> h.

Section Handshake.

(** The protocol prefix of the header, a constant declared with the
    wire protocol and not in these sources. *)
Variable kBitTorrentHeader : list byte.

(** [Header], given the public id of the share ([cs.ID.PublicID()]) and
    the header kept from an earlier call ([cs.header]); the result is
    also what the session keeps. *)
Definition Header (cs : ControlSession) (publicID : string) (kept : list byte)
    : outcome (list byte) :=
  if (0 <? length kept)%nat then Done kept
  else
    let header := replicate 68 x00 in
    let header := copy_bytes header kBitTorrentHeader in
    let header := or_byte header 27 1 in
    let header := or_byte header 25 16 in
    match hex_decode publicID with
    | None => Fatal
    | Some binID =>
        let header := copy_at header 28 48 binID in
        let header := copy_at header 48 68 (bytes_of_string (PeerID cs)) in
        Done header
    end.

End Handshake.

(** [Matches], given the public id of the share. *)
Definition Matches (publicID : string) (ih : string) : bool :=
  String.eqb publicID (hex_encode (bytes_of_string ih)).

(** An announce sent on the [Torrents] channel, [Announce] in the
    sources. *)
Record Announcement := { an_infohash : string; an_peer : string }.

(** What handling a message comes to: the error returned, the peer's
    state, the messages sent and the announce passed on. *)
Definition handled : Type :=
  option string * peerState * list event * option Announcement.

Definition set_theirExtensions (p : peerState) (m : gmap string Z) : peerState :=
  {| address := address p; peer_id := peer_id p; theirExtensions := m |}.

Section Messages.

(** The message type and the handshake id of the extension protocol,
    constants declared with the wire protocol. *)
Variable EXTENSION EXTENSION_HANDSHAKE : byte.

(** The bencode library on the two kinds of message: the [m] dictionary
    of an extension handshake, and an [IHMessage]. *)
Variable decode_handshake : list byte -> string + gmap string Z.
Variable decode_IHMessage : list byte -> string + IHMessage.

(** The IP of the remote end of a peer's connection. *)
Variable remote_ip : peerState -> string.

Definition DoPex (cs : ControlSession) (msg : list byte) (p : peerState) : handled :=
  (None, p, [], None).

Definition DoMetadata (cs : ControlSession) (msg : list byte) (p : peerState)
    : handled :=
  match decode_IHMessage msg with
  | inl err => (Some err, p, [], None)
  | inr message =>
      if String.eqb (InfoHash (Info message)) "" || (Port message =? 0)
      then (None, p, [], None)
      else if negb (String.eqb (currentIH cs) (InfoHash (Info message))) then
        let ip := remote_ip p in
        let port := Itoa (Port message) in
        (None, p, [],
         Some {| an_infohash := InfoHash (Info message);
                 an_peer := ip +:+ ":" +:+ port |})
      else (None, p, [], None)
  end.

(** [DoHandshake]; [msg] starts with the handshake id. *)
Definition DoHandshake (cs : ControlSession) (msg : list byte) (p : peerState)
    : handled :=
  match decode_handshake (drop 1 msg) with
  | inl err => (Some err, p, [], None)
  | inr m =>
      let p' := set_theirExtensions p m in
      (None, p', [ihMessage cs (currentIH cs) p'], None)
  end.

(** [DoOther]; [msg] is not empty. *)
Definition DoOther (cs : ControlSession) (msg : list byte) (p : peerState)
    : handled :=
  let id := header_byte msg 0 in
  match ourExtensions cs !! id with
  | Some ext =>
      if String.eqb ext "bs_metadata" then DoMetadata cs (drop 1 msg) p
      else if String.eqb ext "ut_pex" then DoPex cs (drop 1 msg) p
      else (Some ("unknown extension: " +:+ ext), p, [], None)
  | None => (Some ("Unknown extension: " +:+ Itoa id), p, [], None)
  end.

(** [DoMessage]; [None] is the nil message of a reader that exited.
    A message of one byte is indexed past its end. *)
Definition DoMessage (cs : ControlSession) (p : peerState)
    (message : option (list byte)) : outcome handled :=
  match message with
  | None => Done (Some "EOF"%string, p, [], None)
  | Some [] => Done (None, p, [], None)
  | Some (m0 :: rest) =>
      if negb (Byte.eqb m0 EXTENSION)
      then Done (Some "invalid message type"%string, p, [], None)
      else
        match rest with
        | [] => Fatal
        | m1 :: _ =>
            if Byte.eqb m1 EXTENSION_HANDSHAKE then Done (DoHandshake cs rest p)
            else Done (DoOther cs rest p)
        end
  end.

End Messages.

(** [Quit]: every peer of the table is closed. *)
Definition Quit (cs : ControlSession) : ControlSession * list event :=
  fold_left (fun acc (kv : string * peerState) =>
               let '(c, evs) := acc in
               let '(c', e) := ClosePeer c (snd kv) in
               (c', evs ++ e))
            (map_to_list (peers cs)) (cs, []).

(** What dialling a peer comes to: no connection, a connection on
    which the header cannot be written or read, or the 48 bytes read
    after the protocol prefix, with the remote address. *)
Inductive dialed :=
| DialFailed
| WriteFailed
| ReadFailed
| Handshaken (remote : string) (theirheader : list byte).

Section Connections.

Variable MAX_NUM_PEERS : nat.
Variable kBitTorrentHeader : list byte.

(** [connectToPeer]; the header is the session's, made on first use. *)
Definition connectToPeer (cs : ControlSession) (publicID : string)
    (kept : list byte) (peer : string) (net : dialed)
    : outcome (ControlSession * list event) :=
  match net with
  | DialFailed => Done (cs, [])
  | _ =>
      match Header kBitTorrentHeader cs publicID kept with
      | Fatal => Fatal
      | Failed e => Failed e
      | Done _ =>
          match net with
          | DialFailed => Done (cs, [])
          | WriteFailed => Done (cs, [EvLog "Failed to send header"])
          | ReadFailed => Done (cs, [EvLog "Failed to read header"])
          | Handshaken remote theirheader =>
              if (length theirheader <? 48)%nat then Fatal
              else
                let peersInfoHash :=
                  string_of_bytes (take 20 (drop 8 theirheader)) in
                let id := string_of_bytes (take 20 (drop 28 theirheader)) in
                if String.eqb id (PeerID cs) then
                  Done (cs, [EvLog "Tried to connecting to ourselves. Closing.";
                             EvClose remote])
                else
                  Done (AddPeer MAX_NUM_PEERS cs
                          {| header := theirheader; infohash := peersInfoHash;
                             conn_id := id; RemoteAddr := remote |})
          end
      end
  end.

(** [AcceptNewPeer]; [write_ok] tells whether the header could be
    written to the connection. *)
Definition AcceptNewPeer (cs : ControlSession) (publicID : string)
    (kept : list byte) (write_ok : bool) (btconn : btConn)
    : outcome (ControlSession * list event) :=
  match Header kBitTorrentHeader cs publicID kept with
  | Fatal => Fatal
  | Failed e => Failed e
  | Done _ =>
      if write_ok then Done (AddPeer MAX_NUM_PEERS cs btconn)
      else Done (cs, [EvLog "Error writing header"])
  end.

End Connections.

(** Every peer of the table is filed under its own address. *)
Definition keyed_by_address (ps : gmap string peerState) : Prop :=
  ∀ k p, ps !! k = Some p → address p = k.

(** ** Loading and saving a metainfo *)

(** [ioutil.ReadFile] *)
Definition ReadFile (fs : FS) (name : string) : string + list byte :=
  match os_Stat fs name with
  | Some (File c) => inr c
  | Some (Dir _) => inl "is a directory"%string
  | None => inl "no such file or directory"%string
  end.

(** A [MetaInfo] with nothing but its info-hash. *)
Definition MetaInfo_of_hash (ih : string) : MetaInfo :=
  {| mi_Info := None; Announce := ""; AnnounceList := []; CreationDate := 0;
     Comment := ""; CreatedBy := ""; Encoding := ""; mi_InfoHash := ih |}.

Section Loading.

Context `{Codec}.

(** What lies outside these sources: the body [proxyHttpGet] and
    [ioutil.ReadAll] give for a URL, the info-hashes [parseMagnet] finds
    in a magnet link, and [dht.DecodeInfoHash] on one of them. *)
Variable http_get : string -> string + list byte.
Variable parseMagnet : string -> string + list string.
Variable DecodeInfoHash : string -> string + string.

Definition NewMetaInfoFromHTTP (torrent : string)
    : option MetaInfo * option string :=
  match http_get torrent with
  | inl err => (None, Some err)
  | inr content => NewMetaInfoFromContent content
  end.

Definition NewMetaInfoFromFile (fs : FS) (torrent : string)
    : option MetaInfo * option string :=
  match ReadFile fs torrent with
  | inl err => (None, Some err)
  | inr content => NewMetaInfoFromContent content
  end.

(** [NewMetaInfoFromMagnet]: the first info-hash of the link is
    indexed without a check. *)
Definition NewMetaInfoFromMagnet (torrent : string)
    : outcome (option MetaInfo * option string) :=
  match parseMagnet torrent with
  | inl err => Done (None, Some err)
  | inr [] => Fatal
  | inr (h :: _) =>
      match DecodeInfoHash h with
      | inl err => Done (None, Some err)
      | inr ih => Done (Some (MetaInfo_of_hash ih), None)
      end
  end.

(** [NewMetaInfo], also [getMetaInfo]. *)
Definition NewMetaInfo (fs : FS) (torrent : string)
    : outcome (option MetaInfo * option string) :=
  if HasPrefix torrent "http:" then Done (NewMetaInfoFromHTTP torrent)
  else if HasPrefix torrent "magnet:" then NewMetaInfoFromMagnet torrent
  else
    match NewMetaInfoFromContent (bytes_of_string torrent) with
    | (m, None) => Done (m, None)
    | (_, Some _) => Done (NewMetaInfoFromFile fs torrent)
    end.

(** [RawInfo], given the bytes kept from an earlier call ([m.rawInfo],
    [None] when nil): the bytes returned and the bytes kept.  A buffer
    nothing was written to has nil bytes. *)
Definition RawInfo (m : MetaInfo) (rawInfo : option (list byte))
    : outcome (list byte * option (list byte)) :=
  match rawInfo with
  | Some b => Done (b, rawInfo)
  | None =>
      match mi_Info m with
      | None => Done ([], None)
      | Some i =>
          match encode_Info (Some i) with
          | inl _ => Fatal
          | inr [] => Done ([], None)
          | inr w => Done (w, Some w)
          end
      end
  end.

(** The encoder of the library on a whole [MetaInfo]: the bytes
    written, or an error with the bytes written before it. *)
Variable encode_MetaInfo : MetaInfo -> string * list byte + list byte.

(** [saveToDisk]: the error returned and the file system afterwards;
    the file is created before anything is encoded. *)
Definition saveToDisk (m : MetaInfo) (dir : string) (fs : FS)
    : option string * FS :=
  let ihhex := hex_encode (bytes_of_string (mi_InfoHash m)) in
  let name := Join [dir; ihhex] in
  match os_Create fs name with
  | (Some e, fs1) => (Some e, fs1)
  | (None, fs1) =>
      let '(err, w) := match encode_MetaInfo m with
                       | inl (e, w) => (Some e, w)
                       | inr w => (None, w)
                       end in
      (err, set_nodes fs1 (<[resolve fs1 name := File w]> (nodes fs1)))
  end.

(** [Size] *)
Definition Size (m : MetaInfo) : outcome Z :=
  match encode_MetaInfo m with
  | inl _ => Fatal
  | inr w => Done (Z.of_nat (length w))
  end.

End Loading.

(** * Stores as [NewFileStore] leaves them *)

(** An entry whose name leads to a node of the entry's length. *)
Definition sized (fs : FS) (fe : fileEntry) : Prop :=
  ∃ nd, os_Stat fs (fe_name fe) = Some nd ∧ node_size nd = fe_length fe.

(** No entry bears the name [fileEntry.open] removes for a file that
    comes after it, the path of that file with [.part]: [prev] are the
    entries made so far, [new] the entries of the files [srcs]. *)
Fixpoint stale_free (fs : FS) (storePath : string) (prev : list fileEntry)
    (srcs : list FileDict) (new : list fileEntry) : bool :=
  match srcs, new with
  | src :: srcs', fe :: new' =>
      forallb (fun p => negb (String.eqb (resolve fs (fe_name p))
                               (resolve fs (full_path storePath src +:+ ".part"))))
              prev
      && stale_free fs storePath (prev ++ [fe]) srcs' new'
  | _, _ => true
  end.


(** ** Concrete inputs *)

(** A session as [NewControlSession] makes it when nothing was
    persisted. *)
Definition session0 : ControlSession :=
  {| cs_Port := 6881; PeerID := "-tt4242_123456789012"; currentIH := "";
     rev := "0-"; ourExtensions := {[ 1 := "ut_pex"%string; 2 := "bs_metadata"%string ]};
     peers := ∅; bitshareDir := "/tmp/share" |}.

Definition env0 (current : IHMessage) : SessionEnv :=
  {| env_pid := 4242; env_rand := 1234567890123456789; env_dht_ok := true;
     env_open_failed := false; env_current := current |}.

Definition ih_a : string := "aaaaaaaaaaaaaaaaaaaa".
Definition ih_b : string := "bbbbbbbbbbbbbbbbbbbb".

Definition conn (addr id : string) : btConn :=
  {| header := replicate 48 x00; infohash := ih_a; conn_id := id;
     RemoteAddr := addr |}.

Definition fs_empty : FS := {| cwd := "/"; nodes := ∅ |}.

Definition file (n : Z) (path : list string) : FileDict :=
  {| fd_Length := n; fd_Path := path; fd_Md5sum := "" |}.

Definition info_of (name : string) (fl : list FileDict) : InfoDict :=
  {| PieceLength := 4; Pieces := ""; Private := 0; Name := name;
     Length := 0; Md5sum := ""; Files := fl |}.

(** The multi-file layout of the specification's scenarios. *)
Definition info_rxy : InfoDict :=
  info_of "r" [file 3 ["x"%string]; file 5 ["d"; "y"]%string].

(** A metainfo that lists the same path twice. *)
Definition info_twice : InfoDict :=
  info_of "r" [file 4 ["x"%string]; file 4 ["x"%string]].

Definition no_store : fileStore := {| offsets := []; files := [] |}.

Definition store_of (r : outcome (fileStore * Z) * FS) : fileStore :=
  match fst r with
  | Done (st, _) => st
  | _ => no_store
  end.

Definition built_rxy := NewFileStore info_rxy "/tmp/t" fs_empty.
Definition built_twice := NewFileStore info_twice "/tmp/t" fs_empty.

Definition dirs (l : list string) : list (string * node) :=
  (fun d => (d, Dir 4096)) <$> l.


(** A file system that holds both files of [info_rxy], complete. *)
Definition fs_complete : FS :=
  {| cwd := "/";
     nodes := list_to_map (dirs ["/tmp"; "/tmp/t"; "/tmp/t/d"]%string ++
                [("/tmp/t/x"%string, File (bytes_of_string "ABC"));
                 ("/tmp/t/d/y"%string, File (bytes_of_string "DEFGH"))]) |}.

Definition built_complete := NewFileStore info_rxy "/tmp/t" fs_complete.

(** A single file stored under a root of 68 bytes. *)
Definition long_root : string :=
  "/srv/rakoshare/shares/2016-family-archive-photos-and-videos-unsorted".

Definition info_notes : InfoDict :=
  {| PieceLength := 4; Pieces := ""; Private := 0; Name := "notes.txt";
     Length := 4; Md5sum := ""; Files := [] |}.

Definition built_notes := NewFileStore info_notes long_root fs_empty.

(** The single-file descriptor of the specification's first scenario. *)
Definition info_a : InfoDict :=
  {| PieceLength := 4;
     Pieces := string_of_bytes (SHA1.Sum (bytes_of_string "ABCD"));
     Private := 0; Name := "a"; Length := 4; Md5sum := ""; Files := [] |}.

Definition content_a : list byte :=
  bytes_of_string ("d4:info" +:+ bencode (of_InfoDict info_a) +:+ "e").

(** A descriptor without [piece length], with three bytes of pieces. *)
Definition content_short : list byte :=
  bytes_of_string "d4:infod6:lengthi4e4:name1:a6:pieces3:abcee".

(** A staging file whose final name is taken by a directory, as left
    by a metainfo that lists [d] and [d/y]. *)
Definition fs_clash : FS :=
  {| cwd := "/";
     nodes := list_to_map (dirs ["/tmp"; "/tmp/t"; "/tmp/t/d"]%string ++
                [("/tmp/t/d.part"%string, File (bytes_of_string "DATA"))]) |}.

(** The prefix of the handshake: the length 19, the protocol name and
    eight reserved bytes. *)
Definition bt_header : list byte :=
  x13 :: bytes_of_string "BitTorrent protocol" ++ replicate 8 x00.

(** The public id of a share whose info-hash is [ih_a]. *)
Definition public_a : string := hex_encode (bytes_of_string ih_a).

(** A peer that gave the code 3 to [bs_metadata], and a session that
    knows it. *)
Definition peer_a : peerState :=
  {| address := "10.0.0.1:6881"; peer_id := "peer-A";
     theirExtensions := {[ "bs_metadata"%string := 3 ]} |}.

Definition session1 : ControlSession :=
  set_peers session0 {[ "10.0.0.1:6881"%string := peer_a ]}.

(** The codes of the extension protocol, and decoders that read every
    message as the same handshake and the same announce. *)
Definition EXT : byte := x14.
Definition EXT_HANDSHAKE : byte := x00.

Definition handshake_none (msg : list byte) : string + gmap string Z := inr ∅.

Definition announce_b (msg : list byte) : string + IHMessage :=
  inr (NewIHMessage 6881 ih_b "" "1-00").

Definition ip_of (p : peerState) : string := "10.0.0.1".

(** A connection whose 48 bytes of header are all ones. *)
Definition conn_ones : btConn :=
  {| header := replicate 48 x01;
     infohash := string_of_bytes (take 20 (drop 8 (replicate 48 x01)));
     conn_id := string_of_bytes (take 20 (drop 28 (replicate 48 x01)));
     RemoteAddr := "10.0.0.9:6881" |}.

(** The descriptor parsed from [content_a]. *)
Definition meta_a : MetaInfo :=
  set_InfoHash
    {| mi_Info := Some info_a; Announce := ""; AnnounceList := [];
       CreationDate := 0; Comment := ""; CreatedBy := "";
       Encoding := ""; mi_InfoHash := "" |}
    (string_of_bytes (SHA1.Sum (bytes_of_string (bencode (of_InfoDict info_a))))).

(** No network, a magnet link with one info-hash, and a share
    directory. *)
Definition no_http (url : string) : string + list byte := inl "no network"%string.

Definition magnet_hashes (link : string) : string + list string :=
  inr [public_a].

Definition infohash_a (text : string) : string + string := inr ih_a.

Definition fs_share : FS :=
  {| cwd := "/"; nodes := list_to_map (dirs ["/tmp"; "/tmp/share"]%string) |}.

Definition encode_as_a (m : MetaInfo) : string * list byte + list byte :=
  inr content_a.
(** * Properties *)

(** ** Checks of the library models *)

Example sha1_empty :
  hex_encode (SHA1.Sum []) = "da39a3ee5e6b4b0d3255bfef95601890afd80709"%string.
Proof. vm_compute. reflexivity. Qed.

Example sha1_abc :
  hex_encode (SHA1.Sum (bytes_of_string "abc"))
  = "a9993e364706816aba3e25717850c26c9cd0d89d"%string.
Proof. vm_compute. reflexivity. Qed.

Example sha1_two_blocks :
  hex_encode (SHA1.Sum (bytes_of_string
    "abcdbcdecdefdefgefghfghighijhijkijkljklmklmnlmnomnopnopq"))
  = "84983e441c3bd26ebaae4aa1f95129e5e54670f1"%string.
Proof. vm_compute. reflexivity. Qed.

Example Itoa_examples :
  Itoa 0 = "0"%string /\ Itoa 7 = "7"%string /\ Itoa 10 = "10"%string /\
  Itoa 1234567890 = "1234567890"%string /\ Itoa (-45) = "-45"%string /\
  Itoa MaxInt64 = "9223372036854775807"%string.
Proof. vm_compute. repeat split. Qed.

Example Atoi_examples :
  Atoi "12" = Some 12 /\ Atoi "-3" = Some (-3) /\ Atoi "+5" = Some 5 /\
  Atoi "" = None /\ Atoi "-" = None /\ Atoi "1-a" = None /\
  Atoi "9223372036854775808" = None /\ Atoi "007" = Some 7.
Proof. vm_compute. repeat split. Qed.

Example Split_examples :
  Split "3-ab" "-" = ["3"; "ab"]%string /\ Split "" "-" = [""%string] /\
  Split "3-a-b" "-" = ["3"; "a"; "b"]%string /\ Split "0-" "-" = ["0"; ""]%string.
Proof. vm_compute. repeat split. Qed.


Example Clean_examples :
  Clean "" = "."%string /\ Clean "/" = "/"%string /\
  Clean "/../a/./b//c/.." = "/a/b"%string /\
  Clean "a/../../b" = "../b"%string /\ Clean "../../x" = "../../x"%string /\
  Clean "abc/def/../.." = "."%string /\ Clean "/tmp/t/" = "/tmp/t"%string /\
  Clean "a/..b/.c" = "a/..b/.c"%string.
Proof. vm_compute. repeat split. Qed.

Example Join_examples :
  Join ["a"; ""; "b"]%string = "a/b"%string /\ Join [""; ""]%string = ""%string /\
  Join ["/tmp/t"; "d/y"]%string = "/tmp/t/d/y"%string /\
  Join ["/tmp/t"; ""]%string = "/tmp/t"%string /\
  Join [".."; ".."; "etc"]%string = "../../etc"%string.
Proof. vm_compute. repeat split. Qed.

Example Ext_examples :
  Ext "/tmp/a.b/c" = ""%string /\ Ext "/tmp/a.tar.gz" = ".gz"%string /\
  Ext "x." = "."%string /\ Ext ".bashrc" = ".bashrc"%string.
Proof. vm_compute. repeat split. Qed.

Example path_Split_examples :
  path_Split "/tmp/t/x" = ("/tmp/t/", "x")%string /\
  path_Split "x" = ("", "x")%string /\ path_Split "/x" = ("/", "x")%string.
Proof. vm_compute. repeat split. Qed.

Example remove_first_examples :
  remove_first "/tmp/a.txt/b.txt" ".txt" = "/tmp/a/b.txt"%string /\
  remove_first "abc" "" = "abc"%string /\
  remove_first "x.part.part" ".part" = "x.part"%string.
Proof. vm_compute. repeat split. Qed.

(** ** Strings and numbers *)

Lemma MaxInt64_val : MaxInt64 = 9223372036854775807.
Proof. reflexivity. Qed.

Lemma MinInt64_val : MinInt64 = -9223372036854775808.
Proof. reflexivity. Qed.

(** Linear arithmetic with the bounds of [int64] as numbers. *)
Ltac int64_lia :=
  pose proof MaxInt64_val; pose proof MinInt64_val; unfold in_int64 in *; lia.

Lemma wrap64_id x : in_int64 x → wrap64 x = x.
Proof.
  unfold in_int64, wrap64, MinInt64, MaxInt64. intros H.
  rewrite Z.mod_small; lia.
Qed.

Lemma Split_no_sep s sep : contains_char sep s = false → Split s sep = [s].
Proof.
  induction s as [|c s IH]; simpl; [done|].
  intros H. apply orb_false_iff in H as [Hc Hs].
  rewrite Hc, (IH Hs). done.
Qed.


Lemma contains_char_app c s t :
  contains_char c (s +:+ t) = contains_char c s || contains_char c t.
Proof.
  induction s as [|d s IH]; simpl; [done|]. by rewrite IH, orb_assoc.
Qed.



Lemma parse_digits_nonneg s n c :
  parse_digits s n = Some c → 0 <= n → 0 <= c.
Proof.
  revert n. induction s as [|d s IH]; simpl; intros n H Hn.
  - injection H as <-. done.
  - destruct (is_digit d) eqn:Hd; [|discriminate].
    apply (IH _ H). unfold is_digit in Hd.
    apply andb_true_iff in Hd as [H1 H2]. lia.
Qed.














(** *** Restoring the revision at construction *)

Lemma initialRev_without_2 s :
  contains_char "2" s = false → initialRev s = "0-"%string.
Proof.
  intros H. unfold initialRev. rewrite (Split_no_sep s "2" H).
  by destruct (String.eqb s "").
Qed.

(** C2 fails on the code by a wrong constant: the restored revision is
    split on the character ["2"], not on the dash, so a revision without
    the digit 2 is always discarded.  The revision that [SetCurrent]
    itself persisted after one call from ["0-"] has the form counter,
    dash, hex hash, and is discarded at the next construction; the
    string ["52"] has not that form and is taken. *)
Theorem initialRev_splits_on_2 :
  (∀ s, contains_char "2" s = false → initialRev s = "0-"%string)
  ∧ ∃ cs1 evs m,
      SetCurrent true session0 ih_a = Done (cs1, evs) ∧
      EvPersist "/tmp/share/current" m ∈ evs ∧
      parses_as_revision (Rev (Info m)) = true ∧
      (∃ cs2, NewControlSession (env0 m) 6881 "/tmp/share" = Done cs2 ∧
              rev cs2 = "0-"%string ∧ rev cs2 ≠ Rev (Info m)) ∧
      parses_as_revision "52" = false ∧
      initialRev "52" = "52"%string.
Proof.
  split; [exact initialRev_without_2|].
  eexists _, _, _. split; [reflexivity|].
  split; [apply list_elem_of_In; left; reflexivity|].
  split; [vm_compute; reflexivity|].
  split.
  - eexists. split; [vm_compute; reflexivity|].
    split; [reflexivity|]. vm_compute. discriminate.
  - split; vm_compute; reflexivity.
Qed.

Lemma initialRev_splits_on_2_witness :
  initialRev "1-da39a3ee5e6b4b0d3755bfef95601890afd80709" = "0-"%string.
Proof.
  apply (proj1 initialRev_splits_on_2). reflexivity.
Defined.

(** *** Peer admission *)

Lemma has_peer_id_true ps i :
  has_peer_id ps i = true ↔ ∃ k p, ps !! k = Some p ∧ peer_id p = i.
Proof.
  unfold has_peer_id. rewrite existsb_exists. split.
  - intros [[k p] [Hin Heq]]. exists k, p. split.
    + apply elem_of_map_to_list. by apply list_elem_of_In.
    + by apply String.eqb_eq.
  - intros (k & p & Hk & Hid). exists (k, p). split.
    + apply list_elem_of_In. by apply elem_of_map_to_list.
    + by apply String.eqb_eq.
Qed.

Lemma has_peer_id_false ps i :
  has_peer_id ps i = false ↔ ∀ k p, ps !! k = Some p → peer_id p ≠ i.
Proof.
  split.
  - intros H k p Hk Hid.
    assert (has_peer_id ps i = true) as Ht by (apply has_peer_id_true; eauto).
    congruence.
  - intros H. destruct (has_peer_id ps i) eqn:E; [|done].
    apply has_peer_id_true in E as (k & p & Hk & Hid). by destruct (H k p).
Qed.

Section AdmissionProofs.

Variable MAX_NUM_PEERS : nat.

Lemma AddPeer_known_id cs b :
  has_peer_id (peers cs) (conn_id b) = true →
  AddPeer MAX_NUM_PEERS cs b = (cs, []).
Proof. intros H. unfold AddPeer. by rewrite H. Qed.


Lemma AddPeer_admitted cs b :
  has_peer_id (peers cs) (conn_id b) = false →
  (size (peers cs) < MAX_NUM_PEERS)%nat →
  peers (fst (AddPeer MAX_NUM_PEERS cs b))
  = <[RemoteAddr b := NewPeerState (RemoteAddr b) (conn_id b)]> (peers cs).
Proof.
  intros H Hlt. unfold AddPeer. rewrite H.
  destruct (Nat.leb_spec MAX_NUM_PEERS (size (peers cs))); [lia|done].
Qed.




Lemma ClosePeer_invariant cs p :
  (size (peers cs) ≤ MAX_NUM_PEERS)%nat → ids_unique (peers cs) →
  (size (peers (fst (ClosePeer cs p))) ≤ MAX_NUM_PEERS)%nat ∧
  ids_unique (peers (fst (ClosePeer cs p))).
Proof.
  intros Hsz Hu. cbn. split.
  - rewrite map_size_delete. destruct (peers cs !! address p); simpl; lia.
  - intros k1 k2 p1 p2 H1 H2.
    apply lookup_delete_Some in H1 as [_ H1].
    apply lookup_delete_Some in H2 as [_ H2]. eauto.
Qed.

End AdmissionProofs.



(** ** Paths *)

Lemma str_app_cons x (a b : string) : String x a +:+ b = String x (a +:+ b).
Proof. reflexivity. Qed.

Lemma str_app_nil_l (b : string) : "" +:+ b = b.
Proof. reflexivity. Qed.

Lemma str_app_assoc (a b c : string) : (a +:+ b) +:+ c = a +:+ (b +:+ c).
Proof.
  induction a as [|x a IH]; [done|]. rewrite !str_app_cons. by f_equal.
Qed.

Lemma HasPrefix_app a b : HasPrefix (a +:+ b) a = true.
Proof.
  induction a as [|x a IH]; [by destruct b|].
  rewrite str_app_cons. cbn [HasPrefix]. by rewrite Ascii.eqb_refl, IH.
Qed.

Lemma Split_nonempty s sep : Split s sep ≠ [].
Proof.
  destruct s as [|c s]; simpl; [done|].
  destruct (Ascii.eqb c sep); [done|]. by destruct (Split s sep).
Qed.

Lemma Split_app s t sep :
  Split (s +:+ String sep t) sep = Split s sep ++ Split t sep.
Proof.
  induction s as [|c s IH]; simpl.
  - by rewrite Ascii.eqb_refl.
  - rewrite IH. destruct (Ascii.eqb c sep); [done|].
    pose proof (Split_nonempty s sep). by destruct (Split s sep).
Qed.

Lemma Split_sep_free s sep :
  Forall (fun e => contains_char sep e = false) (Split s sep).
Proof.
  induction s as [|c s IH]; cbn [Split]; [by repeat constructor|].
  destruct (Ascii.eqb c sep) eqn:E; [by constructor|].
  destruct (Split s sep) as [|p ps].
  - constructor; [|done]. cbn. by rewrite E.
  - apply Forall_cons in IH as [Hp Hps]. constructor; [|done].
    cbn. by rewrite E.
Qed.

Lemma join_with_cons sep x y K :
  join_with sep (x :: y :: K) = x +:+ sep +:+ join_with sep (y :: K).
Proof. reflexivity. Qed.

Lemma Split_join K sep :
  K ≠ [] → Forall (fun e => contains_char sep e = false) K →
  Split (join_with (String sep "") K) sep = K.
Proof.
  induction K as [|x K IH]; [done|]. intros _ H.
  apply Forall_cons in H as [Hx HK]. destruct K as [|y K].
  - cbn [join_with]. by apply Split_no_sep.
  - rewrite join_with_cons. rewrite str_app_cons, str_app_nil_l.
    rewrite Split_app, IH by done. by rewrite Split_no_sep.
Qed.

Lemma join_app K1 K2 :
  K1 ≠ [] → K2 ≠ [] →
  join_with "/" (K1 ++ K2) = join_with "/" K1 +:+ "/" +:+ join_with "/" K2.
Proof.
  induction K1 as [|x K1 IH]; [done|]. intros _ H2. destruct K1 as [|y K1].
  - destruct K2 as [|z K2]; [done|]. cbn [app]. by rewrite join_with_cons.
  - cbn [app]. rewrite !join_with_cons.
    change (y :: K1 ++ K2) with ((y :: K1) ++ K2). rewrite IH by done.
    by rewrite !str_app_assoc.
Qed.

Lemma clean_step_real r st e : is_real e = true → clean_step r st e = e :: st.
Proof.
  unfold is_real, clean_step. intros H. apply negb_true_iff in H.
  apply orb_false_iff in H as [H H3]. rewrite H. by rewrite H3.
Qed.

Lemma process_real r l : ∀ st,
  Forall (fun e => is_real e = true) l → process r l st = List.rev l ++ st.
Proof.
  induction l as [|e l IH]; intros st H; [done|].
  apply Forall_cons in H as [He Hl]. cbn [process fold_left].
  rewrite clean_step_real by done. fold (process r l (e :: st)).
  rewrite IH by done. simpl. by rewrite <- app_assoc.
Qed.

Lemma process_app r l1 l2 st :
  process r (l1 ++ l2) st = process r l2 (process r l1 st).
Proof. apply fold_left_app. Qed.

Lemma clean_step_kept r st e :
  Forall (fun x => is_kept x = true) st →
  Forall (fun x => is_kept x = true) (clean_step r st e).
Proof.
  intros H. unfold clean_step.
  destruct (String.eqb e "" || String.eqb e ".") eqn:E1; [done|].
  destruct (String.eqb e "..") eqn:E2.
  - destruct st as [|top rest]; [destruct r; [done|]|].
    + constructor; [|done]. unfold is_kept. by rewrite E1.
    + apply Forall_cons in H as [Ht Hr].
      destruct (String.eqb top ".."); [destruct r|done].
      * by constructor.
      * constructor; [unfold is_kept; by rewrite E1|by constructor].
  - constructor; [unfold is_kept; by rewrite E1|done].
Qed.

Lemma process_kept r l : ∀ st,
  Forall (fun x => is_kept x = true) st →
  Forall (fun x => is_kept x = true) (process r l st).
Proof.
  induction l as [|e l IH]; intros st H; [done|].
  cbn [process fold_left]. apply IH. by apply clean_step_kept.
Qed.

Lemma clean_step_rooted_real st e :
  Forall (fun x => is_real x = true) st →
  Forall (fun x => is_real x = true) (clean_step true st e).
Proof.
  intros H. unfold clean_step.
  destruct (String.eqb e "" || String.eqb e ".") eqn:E1; [done|].
  destruct (String.eqb e "..") eqn:E2.
  - destruct st as [|top rest]; [done|].
    destruct (String.eqb top ".."); [done|]. by apply Forall_cons in H as [_ Hr].
  - constructor; [|done]. unfold is_real. rewrite E1, E2. done.
Qed.

Lemma process_rooted_real l : ∀ st,
  Forall (fun x => is_real x = true) st →
  Forall (fun x => is_real x = true) (process true l st).
Proof.
  induction l as [|e l IH]; intros st H; [done|].
  cbn [process fold_left]. apply IH. by apply clean_step_rooted_real.
Qed.

Lemma clean_step_sep_free r st e :
  contains_char "/" e = false →
  Forall (fun x => contains_char "/" x = false) st →
  Forall (fun x => contains_char "/" x = false) (clean_step r st e).
Proof.
  intros He H. unfold clean_step.
  destruct (_ || _); [done|]. destruct (String.eqb e "..").
  - destruct st as [|top rest]; [destruct r; [done|by constructor]|].
    apply Forall_cons in H as [Ht Hr].
    destruct (String.eqb top ".."); [destruct r|done]; by repeat constructor.
  - by constructor.
Qed.

Lemma process_sep_free r l : ∀ st,
  Forall (fun x => contains_char "/" x = false) l →
  Forall (fun x => contains_char "/" x = false) st →
  Forall (fun x => contains_char "/" x = false) (process r l st).
Proof.
  induction l as [|e l IH]; intros st Hl H; [done|].
  apply Forall_cons in Hl as [He Hl].
  cbn [process fold_left]. apply IH; [done|]. by apply clean_step_sep_free.
Qed.

Lemma clean_step_skip r st e :
  String.eqb e "" || String.eqb e "." = true → clean_step r st e = st.
Proof. intros H. unfold clean_step. by rewrite H. Qed.

Lemma clean_step_dotdot r st :
  clean_step r st ".."
  = match st with
    | top :: rest =>
        if String.eqb top ".." then (if r then st else ".."%string :: st) else rest
    | [] => if r then [] else [".."%string]
    end.
Proof. reflexivity. Qed.

(** Cleaning a relative path first does not change what it does to the
    elements kept before it. *)
Lemma process_normal r l : ∀ st,
  process r (List.rev (process false l [])) st = process r l st.
Proof.
  induction l as [|e l IH] using rev_ind; intros st; [done|].
  rewrite !process_app. cbn [process fold_left]. fold (process false l []).
  fold (process r l st). rewrite <- IH.
  pose proof (process_kept false l [] ltac:(constructor)) as Hk.
  set (K := process false l []) in *. clearbody K.
  destruct (String.eqb e "" || String.eqb e ".") eqn:E1.
  { by rewrite !clean_step_skip. }
  destruct (String.eqb e "..") eqn:E2.
  - apply String.eqb_eq in E2 as ->. rewrite (clean_step_dotdot false K).
    destruct K as [|top rest]; [done|].
    apply Forall_cons in Hk as [Ht Hr].
    destruct (String.eqb top "..") eqn:E3.
    + cbn [List.rev]. by rewrite process_app.
    + cbn [List.rev]. rewrite process_app. cbn [process fold_left].
      fold (process r (List.rev rest) st).
      assert (is_real top = true) as Hreal.
      { unfold is_real, is_kept in *. by rewrite E3, orb_false_r. }
      rewrite (clean_step_real _ _ top Hreal).
      rewrite clean_step_dotdot. by rewrite E3.
  - assert (is_real e = true) as Hreal by (unfold is_real; by rewrite E1, E2).
    rewrite !clean_step_real by done. cbn [List.rev]. rewrite process_app.
    cbn [process fold_left]. by rewrite clean_step_real.
Qed.

Lemma HasPrefix_nil p : HasPrefix p "" = true.
Proof. by destruct p. Qed.

Lemma Clean_render p :
  p ≠ EmptyString → Clean p = render (HasPrefix p "/") (clean_elems p).
Proof.
  destruct p as [|c p]; [done|]. intros _. unfold Clean, render, clean_elems, process.
  cbn [HasPrefix]. rewrite HasPrefix_nil, andb_true_r.
  destruct (Ascii.eqb c "/"); [done|]. by destruct (List.rev _).
Qed.

Lemma clean_elems_kept p :
  Forall (fun x => is_kept x = true) (clean_elems p) ∧
  Forall (fun x => contains_char "/" x = false) (clean_elems p).
Proof.
  unfold clean_elems. split; apply Forall_rev.
  - apply process_kept. constructor.
  - apply process_sep_free; [apply Split_sep_free|constructor].
Qed.

Lemma clean_elems_rooted_real p :
  HasPrefix p "/" = true → Forall (fun x => is_real x = true) (clean_elems p).
Proof.
  intros H. unfold clean_elems. rewrite H. apply Forall_rev.
  apply process_rooted_real. constructor.
Qed.

(** Cleaning again reads the same elements. *)
Lemma process_Split_render r' r K st :
  Forall (fun x => contains_char "/" x = false) K →
  process r' (Split (render r K) "/") st = process r' K st.
Proof.
  intros Hs. unfold render. destruct r.
  - destruct K as [|x K]; [done|].
    change (String "/" ?t) with ("" +:+ String "/" t).
    rewrite Split_app. change (Split "" "/") with [""%string].
    change "/"%string with (String "/"%char "") at 1.
    rewrite Split_join by done. done.
  - destruct K as [|x K]; [done|].
    change "/"%string with (String "/"%char "") at 1.
    by rewrite Split_join.
Qed.

Lemma real_sep_free_head x :
  is_real x = true → contains_char "/" x = false →
  ∃ c x', x = String c x' ∧ Ascii.eqb c "/" = false.
Proof.
  destruct x as [|c x']; [done|]. intros _ H. cbn in H.
  apply orb_false_iff in H as [H _]. eauto.
Qed.

Lemma join_head R :
  R ≠ [] → Forall (fun x => is_real x = true) R →
  Forall (fun x => contains_char "/" x = false) R →
  ∃ c t, join_with "/" R = String c t ∧ Ascii.eqb c "/" = false.
Proof.
  destruct R as [|x R]; [done|]. intros _ Hr Hs.
  apply Forall_cons in Hr as [Hx _]. apply Forall_cons in Hs as [Hsx _].
  destruct (real_sep_free_head x Hx Hsx) as (c & x' & -> & Hc).
  destruct R as [|y R]; [by exists c, x'|].
  rewrite join_with_cons, str_app_cons. eauto.
Qed.

(** The relative path of a file of the metainfo, after cleaning: real
    elements only. *)
Lemma clean_source_path src :
  ∃ R, Forall (fun x => is_real x = true) R ∧
       Forall (fun x => contains_char "/" x = false) R ∧
       str_drop 1 (Clean ("/" +:+ Join src)) = join_with "/" R.
Proof.
  change ("/" +:+ Join src) with (String "/" (Join src)).
  assert (HasPrefix (String "/" (Join src)) "/" = true) as Hp.
  { cbn [HasPrefix]. by rewrite HasPrefix_nil. }
  exists (clean_elems (String "/" (Join src))).
  split; [by apply clean_elems_rooted_real|].
  split; [apply clean_elems_kept|].
  rewrite Clean_render by done. by rewrite Hp.
Qed.

Lemma HasPrefix_app_l S t : S ≠ EmptyString → HasPrefix (S +:+ t) "/" = HasPrefix S "/".
Proof.
  destruct S as [|c S]; [done|]. intros _. rewrite str_app_cons.
  cbn [HasPrefix]. by rewrite !HasPrefix_nil.
Qed.

(** What [path.Join] of the root and the cleaned relative path is. *)
Lemma Join_root_relative S R :
  Forall (fun x => is_real x = true) R →
  Forall (fun x => contains_char "/" x = false) R →
  (S = EmptyString ∧ R = [] ∧ Join [S; join_with "/" R] = EmptyString) ∨
  ∃ X, X ≠ EmptyString ∧ Join [S; join_with "/" R] = Clean X ∧
       HasPrefix X "/" = HasPrefix S "/" ∧
       ∀ r st, process r (Split X "/") st
               = List.rev R ++ process r (Split S "/") st.
Proof.
  intros Hr Hs. unfold Join.
  destruct (decide (S = EmptyString)) as [->|HS];
    destruct (decide (R = [])) as [->|HR].
  - left. done.
  - right. destruct (join_head R HR Hr Hs) as (c & t & Hj & Hc).
    rewrite filter_cons_False by (intros H; by apply H).
    rewrite filter_cons_True by (rewrite Hj; done). rewrite filter_nil.
    exists (join_with "/" R). split; [by rewrite Hj|]. split; [done|]. split.
    + rewrite Hj. cbn [HasPrefix]. by rewrite Hc.
    + intros r st. change "/"%string with (String "/"%char "") at 1.
      rewrite Split_join by done. by rewrite process_real.
  - right. rewrite filter_cons_True by done.
    rewrite filter_cons_False by (intros H; by apply H). rewrite filter_nil.
    exists S. done.
  - right. destruct (join_head R HR Hr Hs) as (c & t & Hj & Hc).
    rewrite filter_cons_True by done.
    rewrite filter_cons_True by (rewrite Hj; done). rewrite filter_nil.
    exists (S +:+ "/" +:+ join_with "/" R). split; [by destruct S|].
    split; [done|]. split; [by apply HasPrefix_app_l|].
    intros r st. rewrite str_app_cons, str_app_nil_l, Split_app, process_app.
    change "/"%string with (String "/"%char "") at 1.
    rewrite Split_join by done. by rewrite process_real.
Qed.

Lemma resolve_render fs p :
  HasPrefix (cwd fs) "/" = true → resolve fs p = render true (abs_elems fs p).
Proof.
  intros Hcwd. unfold resolve, abs_elems.
  destruct (HasPrefix p "/") eqn:Hp.
  - rewrite Clean_render by (by destruct p). by rewrite Hp.
  - assert (HasPrefix (cwd fs +:+ "/" +:+ p) "/" = true) as Hc.
    { destruct (cwd fs) as [|c w]; [done|]. by rewrite HasPrefix_app_l. }
    rewrite Clean_render by (by destruct (cwd fs)). by rewrite Hc.
Qed.

Lemma render_relative_prefix N :
  Forall (fun x => is_kept x = true) N →
  Forall (fun x => contains_char "/" x = false) N →
  HasPrefix (render false N) "/" = false.
Proof.
  intros Hk Hs. destruct N as [|x N]; [done|].
  apply Forall_cons in Hk as [Hx _]. apply Forall_cons in Hs as [Hsx _].
  destruct x as [|c x]; [done|]. cbn in Hsx. apply orb_false_iff in Hsx as [Hc _].
  unfold render. destruct N as [|y N].
  - cbn [join_with HasPrefix]. by rewrite Hc.
  - rewrite join_with_cons, str_app_cons. cbn [HasPrefix]. by rewrite Hc.
Qed.

Lemma abs_elems_joined fs S X R :
  HasPrefix (cwd fs) "/" = true → X ≠ EmptyString →
  HasPrefix X "/" = HasPrefix S "/" →
  Forall (fun x => is_real x = true) R →
  (∀ r st, process r (Split X "/") st = List.rev R ++ process r (Split S "/") st) →
  abs_elems fs (Clean X) = abs_elems fs S ++ R.
Proof.
  intros Hcwd HX HpX Hr Hproc.
  destruct (clean_elems_kept X) as [Hk Hs].
  rewrite Clean_render by done. unfold abs_elems.
  destruct (HasPrefix S "/") eqn:HpS; rewrite HpX.
  - pose proof (clean_elems_rooted_real X HpX) as Hreal.
    assert (HasPrefix (render true (clean_elems X)) "/" = true) as ->.
    { cbn [render HasPrefix]. by rewrite HasPrefix_nil. }
    unfold clean_elems at 1.
    assert (HasPrefix (render true (clean_elems X)) "/" = true) as ->.
    { cbn [render HasPrefix]. by rewrite HasPrefix_nil. }
    rewrite process_Split_render by done.
    rewrite process_real, app_nil_r, rev_involutive by done.
    unfold clean_elems. rewrite HpX, HpS, Hproc, rev_app_distr, rev_involutive. done.
  - rewrite render_relative_prefix by done.
    unfold clean_elems.
    assert (∀ t, HasPrefix (cwd fs +:+ "/" +:+ t) "/" = true) as Hc.
    { intros t. destruct (cwd fs) as [|c w]; [done|]. by rewrite HasPrefix_app_l. }
    rewrite !Hc, !str_app_cons, !str_app_nil_l, !Split_app, !process_app.
    rewrite process_Split_render by done.
    fold (clean_elems X). unfold clean_elems at 1. rewrite HpX.
    rewrite process_normal, Hproc, rev_app_distr, rev_involutive. done.
Qed.

(** The defence of [NewFileStore] against directory traversal: whatever
    the path elements of a file, the joined path lies inside the root. *)
Lemma joined_path_inside_root fs storePath src :
  HasPrefix (cwd fs) "/" = true →
  inside fs storePath
    (Join [storePath; str_drop 1 (Clean ("/" +:+ Join src))]) = true.
Proof.
  intros Hcwd. destruct (clean_source_path src) as (R & Hr & Hs & ->).
  destruct (Join_root_relative storePath R Hr Hs)
    as [(-> & -> & ->)|(X & HX & -> & HpX & Hproc)].
  { unfold inside. by rewrite String.eqb_refl. }
  unfold inside. rewrite !resolve_render by done.
  rewrite (abs_elems_joined fs storePath X R) by done.
  set (K := abs_elems fs storePath).
  destruct R as [|x R]; [by rewrite app_nil_r, String.eqb_refl|].
  apply orb_true_iff. right.
  destruct (String.eqb (render true K) "/") eqn:E.
  - apply String.eqb_eq in E. rewrite E.
    cbn [render HasPrefix]. by rewrite HasPrefix_nil.
  - destruct K as [|k K]; [done|].
    unfold render. rewrite join_app by done.
    rewrite <- str_app_cons, <- str_app_assoc. apply HasPrefix_app.
Qed.

(** ** File store *)

(** *** Binary search *)

Lemma search_loop_spec (n : nat) (f : nat → bool) fuel : ∀ i j,
  (i ≤ j)%nat → (j - i ≤ fuel)%nat →
  (i = 0%nat ∨ f (i - 1)%nat = false) → (j = n ∨ f j = true) →
  let r := search_loop fuel f i j in
  (i ≤ r ≤ j)%nat ∧ (r = 0%nat ∨ f (r - 1)%nat = false) ∧ (r = n ∨ f r = true).
Proof.
  induction fuel as [|fuel IH]; intros i j Hij Hfuel Hi Hj; cbn [search_loop].
  - assert (i = j) as -> by lia. cbv zeta. split; [lia|done].
  - destruct (Nat.ltb_spec i j) as [Hlt|Hge].
    + assert (i ≤ (i + j) / 2 < j)%nat as Hh.
      { split.
        - apply Nat.div_le_lower_bound; lia.
        - apply Nat.Div0.div_lt_upper_bound; lia. }
      destruct (f ((i + j) / 2)%nat) eqn:Hf.
      * destruct (IH i ((i + j) / 2)%nat) as (H1 & H2 & H3); [lia|lia|done|by right|].
        split; [lia|done].
      * destruct (IH ((i + j) / 2 + 1)%nat j) as (H1 & H2 & H3); [lia|lia| |done|].
        { right. by replace ((i + j) / 2 + 1 - 1)%nat with ((i + j) / 2)%nat by lia. }
        split; [lia|done].
    + assert (i = j) as -> by lia. cbv zeta. split; [lia|done].
Qed.

Lemma find_spec f off :
  let r := find f off in
  (offsets f ≠ [] → (r < length (offsets f))%nat) ∧
  (r = 0%nat ∨ nth r (offsets f) 0 < off) ∧
  (S r = length (offsets f) ∨ offsets f = [] ∨ off <= nth (r + 1) (offsets f) 0).
Proof.
  unfold find, sort_Search.
  set (n := length (offsets f)).
  set (g := fun i : nat => if Z.of_nat n - 1 <=? Z.of_nat i then true
                           else off <=? nth (i + 1) (offsets f) 0).
  destruct (search_loop_spec n g n 0%nat n) as (H1 & H2 & H3);
    [lia|lia|by left|by left|].
  cbv zeta in *. remember (search_loop n g 0 n) as r eqn:Hr. clear Hr.
  assert (offsets f ≠ [] → (r < n)%nat) as Hlt.
  { intros Hne. assert (0 < n)%nat as Hn.
    { subst n. destruct (offsets f); [done|simpl; lia]. }
    destruct (Nat.lt_ge_cases r n) as [|Hge]; [done|].
    assert (r = n) as -> by lia.
    destruct H2 as [H2|H2]; [lia|]. unfold g in H2.
    destruct (Z.leb_spec (Z.of_nat n - 1) (Z.of_nat (n - 1))); [done|lia]. }
  split; [done|]. split.
  - destruct r as [|r]; [by left|right].
    destruct H2 as [H2|H2]; [done|]. unfold g in H2.
    destruct (Z.of_nat n - 1 <=? _); [done|].
    replace (S r - 1 + 1)%nat with (S r) in H2 by lia.
    by apply Z.leb_gt in H2.
  - destruct (offsets f) as [|o os] eqn:Hos; [by right; left|].
    specialize (Hlt ltac:(done)).
    destruct H3 as [H3|H3]; [lia|]. unfold g in H3.
    destruct (Z.leb_spec (Z.of_nat n - 1) (Z.of_nat r)) as [Hle|Hgt].
    + left. lia.
    + right. right. by apply Z.leb_le.
Qed.

(** *** One backing file *)

Lemma resolve_cwd fs fs' p : cwd fs' = cwd fs → resolve fs' p = resolve fs p.
Proof. intros H. unfold resolve. by rewrite H. Qed.

Lemma os_Stat_File fs p c :
  os_Stat fs p = Some (File c) ↔
  String.eqb (resolve fs p) "/" = false ∧ nodes fs !! resolve fs p = Some (File c).
Proof.
  unfold os_Stat. destruct (String.eqb (resolve fs p) "/"); intuition congruence.
Qed.

Lemma resize_exact (l : list byte) n : length l = n → resize l n = l.
Proof.
  intros <-. unfold resize. rewrite take_ge by lia.
  rewrite Nat.sub_diag. simpl. by rewrite app_nil_r.
Qed.

Lemma resize_empty n : resize [] n = replicate n x00.
Proof. unfold resize. rewrite take_nil. simpl. by rewrite Nat.sub_0_r. Qed.

Lemma file_WriteAt_inside c q io :
  0 <= io → q ≠ [] → (Z.to_nat io + length q ≤ length c)%nat →
  ∃ c', file_WriteAt c q io = Some c' ∧ length c' = length c ∧
        take (length q) (drop (Z.to_nat io) c') = q.
Proof.
  intros Hio Hq Hlen. unfold file_WriteAt.
  destruct (Z.ltb_spec io 0) as [|_]; [lia|].
  destruct q as [|x q]; [done|]. eexists. split; [reflexivity|].
  set (o := Z.to_nat io) in *. set (q' := x :: q) in *.
  rewrite resize_exact by (rewrite length_take; lia).
  split.
  - rewrite !length_app, length_take, length_drop. lia.
  - rewrite drop_app_length' by (rewrite length_take; lia).
    by rewrite take_app_length.
Qed.

Lemma file_ReadAt_inside c b io :
  0 <= io → (Z.to_nat io + length b ≤ length c)%nat →
  file_ReadAt c b io
  = (take (length b) (drop (Z.to_nat io) c), Z.of_nat (length b), None).
Proof.
  intros Hio Hlen. unfold file_ReadAt.
  destruct (Z.ltb_spec io 0) as [|_]; [lia|].
  assert (length (take (length b) (drop (Z.to_nat io) c)) = length b) as Hn.
  { rewrite length_take, length_drop. lia. }
  rewrite Hn, drop_all, app_nil_r, Nat.ltb_irrefl. done.
Qed.

Lemma only_contents_refl ks fs : only_contents ks fs fs.
Proof. split; [done|]. split; [done|]. eauto. Qed.

Lemma only_contents_trans ks1 ks2 ks fs1 fs2 fs3 :
  ks1 ⊆ ks → ks2 ⊆ ks →
  only_contents ks1 fs1 fs2 → only_contents ks2 fs2 fs3 →
  only_contents ks fs1 fs3.
Proof.
  intros Hs1 Hs2 (Hc1 & Hf1 & Hz1) (Hc2 & Hf2 & Hz2). split; [congruence|]. split.
  - intros k Hk. rewrite Hf2, Hf1; [done| |]; intros Hin; apply Hk; auto.
  - intros k c Hk. destruct (Hz1 k c Hk) as (c1 & Hk1 & Hl1).
    destruct (Hz2 k c1 Hk1) as (c2 & Hk2 & Hl2). exists c2. split; [done|lia].
Qed.

Lemma backed_only_contents ks fs fs' fe :
  only_contents ks fs fs' → backed fs fe → backed fs' fe.
Proof.
  intros (Hc & _ & Hz) (c & Hst & Hlen).
  apply os_Stat_File in Hst as [Hroot Hk].
  destruct (Hz _ _ Hk) as (c' & Hk' & Hl').
  exists c'. split; [|lia].
  apply os_Stat_File. by rewrite (resolve_cwd fs fs' _ Hc).
Qed.

Lemma fileEntry_WriteAt_inside fe fs q io :
  backed fs fe → 0 <= io → q ≠ [] →
  io + Z.of_nat (length q) <= fe_length fe →
  ∃ c', fileEntry_WriteAt fe fs q io
        = (Z.of_nat (length q), None,
           set_nodes fs (<[resolve fs (fe_name fe) := File c']> (nodes fs))) ∧
        Z.of_nat (length c') = fe_length fe ∧
        take (length q) (drop (Z.to_nat io) c') = q.
Proof.
  intros (c & Hst & Hlen) Hio Hq Hfit. unfold fileEntry_WriteAt. rewrite Hst.
  destruct (file_WriteAt_inside c q io) as (c' & -> & Hl & Hrd); [done|done|lia|].
  exists c'. split; [done|]. split; [lia|done].
Qed.

Lemma write_one_only_contents fs k c c' :
  nodes fs !! k = Some (File c) → length c' = length c →
  only_contents [k] fs (set_nodes fs (<[k := File c']> (nodes fs))).
Proof.
  intros Hk Hl. split; [done|]. split.
  - intros k' Hk'. cbn. rewrite lookup_insert_ne; [done|]. set_solver.
  - intros k' d Hk'. cbn. destruct (decide (k = k')) as [<-|Hne].
    + rewrite lookup_insert_eq. exists c'. split; [done|]. congruence.
    + rewrite lookup_insert_ne by done. eauto.
Qed.

Lemma fileEntry_ReadAt_inside fe fs c b io :
  os_Stat fs (fe_name fe) = Some (File c) → 0 <= io →
  (Z.to_nat io + length b ≤ length c)%nat →
  fileEntry_ReadAt fe fs b io
  = (take (length b) (drop (Z.to_nat io) c), Z.of_nat (length b), None).
Proof.
  intros Hst Hio Hlen. unfold fileEntry_ReadAt. rewrite Hst.
  by apply file_ReadAt_inside.
Qed.

(** *** The loops over the entries *)

Lemma end_of_ge es : ∀ b, aligned b es → b <= end_of b es.
Proof.
  induction es as [|[o fe] es IH]; intros b H; simpl in *; [lia|].
  destruct H as (_ & HL & Hal). specialize (IH _ Hal). lia.
Qed.

Lemma only_contents_mono ks ks' fs fs' :
  ks ⊆ ks' → only_contents ks fs fs' → only_contents ks' fs fs'.
Proof.
  intros Hs H. eapply (only_contents_trans ks ks ks'); [done|done|done|].
  apply only_contents_refl.
Qed.

Lemma keys_cwd fs fs' es : cwd fs' = cwd fs → keys fs' es = keys fs es.
Proof.
  intros H. unfold keys. apply list_fmap_ext. intros _ e _. by apply resolve_cwd.
Qed.

Lemma store_loops es : ∀ fs p off n b,
  aligned b es → Forall (backed fs) (es.*2) → (p = [] ∨ b <= off) →
  0 <= b → off <= MaxInt64 → end_of b es <= MaxInt64 →
  ∃ fs', WriteAt_loop es fs p off n
         = (drop (within p off b es) p, n + Z.of_nat (within p off b es), None, fs') ∧
     only_contents (keys fs es) fs fs' ∧
     (NoDup (keys fs es) → ∀ done buf m, length buf = length p →
        ReadAt_loop es fs' done buf off m
        = (done ++ take (within p off b es) p, drop (within p off b es) buf,
           m + Z.of_nat (within p off b es), None)).
Proof.
  induction es as [|[o entry] es IH]; intros fs p off n b Hal Hbk Hoff Hb Hmax Hend.
  - exists fs. assert (within p off b [] = 0%nat) as ->.
    { unfold within. simpl. destruct Hoff as [->|]; simpl; lia. }
    simpl. rewrite Z.add_0_r. split; [by destruct p|].
    split; [apply only_contents_refl|].
    intros _ done buf m _. rewrite app_nil_r, Z.add_0_r. by destruct buf.
  - destruct p as [|x p].
    { exists fs. assert (within [] off b ((o, entry) :: es) = 0%nat) as ->.
      { unfold within. simpl. lia. }
      simpl. rewrite Z.add_0_r. split; [done|].
      split; [apply only_contents_refl|].
      intros _ done buf m Hlen. destruct buf; [|done].
      by rewrite app_nil_r, Z.add_0_r. }
    destruct Hoff as [|Hoff]; [done|].
    cbn [aligned] in Hal. destruct Hal as (-> & HL & Hal).
    pose proof (end_of_ge _ _ Hal) as Hge.
    cbn [end_of] in Hend.
    apply Forall_cons in Hbk as [Hbk1 Hbk]. cbn [snd] in Hbk1.
    set (pp := x :: p) in *.
    assert (wrap64 (off - b) = off - b) as Hio.
    { apply wrap64_id. int64_lia. }
    cbn [WriteAt_loop]. fold pp. rewrite Hio.
    destruct (Z.ltb_spec (off - b) (fe_length entry)) as [Hin|Hout].
    + (* the entry holds the offset *)
      assert (wrap64 (fe_length entry - (off - b)) = fe_length entry - (off - b)) as ->.
      { apply wrap64_id. int64_lia. }
      set (chunk := if fe_length entry - (off - b) <? Z.of_nat (length pp)
                    then fe_length entry - (off - b) else Z.of_nat (length pp)).
      assert (0 < chunk ∧ chunk <= Z.of_nat (length pp) ∧
              chunk <= fe_length entry - (off - b) ∧
              (chunk = fe_length entry - (off - b) ∨ chunk = Z.of_nat (length pp)))
        as (Hc0 & Hc1 & Hc2 & Hc3).
      { subst chunk pp. cbn [length].
        destruct (Z.ltb_spec (fe_length entry - (off - b)) (Z.of_nat (S (length p)))); lia. }
      assert (length (take (Z.to_nat chunk) pp) = Z.to_nat chunk) as Hlq.
      { rewrite length_take. lia. }
      destruct (fileEntry_WriteAt_inside entry fs (take (Z.to_nat chunk) pp) (off - b))
        as (c1 & Hw & Hlc1 & Hrd); [done|lia| |lia|].
      { intros Hnil. rewrite Hnil in Hlq. simpl in Hlq. lia. }
      rewrite Hw, Hlq, Z2Nat.id by lia.
      destruct Hbk1 as (c0 & Hst0 & Hlc0).
      pose proof (proj1 (os_Stat_File _ _ _) Hst0) as [Hroot Hk0].
      set (key := resolve fs (fe_name entry)) in *.
      set (fs1 := set_nodes fs (<[key := File c1]> (nodes fs))).
      assert (only_contents [key] fs fs1) as Hoc1.
      { apply (write_one_only_contents fs key c0 c1); [done|lia]. }
      assert (wrap64 (off + chunk) = off + chunk) as Hnext.
      { apply wrap64_id. int64_lia. }
      rewrite Hnext.
      destruct (IH fs1 (drop (Z.to_nat chunk) pp) (off + chunk) (n + chunk)
                  (b + fe_length entry)) as (fs' & Hwl & Hoc & Hrl);
        [done| | |lia|lia|done|].
      { eapply Forall_impl; [exact Hbk|]. intros fe. by apply backed_only_contents with [key]. }
      { destruct Hc3 as [Hc3|Hc3]; [right; lia|left]. apply drop_ge. lia. }
      assert (within pp off b ((b, entry) :: es)
              = (Z.to_nat chunk + within (drop (Z.to_nat chunk) pp) (off + chunk)
                                         (b + fe_length entry) es)%nat) as Hk.
      { unfold within. cbn [end_of]. rewrite length_drop. lia. }
      rewrite Hk. exists fs'. split; [|split].
      * rewrite Hwl, drop_drop. do 3 f_equal. lia.
      * apply (only_contents_trans [key] (keys fs1 es) _ fs fs1 fs'); [| |done|done].
        -- cbn. fold key. apply list_subseteq_skip, list_subseteq_nil.
        -- rewrite (keys_cwd fs fs1) by done. cbn. by apply list_subseteq_cons.
      * intros Hnd done buf m Hlen. cbn [keys fmap list_fmap snd] in Hnd. fold key in Hnd.
        apply NoDup_cons in Hnd as [Hfresh Hnd].
        destruct buf as [|y buf]; [done|].
        cbn [ReadAt_loop]. set (bb := y :: buf) in *. rewrite Hio.
        destruct (Z.ltb_spec (off - b) (fe_length entry)) as [_|]; [|lia].
        assert (wrap64 (fe_length entry - (off - b)) = fe_length entry - (off - b)) as ->.
        { apply wrap64_id. int64_lia. }
        rewrite Hlen. fold chunk.
        assert (length (take (Z.to_nat chunk) bb) = Z.to_nat chunk) as Hlb.
        { rewrite length_take. lia. }
        assert (os_Stat fs' (fe_name entry) = Some (File c1)) as Hst'.
        { destruct Hoc as (Hcwd & Hframe & _).
          apply os_Stat_File. rewrite (resolve_cwd fs1 fs') by done.
          change (resolve fs1 (fe_name entry)) with key. split; [done|].
          rewrite Hframe; [subst fs1; cbn; apply lookup_insert_eq|].
          by rewrite (keys_cwd fs fs1). }
        rewrite (fileEntry_ReadAt_inside entry fs' c1) by (done || lia).
        rewrite Hlb, <- Hlq, Hrd, Hlq, Z2Nat.id by lia.
        rewrite take_app_length', drop_app_length', Hnext by done.
        rewrite Hrl by (by rewrite ?length_drop, ?Hlen).
        rewrite <- (assoc_L (++)), take_take_drop, drop_drop. do 2 f_equal. lia.
    + (* the offset is past this entry *)
      change (within pp off b ((b, entry) :: es))
        with (within pp off (b + fe_length entry) es).
      destruct (IH fs pp off n (b + fe_length entry)) as (fs' & Hwl & Hoc & Hrl);
        [done|done|right; lia|lia|done|done|].
      exists fs'. split; [done|]. split.
      * eapply only_contents_mono; [|exact Hoc]. cbn. by apply list_subseteq_cons.
      * intros Hnd done buf m Hlen. cbn [keys fmap list_fmap] in Hnd.
        apply NoDup_cons in Hnd as [_ Hnd].
        destruct buf as [|y buf]; [done|]. cbn [ReadAt_loop]. rewrite Hio.
        destruct (Z.ltb_spec (off - b) (fe_length entry)) as [|_]; [lia|].
        by apply Hrl.
Qed.

(** *** Reading and writing through the store *)

Lemma first_nonzero_None l : ∀ i,
  first_nonzero l i = None ↔ Forall (fun b => b = x00) l.
Proof.
  induction l as [|b l IH]; intros i; simpl; [done|].
  destruct (is_zero_byte b) eqn:E.
  - rewrite IH. apply byte_dec_bl in E as ->. split.
    + intros H. by constructor.
    + intros H. by apply Forall_cons in H as [_ H].
  - split; [done|]. intros H. apply Forall_cons in H as [-> _]. discriminate.
Qed.

Lemma aligned_drop r : ∀ es b,
  aligned b es → (r < length es)%nat →
  aligned (nth r es.*1 0) (drop r es) ∧
  end_of (nth r es.*1 0) (drop r es) = end_of b es ∧
  b <= nth r es.*1 0.
Proof.
  induction r as [|r IH]; intros [|[o fe] es] b Hal Hr; simpl in Hr; try lia.
  - destruct Hal as (-> & HL & Hal). cbn. done.
  - destruct Hal as (-> & HL & Hal).
    destruct (IH es _ Hal) as (H1 & H2 & H3); [lia|].
    cbn. split; [done|]. split; [done|lia].
Qed.

(** The entries the loops of [ReadAt] and [WriteAt] start from. *)
Lemma entries_from_find f fs totalSize off :
  store_backed f fs totalSize → 0 <= off →
  ∃ b, aligned b (entries_from f (find f off)) ∧
       end_of b (entries_from f (find f off)) = totalSize ∧
       0 <= b <= off ∧
       Forall (backed fs) (entries_from f (find f off)).*2 ∧
       keys fs (entries_from f (find f off)) ⊆ keys fs (zip (offsets f) (files f)) ∧
       (distinct_files f fs → NoDup (keys fs (entries_from f (find f off)))).
Proof.
  intros (Hlen & Hal & Hend & Hmax & Hbk) Hoff.
  destruct (find_spec f off) as (Hlt & Hfind & _). unfold entries_from.
  set (es := zip (offsets f) (files f)) in *.
  assert (es.*1 = offsets f) as H1 by (apply fst_zip; lia).
  assert (es.*2 = files f) as H2 by (apply snd_zip; lia).
  assert (keys fs (drop (find f off) es) ⊆ keys fs es) as Hsub.
  { unfold keys. rewrite fmap_drop. apply subseteq_drop. }
  assert (distinct_files f fs → NoDup (keys fs (drop (find f off) es))) as Hnd.
  { unfold distinct_files, keys. fold es. rewrite fmap_drop. intros Hnd.
    eapply sublist_NoDup; [exact Hnd|apply sublist_drop]. }
  assert (Forall (backed fs) (drop (find f off) es).*2) as Hbk'.
  { rewrite fmap_drop, H2. by apply Forall_drop. }
  destruct (offsets f) as [|o0 os] eqn:Hos.
  - assert (es = []) as Hes by done.
    exists 0. rewrite Hes in *. rewrite drop_nil in *.
    simpl in *. repeat split; try done; lia.
  - assert (find f off < length es)%nat as Hr.
    { rewrite <- (length_fmap fst es), H1. by apply Hlt. }
    destruct (aligned_drop (find f off) es 0 Hal Hr) as (Ha & He & Hb).
    rewrite H1 in *.
    exists (nth (find f off) (o0 :: os) 0). repeat split; try done; try lia.
    destruct Hfind as [->|]; [|lia].
    subst es. destruct (files f); [done|].
    simpl in Hal. cbn. lia.
Qed.

Lemma store_backed_only_contents ks f fs fs' totalSize :
  only_contents ks fs fs' → store_backed f fs totalSize → store_backed f fs' totalSize.
Proof.
  intros Hoc (Hlen & Hal & Hend & Hmax & Hbk). repeat split; try done.
  eapply Forall_impl; [exact Hbk|]. intros fe. by apply backed_only_contents with ks.
Qed.

(** C3 (as amended).  In a store whose entries are backed by regular
    files of their lengths, no two entries sharing a file, writing [B]
    at [o] with [0 <= o] and [o + len(B) <= totalSize] succeeds, and
    reading the same range afterwards returns exactly [B]. *)
Theorem WriteAt_ReadAt_roundtrip f fs totalSize B o :
  store_backed f fs totalSize → distinct_files f fs →
  0 <= o → o + Z.of_nat (length B) <= totalSize →
  ∃ fs', fileStore_WriteAt f fs B o = (Z.of_nat (length B), None, fs') ∧
         store_backed f fs' totalSize ∧
         ∀ buf, length buf = length B →
                fileStore_ReadAt f fs' buf o = (B, Z.of_nat (length B), None).
Proof.
  intros Hst Hnd Ho Hfit.
  destruct (entries_from_find f fs totalSize o Hst Ho)
    as (b & Hal & Hend & Hb & Hbk & Hsub & Hnd').
  pose proof Hst as (_ & _ & _ & Hmax & _).
  destruct (store_loops (entries_from f (find f o)) fs B o 0 b)
    as (fs' & Hw & Hoc & Hr); [done|done|right; lia|lia|lia|lia|].
  assert (within B o b (entries_from f (find f o)) = length B) as Hk.
  { unfold within. rewrite Hend. lia. }
  rewrite Hk in *. rewrite drop_all in Hw.
  exists fs'. split; [|split].
  - unfold fileStore_WriteAt. rewrite Hw. cbn. f_equal. f_equal. lia.
  - by apply store_backed_only_contents with (keys fs (entries_from f (find f o))) fs.
  - intros buf Hlen. unfold fileStore_ReadAt.
    rewrite (Hr (Hnd' Hnd) [] buf 0 Hlen).
    rewrite take_ge by lia. rewrite drop_ge by lia. cbn.
    by rewrite app_nil_r.
Qed.


Lemma store_of_built_rxy :
  store_of built_rxy
  = {| offsets := [0; 3];
       files := [ {| fe_length := 3; fe_name := "/tmp/t/x.part" |};
                  {| fe_length := 5; fe_name := "/tmp/t/d/y.part" |} ] |}.
Proof. vm_compute. reflexivity. Qed.

Lemma built_rxy_backed : store_backed (store_of built_rxy) (snd built_rxy) 8.
Proof.
  unfold store_backed. rewrite store_of_built_rxy. cbn.
  split; [reflexivity|]. split; [lia|]. split; [reflexivity|].
  split; [vm_compute; discriminate|].
  repeat constructor; eexists; (split; [vm_compute; reflexivity|reflexivity]).
Qed.

Lemma built_rxy_distinct : distinct_files (store_of built_rxy) (snd built_rxy).
Proof.
  unfold distinct_files. rewrite store_of_built_rxy.
  apply (bool_decide_unpack _). vm_compute. exact I.
Qed.

Lemma WriteAt_ReadAt_roundtrip_witness :
  ∃ fs', fileStore_WriteAt (store_of built_rxy) (snd built_rxy)
           (bytes_of_string "BCDEFG") 1 = (6, None, fs') ∧
         store_backed (store_of built_rxy) fs' 8 ∧
         ∀ buf, length buf = 6%nat →
           fileStore_ReadAt (store_of built_rxy) fs' buf 1
           = (bytes_of_string "BCDEFG", 6, None).
Proof.
  apply (WriteAt_ReadAt_roundtrip (store_of built_rxy) (snd built_rxy) 8
           (bytes_of_string "BCDEFG") 1).
  - exact built_rxy_backed.
  - exact built_rxy_distinct.
  - lia.
  - cbn. lia.
Defined.

(** C3 as stated fails for a store whose entries share a backing file:
    built from a metainfo that lists the path [x] twice, both entries
    are backed by [/tmp/t/x.part]; eight bytes written at offset 0 are
    accepted, and read back as the last four twice. *)
Lemma roundtrip_shared_backing_file :
  ∃ st, fst built_twice = Done (st, 8) ∧
    let w := fileStore_WriteAt st (snd built_twice) (bytes_of_string "ABCDEFGH") 0 in
    0 <= 0 ∧ 0 + Z.of_nat (length (bytes_of_string "ABCDEFGH")) <= 8 ∧
    fst w = (8, None) ∧
    fileStore_ReadAt st (snd w) (replicate 8 x00) 0
    = (bytes_of_string "EFGHEFGH", 8, None) ∧
    bytes_of_string "EFGHEFGH" ≠ bytes_of_string "ABCDEFGH".
Proof.
  eexists. split; [vm_compute; reflexivity|].
  cbv zeta. split; [lia|]. split; [cbn; lia|].
  split; [vm_compute; reflexivity|]. split; [vm_compute; reflexivity|].
  discriminate.
Qed.


(** *** Construction of the store *)

Lemma os_Stat_nodes fs p :
  String.eqb (resolve fs p) "/" = false → os_Stat fs p = nodes fs !! resolve fs p.
Proof. intros H. unfold os_Stat. by rewrite H. Qed.

Lemma mkdirs_keeps elems : ∀ cur m err m',
  mkdirs elems cur m = (err, m') →
  ∀ k v, m !! k = Some v → m' !! k = Some v.
Proof.
  induction elems as [|e elems IH]; intros cur m err m' H k v Hk; simpl in H.
  - by injection H as _ <-.
  - destruct (m !! (cur +:+ "/" +:+ e)) as [[c|sz]|] eqn:E.
    + by injection H as _ <-.
    + eapply IH; eauto.
    + eapply IH; [exact H|]. rewrite lookup_insert_ne; [done|]. congruence.
Qed.

Lemma ensureDirectory_keeps fs p fs' :
  ensureDirectory fs p = Done fs' →
  cwd fs' = cwd fs ∧ ∀ k v, nodes fs !! k = Some v → nodes fs' !! k = Some v.
Proof.
  unfold ensureDirectory, os_MkdirAll. intros H.
  destruct (String.eqb _ ""); [done|].
  destruct (mkdirs _ _ _) as [[e|] m'] eqn:E; [done|].
  injection H as <-. split; [done|]. intros k v. by eapply mkdirs_keeps.
Qed.

Lemma os_Create_failed fs p e fs' : os_Create fs p = (Some e, fs') → fs' = fs.
Proof.
  unfold os_Create. destruct (is_dir _ _); [by intros [= _ <-]|].
  destruct (negb _); [by intros [= _ <-]|done].
Qed.

(** A file created and then truncated to [length] is a file of zeros. *)
Lemma create_truncate fs pn length fs2 :
  os_Create fs pn = (None, fs2) →
  cwd (snd (os_Truncate fs2 pn length)) = cwd fs ∧
  String.eqb (resolve fs pn) "/" = false ∧
  nodes (snd (os_Truncate fs2 pn length))
  = <[resolve fs pn := File (replicate (Z.to_nat length) x00)]> (nodes fs).
Proof.
  unfold os_Create. destruct (is_dir fs (resolve fs pn)) eqn:Hdir; [done|].
  destruct (negb _); [done|]. intros [= <-].
  unfold is_dir in Hdir. apply orb_false_iff in Hdir as [Hroot _].
  unfold os_Truncate. cbn [cwd nodes set_nodes].
  change (resolve (set_nodes fs _) pn) with (resolve fs pn).
  rewrite lookup_insert_eq.
  destruct (Z.ltb_spec length 0) as [Hneg|Hpos]; cbn.
  - split; [done|]. split; [done|]. by replace (Z.to_nat length) with 0%nat by lia.
  - split; [done|]. split; [done|]. by rewrite insert_insert_eq, resize_empty.
Qed.

Lemma after_removal_frame fs name :
  cwd (after_removal fs name) = cwd fs ∧
  ∀ k, k ≠ resolve fs (name +:+ ".part") →
       nodes (after_removal fs name) !! k = nodes fs !! k.
Proof.
  unfold after_removal. destruct (os_Stat fs _); [|done]. unfold os_Remove.
  destruct (nodes fs !! _) as [[c|sz]|]; [| |done].
  - split; [done|]. intros k Hk. cbn. by rewrite lookup_delete_ne.
  - destruct (has_children _ _); [done|]. split; [done|].
    intros k Hk. cbn. by rewrite lookup_delete_ne.
Qed.


(** [fileEntry.open] by cases: the final file is there with the right
    size, or the entry is staged, or the staging file cannot be
    created. *)
Lemma fileEntry_open_cases fs name length :
  let fs1 := after_removal fs name in
  (∃ st, os_Stat fs1 name = Some st ∧ node_size st = length ∧
         fileEntry_open fs name length
         = ({| fe_length := length; fe_name := name |}, None, fs1))
  ∨ (∃ e, fileEntry_open fs name length
          = ({| fe_length := length; fe_name := name |}, Some e, fs1))
  ∨ (∃ fs3, fileEntry_open fs name length
          = ({| fe_length := length; fe_name := staging_name name |}, None, fs3) ∧
        cwd fs3 = cwd fs ∧
        String.eqb (resolve fs (staging_name name)) "/" = false ∧
        nodes fs3 = <[resolve fs (staging_name name) :=
                        File (replicate (Z.to_nat length) x00)]> (nodes fs1) ∧
        (os_Stat fs1 name = None ∨
         ∃ st, os_Stat fs1 name = Some st ∧ node_size st ≠ length)).
Proof.
  intros fs1. unfold fileEntry_open. fold (after_removal fs name). fold fs1.
  fold (staging_name name).
  assert (cwd fs1 = cwd fs) as Hcwd by apply after_removal_frame.
  set (need := match os_Stat fs1 name with
               | Some st => negb (node_size st =? length)
               | None => true
               end).
  assert (need = true →
          os_Stat fs1 name = None ∨ ∃ st, os_Stat fs1 name = Some st ∧ node_size st ≠ length)
    as Hwhy.
  { subst need. destruct (os_Stat fs1 name) as [st|]; [|by left].
    intros H. right. exists st. split; [done|]. apply negb_true_iff in H. lia. }
  destruct need eqn:Hneed.
  - destruct (os_Create fs1 (staging_name name)) as [[e|] fs2] eqn:Hcr.
    + right. left. exists e. by rewrite (os_Create_failed _ _ _ _ Hcr).
    + right. right. eexists. split; [reflexivity|].
      destruct (create_truncate fs1 (staging_name name) length fs2 Hcr) as (H1 & H2 & H3).
      rewrite (resolve_cwd fs fs1) in * by done.
      split; [congruence|]. split; [done|]. split; [done|]. by apply Hwhy.
  - left. subst need. destruct (os_Stat fs1 name) as [st|]; [|done].
    exists st. split; [done|]. split; [|done]. apply negb_false_iff in Hneed. lia.
Qed.

Lemma fileEntry_open_result fs name length fe fs' :
  fileEntry_open fs name length = (fe, None, fs') → 0 <= length →
  fe_length fe = length ∧
  (fe_name fe = name ∨ fe_name fe = staging_name name) ∧
  (∃ nd, os_Stat fs' (fe_name fe) = Some nd ∧ node_size nd = length) ∧
  cwd fs' = cwd fs ∧
  (∀ k, k ≠ resolve fs (name +:+ ".part") → k ≠ resolve fs (staging_name name) →
        nodes fs' !! k = nodes fs !! k).
Proof.
  intros Hopen Hlen.
  destruct (after_removal_frame fs name) as [Hcwd1 Hframe1].
  destruct (fileEntry_open_cases fs name length)
    as [(st & Hst & Hsz & Heq)|[(e & Heq)|(fs3 & Heq & Hcwd & Hroot & Hnodes & _)]];
    rewrite Heq in Hopen; [|done|]; injection Hopen as <- <-; cbn.
  - split; [done|]. split; [by left|]. split; [by exists st|]. split; [done|].
    intros k Hk _. by apply Hframe1.
  - split; [done|]. split; [by right|]. split; [|split; [done|]].
    + eexists. split.
      * rewrite os_Stat_nodes; rewrite (resolve_cwd fs fs3) by done; [|done].
        rewrite Hnodes. apply lookup_insert_eq.
      * cbn. rewrite length_replicate. lia.
    + intros k Hk1 Hk2. rewrite Hnodes, lookup_insert_ne by done. by apply Hframe1.
Qed.


(** C7 (as amended).  For the metainfo named [r] with files [x] of
    length 3 and [d/y] of length 5 and the root [/tmp/t], construction,
    when it succeeds, backs the entries by [/tmp/t/x] or [/tmp/t/x.part]
    of size 3 and by [/tmp/t/d/y] or [/tmp/t/d/y.part] of size 5, and
    returns the total size 8: the name is not part of the paths. *)
Theorem NewFileStore_layout fs st totalSize fs' :
  NewFileStore info_rxy "/tmp/t" fs = (Done (st, totalSize), fs') →
  totalSize = 8 ∧ offsets st = [0; 3] ∧
  ∃ n1 n2,
    files st = [ {| fe_length := 3; fe_name := n1 |};
                 {| fe_length := 5; fe_name := n2 |} ] ∧
    (n1 = "/tmp/t/x"%string ∨ n1 = "/tmp/t/x.part"%string) ∧
    (n2 = "/tmp/t/d/y"%string ∨ n2 = "/tmp/t/d/y.part"%string) ∧
    (∃ nd, os_Stat fs' n1 = Some nd ∧ node_size nd = 3) ∧
    (∃ nd, os_Stat fs' n2 = Some nd ∧ node_size nd = 5).
Proof.
  unfold NewFileStore, info_rxy, info_of, file. cbn [Files NewFileStore_loop fd_Path fd_Length].
  change (Join ["/tmp/t"%string; str_drop 1 (Clean ("/" +:+ Join ["x"%string]))])
    with "/tmp/t/x"%string.
  change (Join ["/tmp/t"%string; str_drop 1 (Clean ("/" +:+ Join ["d"; "y"]%string))])
    with "/tmp/t/d/y"%string.
  change (wrap64 (0 + 3)) with 3. change (wrap64 (3 + 5)) with 8.
  destruct (ensureDirectory fs "/tmp/t/x") as [fsA| |] eqn:EA; [|done|done].
  destruct (fileEntry_open fsA "/tmp/t/x" 3) as [[fe1 [e|]] fsB] eqn:E1; [done|].
  destruct (ensureDirectory fsB "/tmp/t/d/y") as [fsC| |] eqn:EC; [|done|done].
  destruct (fileEntry_open fsC "/tmp/t/d/y" 5) as [[fe2 [e|]] fsD] eqn:E2; [done|].
  intros [= <- <- <-]. cbn [offsets files app].
  destruct (fileEntry_open_result _ _ _ _ _ E1) as (Hl1 & Hn1 & (nd1 & Hs1 & Hz1) & Hc1 & _);
    [lia|].
  destruct (fileEntry_open_result _ _ _ _ _ E2) as (Hl2 & Hn2 & Hs2 & Hc2 & Hf2); [lia|].
  destruct (ensureDirectory_keeps _ _ _ EC) as [HcC HkC].
  split; [done|]. split; [done|].
  exists (fe_name fe1), (fe_name fe2).
  split; [by destruct fe1, fe2; cbn in *; subst|].
  change (staging_name "/tmp/t/x") with "/tmp/t/x.part"%string in Hn1.
  change (staging_name "/tmp/t/d/y") with "/tmp/t/d/y.part"%string in Hn2, Hf2.
  split; [done|]. split; [done|]. split; [|done].
  exists nd1. split; [|done].
  assert (String.eqb (resolve fsD (fe_name fe1)) "/" = false ∧
          resolve fsD (fe_name fe1) ≠ "/tmp/t/d/y.part"%string ∧
          ∀ g, resolve g (fe_name fe1) = resolve fsD (fe_name fe1)) as (Hr & Hne & Hg).
  { destruct Hn1 as [-> | ->]; (split; [reflexivity|]); (split; [discriminate|reflexivity]). }
  rewrite os_Stat_nodes by done.
  rewrite Hf2; [|exact Hne..].
  apply HkC. rewrite <- (Hg fsB). rewrite <- os_Stat_nodes; [done|by rewrite (Hg fsB)].
Qed.

Lemma NewFileStore_layout_witness :
  ∃ n1 n2,
    files (store_of built_rxy)
    = [ {| fe_length := 3; fe_name := n1 |}; {| fe_length := 5; fe_name := n2 |} ] ∧
    (n1 = "/tmp/t/x"%string ∨ n1 = "/tmp/t/x.part"%string) ∧
    (n2 = "/tmp/t/d/y"%string ∨ n2 = "/tmp/t/d/y.part"%string) ∧
    (∃ nd, os_Stat (snd built_rxy) n1 = Some nd ∧ node_size nd = 3) ∧
    (∃ nd, os_Stat (snd built_rxy) n2 = Some nd ∧ node_size nd = 5).
Proof.
  apply (NewFileStore_layout fs_empty (store_of built_rxy) 8 (snd built_rxy)).
  vm_compute. reflexivity.
Defined.

(** C7 as stated fails: on an empty file system the backing files are
    [/tmp/t/x.part] and [/tmp/t/d/y.part], and nothing is created under
    the name directory [/tmp/t/r]. *)
Lemma NewFileStore_name_not_in_path :
  fst built_rxy
  = Done ({| offsets := [0; 3];
             files := [ {| fe_length := 3; fe_name := "/tmp/t/x.part" |};
                        {| fe_length := 5; fe_name := "/tmp/t/d/y.part" |} ] |}, 8) ∧
  os_Stat (snd built_rxy) "/tmp/t/r" = None ∧
  os_Stat (snd built_rxy) "/tmp/t/r/x" = None ∧
  os_Stat (snd built_rxy) "/tmp/t/r/x.part" = None ∧
  os_Stat (snd built_rxy) "/tmp/t/r/d/y" = None ∧
  os_Stat (snd built_rxy) "/tmp/t/r/d/y.part" = None.
Proof. vm_compute. repeat split. Qed.












(** *** Escaping the root *)

(** C5 fails on the code.  The joined path of every entry lies inside
    the root, whatever the path elements of the metainfo: the cleaning
    in [NewFileStore] does what its comment says.  But the staging name
    is the whole path cut to 60 bytes, not the file name: under a root
    of 68 bytes the backing file of [notes.txt] is created beside the
    root, in its parent directory. *)
Theorem staging_file_outside_root :
  (∀ fs storePath src,
     HasPrefix (cwd fs) "/" = true →
     inside fs storePath
       (Join [storePath; str_drop 1 (Clean ("/" +:+ Join src))]) = true)
  ∧ fst built_notes
    = Done ({| offsets := [0];
               files := [ {| fe_length := 4;
                             fe_name := "/srv/rakoshare/shares/2016-family-archive-photos-and-videos-[...].txt.part" |} ] |}, 4)
  ∧ inside (snd built_notes) long_root (Join [long_root; "notes.txt"%string]) = true
  ∧ os_Stat (snd built_notes)
      "/srv/rakoshare/shares/2016-family-archive-photos-and-videos-[...].txt.part"
    = Some (File (replicate 4 x00))
  ∧ inside (snd built_notes) long_root
      "/srv/rakoshare/shares/2016-family-archive-photos-and-videos-[...].txt.part" = false
  ∧ os_Stat (snd built_notes) (Join [long_root; "notes.txt"%string]) = None.
Proof.
  split; [exact joined_path_inside_root|]. vm_compute. repeat split.
Qed.

Lemma staging_file_outside_root_witness :
  inside fs_empty "/tmp/t"
    (Join ["/tmp/t"%string;
           str_drop 1 (Clean ("/" +:+ Join [".."; ".."; "etc"; "passwd"]%string))])
  = true.
Proof.
  apply (proj1 staging_file_outside_root fs_empty "/tmp/t"
           [".."; ".."; "etc"; "passwd"]%string).
  reflexivity.
Defined.

(** *** SetBad *)

Lemma SetPart_all_entries es : ∀ fs, fst (SetPart_all fs es) = staged <$> es.
Proof.
  induction es as [|fe es IH]; intros fs; [done|].
  cbn [SetPart_all]. destruct (SetPart fs fe) as [fe' fs1] eqn:E1.
  specialize (IH fs1). destruct (SetPart_all fs1 es) as [rest fs2].
  cbn in *. rewrite IH. f_equal.
  unfold SetPart in E1. unfold staged. destruct (isPart fe); by injection E1 as <- _.
Qed.

Lemma SetBad_files f fs from :
  offsets (fst (SetBad f fs from)) = offsets f ∧
  files (fst (SetBad f fs from))
  = take (find f from) (files f) ++ (staged <$> drop (find f from) (files f)).
Proof.
  unfold SetBad.
  pose proof (SetPart_all_entries (drop (find f from) (files f)) fs) as H.
  destruct (SetPart_all fs _) as [st fs']. cbn in *. by rewrite H.
Qed.

(** For an offset in the store, [find] gives the entry that holds the
    byte before it. *)
Lemma find_previous_byte f fs totalSize off :
  store_backed f fs totalSize → 0 < off <= totalSize →
  ∃ o fe, zip (offsets f) (files f) !! find f off = Some (o, fe) ∧
          o < off <= o + fe_length fe.
Proof.
  intros (Hlen & Hal & Hend & Hmax & Hbk) Hoff.
  destruct (find_spec f off) as (Hlt & Hlo & Hhi).
  set (es := zip (offsets f) (files f)) in *. set (r := find f off) in *.
  assert (es.*1 = offsets f) as H1 by (apply fst_zip; lia).
  assert (offsets f ≠ []) as Hne.
  { intros Hnil. subst es. rewrite Hnil in Hend. cbn in Hend. lia. }
  specialize (Hlt Hne).
  assert (r < length es)%nat as Hr by (by rewrite <- (length_fmap fst es), H1).
  destruct (aligned_drop r es 0 Hal Hr) as (Ha & He & Hb).
  rewrite H1 in *.
  destruct (lookup_lt_is_Some_2 es r Hr) as [[o fe] Hes].
  assert (drop r es = (o, fe) :: drop (S r) es) as Hdrop.
  { by apply drop_S. }
  rewrite Hdrop in Ha, He. cbn [aligned end_of] in Ha, He.
  destruct Ha as (Ho & HL & Ha).
  exists o, fe. split; [done|]. split.
  - destruct Hlo as [Hr0|Hlo]; [|lia].
    rewrite Hr0 in *. destruct es as [|[o0 fe0] es']; [done|].
    cbn in Hal, Hes. destruct Hal as (-> & _). injection Hes as <- _. lia.
  - destruct Hhi as [Hlast|[Hnil|Hhi]]; [| done |].
    + rewrite drop_ge in He by (rewrite <- (length_fmap fst es), H1; lia).
      cbn in He. lia.
    + destruct (drop (S r) es) as [|[o' fe'] rest] eqn:Hd.
      * cbn in He. lia.
      * cbn in Ha. destruct Ha as (Ho' & _).
        assert (nth (r + 1) (offsets f) 0 = o') as Hn.
        { rewrite <- H1. rewrite nth_lookup, list_lookup_fmap.
          replace (r + 1)%nat with (S r + 0)%nat by lia.
          rewrite <- lookup_drop, Hd. done. }
        lia.
Qed.

Lemma built_complete_backed :
  store_backed (store_of built_complete) (snd built_complete) 8.
Proof.
  assert (store_of built_complete
          = {| offsets := [0; 3];
               files := [ {| fe_length := 3; fe_name := "/tmp/t/x" |};
                          {| fe_length := 5; fe_name := "/tmp/t/d/y" |} ] |}) as E
    by (vm_compute; reflexivity).
  unfold store_backed. rewrite E. cbn.
  split; [reflexivity|]. split; [lia|]. split; [reflexivity|].
  split; [vm_compute; discriminate|].
  repeat constructor; eexists; (split; [vm_compute; reflexivity|reflexivity]).
Qed.

(** C9 fails on the code at the boundary between two entries.  For an
    offset in the store, [find] gives the entry that holds the byte
    before it, and [SetBad] stages the entries from that one on: with
    complete files of lengths 3 and 5, [SetBad(3)] stages the first
    entry, which ends at 3, with the second.  [SetBad(4)] stages the
    second only, and keeps its bytes. *)
Theorem SetBad_at_boundary :
  (∀ f fs totalSize from,
     store_backed f fs totalSize → 0 < from <= totalSize →
     ∃ o fe, zip (offsets f) (files f) !! find f from = Some (o, fe) ∧
       o < from <= o + fe_length fe ∧
       files (fst (SetBad f fs from))
       = take (find f from) (files f) ++ (staged <$> drop (find f from) (files f)))
  ∧ fst built_complete
    = Done ({| offsets := [0; 3];
               files := [ {| fe_length := 3; fe_name := "/tmp/t/x" |};
                          {| fe_length := 5; fe_name := "/tmp/t/d/y" |} ] |}, 8)
  ∧ find (store_of built_complete) 3 = 0%nat
  ∧ files (fst (SetBad (store_of built_complete) (snd built_complete) 3))
    = [ {| fe_length := 3; fe_name := "/tmp/t/x.part" |};
        {| fe_length := 5; fe_name := "/tmp/t/d/y.part" |} ]
  ∧ files (fst (SetBad (store_of built_complete) (snd built_complete) 4))
    = [ {| fe_length := 3; fe_name := "/tmp/t/x" |};
        {| fe_length := 5; fe_name := "/tmp/t/d/y.part" |} ]
  ∧ os_Stat (snd (SetBad (store_of built_complete) (snd built_complete) 4))
      "/tmp/t/d/y.part" = Some (File (bytes_of_string "DEFGH"))
  ∧ os_Stat (snd (SetBad (store_of built_complete) (snd built_complete) 4))
      "/tmp/t/x.part" = None.
Proof.
  split.
  - intros f fs totalSize from Hst Hfrom.
    destruct (find_previous_byte f fs totalSize from Hst Hfrom) as (o & fe & H1 & H2).
    exists o, fe. split; [done|]. split; [done|]. apply SetBad_files.
  - vm_compute. repeat split.
Qed.

Lemma SetBad_at_boundary_witness :
  ∃ o fe,
    zip (offsets (store_of built_complete)) (files (store_of built_complete))
      !! find (store_of built_complete) 4 = Some (o, fe) ∧
    o < 4 <= o + fe_length fe ∧
    files (fst (SetBad (store_of built_complete) (snd built_complete) 4))
    = take (find (store_of built_complete) 4) (files (store_of built_complete))
      ++ (staged <$> drop (find (store_of built_complete) 4)
                          (files (store_of built_complete))).
Proof.
  apply (proj1 SetBad_at_boundary (store_of built_complete) (snd built_complete) 8 4).
  - exact built_complete_backed.
  - lia.
Defined.

(** ** Metainfo *)

(** C8 (as amended).  [NewMetaInfoFromContent] returns a parse error
    exactly when the decoder rejects the content.  When the content
    decodes to a descriptor with an info dictionary that the encoder
    accepts, whatever its piece length and the length of its pieces, the
    descriptor is returned without error, its info-hash being the SHA-1
    of the re-encoded info dictionary. *)
Theorem NewMetaInfoFromContent_results `{Codec} (content : list byte) :
  (∀ e, decode_MetaInfo (string_of_bytes content) = inl e →
        NewMetaInfoFromContent content
        = (None, Some ("Couldn't parse torrent file: " +:+ e)))
  ∧ (∀ m1 info written,
       decode_MetaInfo (string_of_bytes content) = inr m1 →
       mi_Info m1 = Some info → encode_Info (Some info) = inr written →
       NewMetaInfoFromContent content
       = (Some (set_InfoHash m1 (string_of_bytes (SHA1.Sum written))), None))
  ∧ (∀ m e, NewMetaInfoFromContent content = (m, Some e) →
            m = None ∧ ∃ e1, decode_MetaInfo (string_of_bytes content) = inl e1).
Proof.
  unfold NewMetaInfoFromContent. split; [|split].
  - intros e ->. done.
  - intros m1 info written -> -> ->. done.
  - intros m e. destruct (decode_MetaInfo _) as [e1|m1].
    + intros [= <- _]. eauto.
    + destruct (encode_Info _); discriminate.
Qed.

Lemma NewMetaInfoFromContent_results_witness :
  @NewMetaInfoFromContent bencode_codec content_a
  = (Some (set_InfoHash
             {| mi_Info := Some info_a; Announce := ""; AnnounceList := [];
                CreationDate := 0; Comment := ""; CreatedBy := "";
                Encoding := ""; mi_InfoHash := "" |}
             (string_of_bytes
                (SHA1.Sum (bytes_of_string (bencode (of_InfoDict info_a)))))), None)
  ∧ @NewMetaInfoFromContent bencode_codec (bytes_of_string "d4:info")
    = (None, Some ("Couldn't parse torrent file: " +:+ "bencode: syntax error")).
Proof.
  split.
  - apply (proj1 (proj2 (@NewMetaInfoFromContent_results bencode_codec content_a))
             _ info_a (bytes_of_string (bencode (of_InfoDict info_a)))).
    + vm_compute. reflexivity.
    + reflexivity.
    + reflexivity.
  - apply (proj1 (@NewMetaInfoFromContent_results bencode_codec
                    (bytes_of_string "d4:info"))).
    vm_compute. reflexivity.
Defined.

(** C8 as stated fails: a descriptor whose info dictionary has no
    [piece length] and three bytes of [pieces] is parsed without
    error. *)
Lemma descriptor_without_piece_length :
  ∃ m info,
    @NewMetaInfoFromContent bencode_codec content_short = (Some m, None) ∧
    mi_Info m = Some info ∧
    PieceLength info = 0 ∧ Pieces info = "abc"%string ∧
    ¬ pieces_multiple_of_20 info ∧
    bdecode (string_of_bytes content_short)
    = Some (BDict [("info"%string,
                    BDict [("length"%string, BInt 4); ("name"%string, BStr "a");
                           ("pieces"%string, BStr "abc")])]).
Proof.
  eexists _, _. split; [vm_compute; reflexivity|].
  split; [reflexivity|]. split; [reflexivity|]. split; [reflexivity|].
  split; [|vm_compute; reflexivity].
  unfold pieces_multiple_of_20. vm_compute. discriminate.
Qed.

(** With the codec of the library, text that is not bencode is a parse
    error. *)
Lemma malformed_bencode_is_parse_error (content : list byte) :
  bdecode (string_of_bytes content) = None →
  @NewMetaInfoFromContent bencode_codec content
  = (None, Some "Couldn't parse torrent file: bencode: syntax error"%string).
Proof.
  intros H. unfold NewMetaInfoFromContent. cbn [decode_MetaInfo bencode_codec].
  by rewrite H.
Qed.

Example known_info_hash :
  ∃ m, @NewMetaInfoFromContent bencode_codec content_a = (Some m, None) ∧
       hex_encode (bytes_of_string (mi_InfoHash m))
       = hex_encode (SHA1.Sum (bytes_of_string (bencode (of_InfoDict info_a)))).
Proof. eexists. split; vm_compute; reflexivity. Qed.

(** *** The bytes of the store *)

Lemma backed_file_bytes fs fe :
  backed fs fe →
  os_Stat fs (fe_name fe) = Some (File (file_bytes fs (fe_name fe))) ∧
  Z.of_nat (length (file_bytes fs (fe_name fe))) = fe_length fe.
Proof. intros (c & Hst & Hl). unfold file_bytes. by rewrite Hst. Qed.

Lemma store_bytes_length es : ∀ fs b,
  aligned b es → Forall (backed fs) es.*2 →
  Z.of_nat (length (store_bytes fs es.*2)) = end_of b es - b.
Proof.
  induction es as [|[o fe] es IH]; intros fs b Hal Hbk; cbn; [lia|].
  destruct Hal as (-> & HL & Hal). apply Forall_cons in Hbk as [Hb1 Hbk].
  destruct (backed_file_bytes _ _ Hb1) as [_ Hl]. cbn in Hl.
  rewrite length_app, Nat2Z.inj_add, (IH fs _ Hal Hbk). cbn [snd]. lia.
Qed.

Lemma ReadAt_loop_bytes es : ∀ fs done p off n b,
  aligned b es → Forall (backed fs) es.*2 → (p = [] ∨ b <= off) →
  0 <= b → off <= MaxInt64 → end_of b es <= MaxInt64 →
  ReadAt_loop es fs done p off n
  = (done ++ take (within p off b es)
                  (drop (Z.to_nat (off - b)) (store_bytes fs es.*2)),
     drop (within p off b es) p, n + Z.of_nat (within p off b es), None).
Proof.
  induction es as [|[o entry] es IH]; intros fs done p off n b Hal Hbk Hoff Hb Hmax Hend.
  - assert (within p off b [] = 0%nat) as ->.
    { unfold within. simpl. destruct Hoff as [->|]; simpl; lia. }
    cbn. rewrite app_nil_r, Z.add_0_r. by destruct p.
  - destruct p as [|x p].
    { assert (within [] off b ((o, entry) :: es) = 0%nat) as ->.
      { unfold within. simpl. lia. }
      cbn. by rewrite app_nil_r, Z.add_0_r. }
    destruct Hoff as [|Hoff]; [done|].
    cbn [aligned] in Hal. destruct Hal as (-> & HL & Hal).
    pose proof (end_of_ge _ _ Hal) as Hge.
    cbn [end_of] in Hend.
    cbn [fmap list_fmap snd] in Hbk.
    apply Forall_cons in Hbk as [Hbk1 Hbk].
    destruct (backed_file_bytes _ _ Hbk1) as [Hst Hlc].
    pose proof (store_bytes_length es fs _ Hal Hbk) as Hlrest.
    cbn [fmap list_fmap snd store_bytes].
    set (c := file_bytes fs (fe_name entry)) in *.
    set (rest := store_bytes fs es.*2) in *.
    cbn [ReadAt_loop]. set (pp := x :: p) in *.
    assert (wrap64 (off - b) = off - b) as Hio.
    { apply wrap64_id. int64_lia. }
    rewrite Hio.
    destruct (Z.ltb_spec (off - b) (fe_length entry)) as [Hin|Hout].
    + assert (wrap64 (fe_length entry - (off - b)) = fe_length entry - (off - b)) as ->.
      { apply wrap64_id. int64_lia. }
      set (chunk := if fe_length entry - (off - b) <? Z.of_nat (length pp)
                    then fe_length entry - (off - b) else Z.of_nat (length pp)).
      assert (0 < chunk ∧ chunk <= Z.of_nat (length pp) ∧
              chunk <= fe_length entry - (off - b) ∧
              (chunk = fe_length entry - (off - b) ∨ chunk = Z.of_nat (length pp)))
        as (Hc0 & Hc1 & Hc2 & Hc3).
      { subst chunk pp. cbn [length].
        destruct (Z.ltb_spec (fe_length entry - (off - b)) (Z.of_nat (S (length p)))); lia. }
      assert (length (take (Z.to_nat chunk) pp) = Z.to_nat chunk) as Hlb.
      { rewrite length_take. lia. }
      rewrite (fileEntry_ReadAt_inside entry fs c) by (done || lia).
      rewrite Hlb, Z2Nat.id by lia.
      assert (length (take (Z.to_nat chunk) (drop (Z.to_nat (off - b)) c)) = Z.to_nat chunk) as Hlt.
      { rewrite length_take, length_drop. lia. }
      rewrite take_app_length', drop_app_length' by done.
      assert (wrap64 (off + chunk) = off + chunk) as ->.
      { apply wrap64_id. int64_lia. }
      rewrite (IH fs _ _ _ _ (b + fe_length entry)); [|done|done| |lia|lia|done].
      2:{ destruct Hc3 as [Hc3|Hc3]; [right; lia|left]. apply drop_ge. lia. }
      assert (within pp off b ((b, entry) :: es)
              = (Z.to_nat chunk + within (drop (Z.to_nat chunk) pp) (off + chunk)
                                         (b + fe_length entry) es)%nat) as Hk.
      { unfold within. cbn [end_of]. rewrite length_drop. lia. }
      rewrite Hk, drop_drop, <- (assoc_L (++)).
      set (k' := within (drop (Z.to_nat chunk) pp) (off + chunk) (b + fe_length entry) es).
      fold rest.
      assert (take (Z.to_nat chunk) (drop (Z.to_nat (off - b)) c) ++
              take k' (drop (Z.to_nat (off + chunk - (b + fe_length entry))) rest)
              = take (Z.to_nat chunk + k') (drop (Z.to_nat (off - b)) (c ++ rest))) as ->.
      { destruct Hc3 as [Hc3|Hc3].
        - rewrite drop_app_le by lia.
          rewrite take_app_ge by (rewrite length_drop; lia).
          rewrite length_drop.
          rewrite (take_ge (drop _ c)) by (rewrite length_drop; lia).
          f_equal. replace (Z.to_nat (off + chunk - (b + fe_length entry))) with 0%nat by lia.
          rewrite drop_0. f_equal. lia.
        - assert (k' = 0%nat) as ->.
          { subst k'. unfold within. rewrite length_drop. lia. }
          rewrite take_0, app_nil_r, Nat.add_0_r.
          rewrite drop_app_le by lia.
          rewrite take_app_le by (rewrite length_drop; lia). done. }
      replace (n + chunk + Z.of_nat k') with (n + Z.of_nat (Z.to_nat chunk + k')) by lia.
      done.
    + change (within pp off b ((b, entry) :: es))
        with (within pp off (b + fe_length entry) es).
      rewrite (IH fs _ _ _ _ (b + fe_length entry)); [|done|done|right; lia|lia|done|done].
      do 4 f_equal. rewrite drop_app_ge by lia. fold rest. do 2 f_equal. lia.
Qed.

Lemma ReadAt_loop_skip r : ∀ es fs acc p off n b,
  aligned b es → (r < length es)%nat → 0 <= b → off <= MaxInt64 →
  (r = 0%nat ∨ nth r es.*1 0 < off) →
  ReadAt_loop (drop r es) fs acc p off n = ReadAt_loop es fs acc p off n.
Proof.
  induction r as [|r IH]; intros es fs acc p off n b Hal Hr Hb Hmax Hoff; [done|].
  destruct es as [|[o e] es]; [simpl in Hr; lia|].
  destruct Hoff as [|Hoff]; [done|]. cbn in Hoff, Hr.
  destruct Hal as (-> & HL & Hal).
  destruct (aligned_drop r es _ Hal) as (_ & _ & Hle); [lia|].
  cbn [drop]. rewrite (IH es fs acc p off n (b + fe_length e)); [|done|lia|lia|done|by right].
  destruct p as [|x p]; [by destruct es as [|[??] ?]|].
  cbn [ReadAt_loop].
  assert (wrap64 (off - b) = off - b) as -> by (apply wrap64_id; int64_lia).
  destruct (Z.ltb_spec (off - b) (fe_length e)); [lia|done].
Qed.

Lemma WriteAt_loop_skip r : ∀ es fs p off n b,
  aligned b es → (r < length es)%nat → 0 <= b → off <= MaxInt64 →
  (r = 0%nat ∨ nth r es.*1 0 < off) →
  WriteAt_loop (drop r es) fs p off n = WriteAt_loop es fs p off n.
Proof.
  induction r as [|r IH]; intros es fs p off n b Hal Hr Hb Hmax Hoff; [done|].
  destruct es as [|[o e] es]; [simpl in Hr; lia|].
  destruct Hoff as [|Hoff]; [done|]. cbn in Hoff, Hr.
  destruct Hal as (-> & HL & Hal).
  destruct (aligned_drop r es _ Hal) as (_ & _ & Hle); [lia|].
  cbn [drop]. rewrite (IH es fs p off n (b + fe_length e)); [|done|lia|lia|done|by right].
  destruct p as [|x p]; [by destruct es as [|[??] ?]|].
  cbn [WriteAt_loop].
  assert (wrap64 (off - b) = off - b) as -> by (apply wrap64_id; int64_lia).
  destruct (Z.ltb_spec (off - b) (fe_length e)); [lia|done].
Qed.

(** The loops of a store start from the entry found, which changes
    nothing: the entries before it end before the offset. *)
Lemma entries_from_find_all f off :
  length (offsets f) = length (files f) →
  aligned 0 (zip (offsets f) (files f)) → 0 <= off <= MaxInt64 →
  (∀ fs acc p n, ReadAt_loop (entries_from f (find f off)) fs acc p off n
                 = ReadAt_loop (zip (offsets f) (files f)) fs acc p off n) ∧
  (∀ fs p n, WriteAt_loop (entries_from f (find f off)) fs p off n
             = WriteAt_loop (zip (offsets f) (files f)) fs p off n).
Proof.
  intros Hlen Hal Hoff.
  destruct (find_spec f off) as (Hlt & Hfind & _). unfold entries_from.
  set (es := zip (offsets f) (files f)) in *.
  assert (es.*1 = offsets f) as H1 by (apply fst_zip; lia).
  destruct (offsets f) as [|o0 os] eqn:Hos.
  - assert (es = []) as -> by done. by rewrite drop_nil.
  - assert (find f off < length es)%nat as Hr.
    { rewrite <- (length_fmap fst es), H1. by apply Hlt. }
    split; intros.
    + apply (ReadAt_loop_skip _ es _ _ _ _ _ 0); [done|done|lia|lia|by rewrite H1].
    + apply (WriteAt_loop_skip _ es _ _ _ _ 0); [done|done|lia|lia|by rewrite H1].
Qed.

(** X1.  Reading through a store whose entries are backed by files of
    their lengths returns the bytes of the files laid end to end, from
    the offset on; what the buffer holds past the end of the store is
    zeros, the count is the number of bytes that came from files, and
    there is no error. *)
Theorem fileStore_ReadAt_bytes f fs totalSize p off :
  store_backed f fs totalSize → 0 <= off <= MaxInt64 →
  fileStore_ReadAt f fs p off
  = (take (length p) (drop (Z.to_nat off) (store_bytes fs (files f))
                      ++ replicate (length p) x00),
     Z.min (Z.of_nat (length p)) (Z.max 0 (totalSize - off)), None).
Proof.
  intros Hsb Hoff. unfold fileStore_ReadAt.
  rewrite (proj1 (entries_from_find_all f off (proj1 Hsb) (proj1 (proj2 Hsb)) Hoff)).
  destruct Hsb as (Hlen & Hal & Hend & Hmax & Hbk).
  set (es := zip (offsets f) (files f)) in *.
  assert (es.*2 = files f) as H2 by (apply snd_zip; lia).
  rewrite (ReadAt_loop_bytes es fs [] p off 0 0); [|done|by rewrite H2|right; lia|lia|lia|lia].
  pose proof (store_bytes_length es fs 0 Hal ltac:(by rewrite H2)) as HB.
  rewrite H2 in *. rewrite Z.sub_0_r in *. cbn [app].
  set (B := store_bytes fs (files f)) in *.
  unfold within. rewrite Hend in *. rewrite length_drop.
  set (m := Z.min (Z.of_nat (length p)) (Z.max 0 (totalSize - off))).
  replace (0 + Z.of_nat (Z.to_nat m)) with m by lia.
  do 2 f_equal. subst m.
  destruct (Z.le_gt_cases (Z.of_nat (length p)) (Z.max 0 (totalSize - off))) as [Hle|Hgt].
  - rewrite Z.min_l by done. rewrite Nat2Z.id.
    replace (length p - length p)%nat with 0%nat by lia.
    rewrite take_app_le by (rewrite length_drop; lia). by rewrite app_nil_r.
  - rewrite Z.min_r by lia.
    rewrite take_ge by (rewrite length_drop; lia).
    rewrite take_app_ge by (rewrite length_drop; lia).
    rewrite take_replicate, length_drop. do 2 f_equal. lia.
Qed.

Lemma file_WriteAt_exact c q io :
  0 <= io → q ≠ [] → (Z.to_nat io + length q ≤ length c)%nat →
  file_WriteAt c q io
  = Some (take (Z.to_nat io) c ++ q ++ drop (Z.to_nat io + length q) c).
Proof.
  intros Hio Hq Hlen. unfold file_WriteAt.
  destruct (Z.ltb_spec io 0) as [|_]; [lia|].
  destruct q as [|x q]; [done|].
  by rewrite resize_exact by (rewrite length_take; lia).
Qed.

Lemma file_bytes_frame fs fs' name :
  cwd fs' = cwd fs → nodes fs' !! resolve fs name = nodes fs !! resolve fs name →
  file_bytes fs' name = file_bytes fs name.
Proof.
  intros Hc Hn. unfold file_bytes, os_Stat. rewrite (resolve_cwd fs fs') by done.
  by rewrite Hn.
Qed.

Lemma store_bytes_frame fs fs' (es : list (Z * fileEntry)) :
  cwd fs' = cwd fs → (∀ k, k ∈ keys fs es → nodes fs' !! k = nodes fs !! k) →
  store_bytes fs' es.*2 = store_bytes fs es.*2.
Proof.
  intros Hc. induction es as [|[o fe] es IH]; intros Hk; [done|].
  cbn. rewrite IH.
  - f_equal. apply file_bytes_frame; [done|]. apply Hk. cbn. left.
  - intros k Hin. apply Hk. cbn. by right.
Qed.

Lemma WriteAt_loop_bytes es : ∀ fs p off n b,
  aligned b es → Forall (backed fs) es.*2 → NoDup (keys fs es) →
  (p = [] ∨ b <= off) → 0 <= b → off <= MaxInt64 → end_of b es <= MaxInt64 →
  ∃ fs', WriteAt_loop es fs p off n
         = (drop (within p off b es) p, n + Z.of_nat (within p off b es), None, fs') ∧
     only_contents (keys fs es) fs fs' ∧
     store_bytes fs' es.*2
     = take (Z.to_nat (off - b)) (store_bytes fs es.*2)
       ++ take (within p off b es) p
       ++ drop (Z.to_nat (off - b) + within p off b es) (store_bytes fs es.*2).
Proof.
  induction es as [|[o entry] es IH]; intros fs p off n b Hal Hbk Hnd Hoff Hb Hmax Hend.
  - exists fs. assert (within p off b [] = 0%nat) as ->.
    { unfold within. simpl. destruct Hoff as [->|]; simpl; lia. }
    simpl. rewrite Z.add_0_r. split; [by destruct p|].
    split; [apply only_contents_refl|]. by rewrite take_nil, drop_nil.
  - destruct p as [|x p].
    { exists fs. assert (within [] off b ((o, entry) :: es) = 0%nat) as ->.
      { unfold within. simpl. lia. }
      simpl. rewrite Z.add_0_r. split; [done|].
      split; [apply only_contents_refl|].
      rewrite Nat.add_0_r. by rewrite take_drop. }
    destruct Hoff as [|Hoff]; [done|].
    cbn [aligned] in Hal. destruct Hal as (-> & HL & Hal).
    pose proof (end_of_ge _ _ Hal) as Hge.
    cbn [end_of] in Hend.
    cbn [fmap list_fmap snd] in Hbk.
    apply Forall_cons in Hbk as [Hbk1 Hbk].
    destruct (backed_file_bytes _ _ Hbk1) as [Hst Hlc].
    pose proof (store_bytes_length es fs _ Hal Hbk) as Hlrest.
    cbn [keys fmap list_fmap snd] in Hnd.
    apply NoDup_cons in Hnd as [Hfresh Hnd].
    change (NoDup (keys fs es)) in Hnd. change (resolve fs (fe_name entry) ∉ keys fs es) in Hfresh.
    cbn [fmap list_fmap snd store_bytes].
    set (c := file_bytes fs (fe_name entry)) in *.
    set (rest := store_bytes fs es.*2) in *.
    set (key := resolve fs (fe_name entry)) in *.
    pose proof (proj1 (os_Stat_File _ _ _) Hst) as [Hroot Hk0]. fold key in Hroot, Hk0.
    set (pp := x :: p) in *.
    assert (wrap64 (off - b) = off - b) as Hio.
    { apply wrap64_id. int64_lia. }
    cbn [WriteAt_loop]. fold pp. rewrite Hio.
    destruct (Z.ltb_spec (off - b) (fe_length entry)) as [Hin|Hout].
    + assert (wrap64 (fe_length entry - (off - b)) = fe_length entry - (off - b)) as ->.
      { apply wrap64_id. int64_lia. }
      set (chunk := if fe_length entry - (off - b) <? Z.of_nat (length pp)
                    then fe_length entry - (off - b) else Z.of_nat (length pp)).
      assert (0 < chunk ∧ chunk <= Z.of_nat (length pp) ∧
              chunk <= fe_length entry - (off - b) ∧
              (chunk = fe_length entry - (off - b) ∨ chunk = Z.of_nat (length pp)))
        as (Hc0 & Hc1 & Hc2 & Hc3).
      { subst chunk pp. cbn [length].
        destruct (Z.ltb_spec (fe_length entry - (off - b)) (Z.of_nat (S (length p)))); lia. }
      assert (length (take (Z.to_nat chunk) pp) = Z.to_nat chunk) as Hlq.
      { rewrite length_take. lia. }
      set (q := take (Z.to_nat chunk) pp) in *.
      set (c1 := take (Z.to_nat (off - b)) c ++ q ++ drop (Z.to_nat (off - b) + length q) c).
      assert (fileEntry_WriteAt entry fs q (off - b)
              = (Z.of_nat (length q), None,
                 set_nodes fs (<[key := File c1]> (nodes fs)))) as Hw.
      { unfold fileEntry_WriteAt. rewrite Hst.
        rewrite file_WriteAt_exact; [done|lia| |lia].
        intros Hnil. rewrite Hnil in Hlq. simpl in Hlq. lia. }
      assert (length c1 = length c) as Hlc1.
      { subst c1. rewrite !length_app, length_take, length_drop. lia. }
      rewrite Hw, Hlq, Z2Nat.id by lia.
      set (fs1 := set_nodes fs (<[key := File c1]> (nodes fs))).
      assert (only_contents [key] fs fs1) as Hoc1.
      { by apply (write_one_only_contents fs key c c1). }
      assert (wrap64 (off + chunk) = off + chunk) as Hnext.
      { apply wrap64_id. int64_lia. }
      rewrite Hnext.
      assert (store_bytes fs1 es.*2 = rest) as Hrest1.
      { apply store_bytes_frame; [done|]. intros k Hk. subst fs1. cbn.
        rewrite lookup_insert_ne; [done|]. intros <-. done. }
      destruct (IH fs1 (drop (Z.to_nat chunk) pp) (off + chunk) (n + chunk)
                  (b + fe_length entry)) as (fs' & Hwl & Hoc & Hby);
        [done| | | |lia|lia|done|].
      { eapply Forall_impl; [exact Hbk|]. intros fe. by apply backed_only_contents with [key]. }
      { by rewrite (keys_cwd fs fs1). }
      { destruct Hc3 as [Hc3|Hc3]; [right; lia|left]. apply drop_ge. lia. }
      assert (within pp off b ((b, entry) :: es)
              = (Z.to_nat chunk + within (drop (Z.to_nat chunk) pp) (off + chunk)
                                         (b + fe_length entry) es)%nat) as Hk.
      { unfold within. cbn [end_of]. rewrite length_drop. lia. }
      rewrite Hk. set (k' := within (drop (Z.to_nat chunk) pp) (off + chunk)
                                    (b + fe_length entry) es) in *.
      exists fs'. split; [|split].
      * rewrite Hwl, drop_drop. do 3 f_equal. lia.
      * apply (only_contents_trans [key] (keys fs1 es) _ fs fs1 fs'); [| |done|done].
        -- cbn. fold key. apply list_subseteq_skip, list_subseteq_nil.
        -- rewrite (keys_cwd fs fs1) by done. cbn. by apply list_subseteq_cons.
      * assert (file_bytes fs' (fe_name entry) = c1) as ->.
        { destruct Hoc as (Hcwd & Hframe & _).
          unfold file_bytes, os_Stat. rewrite (resolve_cwd fs1 fs') by done.
          change (resolve fs1 (fe_name entry)) with key. rewrite Hroot.
          rewrite Hframe; [subst fs1; cbn; by rewrite lookup_insert_eq|].
          by rewrite (keys_cwd fs fs1). }
        rewrite Hby, Hrest1. subst c1. rewrite Hlq.
        destruct Hc3 as [Hc3|Hc3].
        -- replace (Z.to_nat (off + chunk - (b + fe_length entry))) with 0%nat by lia.
           rewrite take_0. cbn [app Nat.add].
           rewrite (drop_ge c) by lia. rewrite app_nil_r.
           rewrite take_app_le by lia.
           rewrite drop_app_ge by lia.
           rewrite <- !(assoc_L (++)). f_equal.
           rewrite (assoc_L (++) q). f_equal.
           ++ subst q. by rewrite take_take_drop.
           ++ f_equal. lia.
        -- assert (k' = 0%nat) as ->.
           { subst k'. unfold within. rewrite length_drop. lia. }
           rewrite take_0, Nat.add_0_r. cbn [app]. rewrite take_drop.
           rewrite take_app_le by lia.
           rewrite drop_app_le by lia.
           rewrite <- !(assoc_L (++)), !Nat.add_0_r. done.
    + change (within pp off b ((b, entry) :: es))
        with (within pp off (b + fe_length entry) es).
      destruct (IH fs pp off n (b + fe_length entry)) as (fs' & Hwl & Hoc & Hby);
        [done|done|done|right; lia|lia|done|done|].
      exists fs'. split; [done|]. split.
      * eapply only_contents_mono; [|exact Hoc]. cbn. by apply list_subseteq_cons.
      * assert (file_bytes fs' (fe_name entry) = c) as ->.
        { destruct Hoc as (Hcwd & Hframe & _).
          apply file_bytes_frame; [done|]. by apply Hframe. }
        rewrite Hby. fold rest.
        rewrite take_app_ge by lia. rewrite drop_app_ge by lia.
        rewrite <- (assoc_L (++)). f_equal. f_equal; [f_equal; lia|].
        f_equal. f_equal. lia.
Qed.

Lemma fileStore_ReadAt_bytes_witness :
  fileStore_ReadAt (store_of built_complete) (snd built_complete)
    (replicate 6 x01) 5
  = (bytes_of_string "FGH" ++ replicate 3 x00, 3, None).
Proof.
  refine (eq_trans (fileStore_ReadAt_bytes _ _ 8 _ _ _ _) _).
  - apply built_complete_backed.
  - vm_compute. intuition discriminate.
  - vm_compute. reflexivity.
Defined.

(** X2.  Writing through a store with distinct backing files replaces
    the bytes of the store from the offset on by the part of [p] that
    falls before its end and changes no other byte, whether or not the
    call then reports non-zero data past the end; it reports it exactly
    when the rest of [p] is not all zeros. *)
Theorem fileStore_WriteAt_bytes f fs totalSize p off :
  store_backed f fs totalSize → distinct_files f fs → 0 <= off <= MaxInt64 →
  let k := Z.to_nat (Z.min (Z.of_nat (length p)) (Z.max 0 (totalSize - off))) in
  ∃ n err fs', fileStore_WriteAt f fs p off = (n, err, fs') ∧
    (err = None ↔ Forall (fun b => b = x00) (drop k p)) ∧
    store_backed f fs' totalSize ∧
    store_bytes fs' (files f)
    = take (Z.to_nat off) (store_bytes fs (files f)) ++ take k p
      ++ drop (Z.to_nat off + k) (store_bytes fs (files f)).
Proof.
  intros Hsb Hnd Hoff k. unfold fileStore_WriteAt.
  rewrite (proj2 (entries_from_find_all f off (proj1 Hsb) (proj1 (proj2 Hsb)) Hoff)).
  pose proof Hsb as (Hlen & Hal & Hend & Hmax & Hbk).
  set (es := zip (offsets f) (files f)) in *.
  assert (es.*2 = files f) as H2 by (apply snd_zip; lia).
  destruct (WriteAt_loop_bytes es fs p off 0 0) as (fs' & -> & Hoc & Hby);
    [done|by rewrite H2|done|right; lia|lia|lia|lia|].
  rewrite H2, Z.sub_0_r in Hby.
  assert (within p off 0 es = k) as Hk.
  { unfold within. by rewrite Hend. }
  rewrite Hk in *.
  assert (store_backed f fs' totalSize) as Hsb'.
  { by apply (store_backed_only_contents (keys fs es) f fs fs'). }
  destruct (first_nonzero (drop k p) 0) as [i|] eqn:Hz.
  - eexists _, _, fs'. split; [reflexivity|]. split; [|done].
    split; [done|]. intros Hall. apply (first_nonzero_None _ 0) in Hall. congruence.
  - eexists _, _, fs'. split; [reflexivity|]. split; [|done].
    split; [|done]. intros _. by apply (first_nonzero_None _ 0).
Qed.

Lemma built_complete_distinct :
  distinct_files (store_of built_complete) (snd built_complete).
Proof. apply (bool_decide_unpack _). vm_compute. exact I. Qed.

Lemma fileStore_WriteAt_bytes_witness :
  ∃ n err fs', fileStore_WriteAt (store_of built_complete) (snd built_complete)
                 (bytes_of_string "xyz") 2 = (n, err, fs') ∧
    (err = None ↔ Forall (fun b => b = x00) (drop 3 (bytes_of_string "xyz"))) ∧
    store_backed (store_of built_complete) fs' 8 ∧
    store_bytes fs' (files (store_of built_complete)) = bytes_of_string "ABxyzFGH".
Proof.
  destruct (fileStore_WriteAt_bytes (store_of built_complete) (snd built_complete)
              8 (bytes_of_string "xyz") 2) as (n & err & fs' & H1 & H2 & H3 & H4).
  - apply built_complete_backed.
  - apply built_complete_distinct.
  - vm_compute. intuition discriminate.
  - exists n, err, fs'. split; [exact H1|]. split; [exact H2|]. split; [exact H3|].
    rewrite H4. vm_compute. reflexivity.
Defined.

(** *** The layout of a new store *)

Lemma fileEntry_open_entry fs name length fe fs' :
  fileEntry_open fs name length = (fe, None, fs') →
  fe_length fe = length ∧ (fe_name fe = name ∨ fe_name fe = staging_name name).
Proof.
  intros H.
  destruct (fileEntry_open_cases fs name length)
    as [(st & _ & _ & Heq)|[(e & Heq)|(fs3 & Heq & _)]];
    rewrite Heq in H; [|done|]; injection H as <- <-; cbn; auto.
Qed.

Lemma NewFileStore_loop_layout srcs : ∀ storePath st totalSize fs st' total' fs',
  NewFileStore_loop srcs storePath st totalSize fs = (Done (st', total'), fs') →
  ∃ new, files st' = files st ++ new ∧
         offsets st' = offsets st ++ running totalSize (fd_Length <$> srcs) ∧
         total' = total_from totalSize (fd_Length <$> srcs) ∧
         Forall2 (entry_of storePath) srcs new.
Proof.
  induction srcs as [|src srcs IH]; intros storePath st totalSize fs st' total' fs' H;
    cbn [NewFileStore_loop] in H.
  - injection H as <- <- <-. exists []. cbn. rewrite !app_nil_r. repeat split. constructor.
  - fold (full_path storePath src) in H.
    destruct (ensureDirectory fs (full_path storePath src)) as [fs1| |]; [|done|done].
    destruct (fileEntry_open fs1 _ _) as [[fe [e|]] fs2] eqn:Hopen; [done|].
    apply IH in H as (new & Hf & Ho & Ht & Hall). cbn in Hf, Ho.
    exists (fe :: new). rewrite <- !(assoc_L (++)) in *. cbn in *.
    split; [done|]. split; [done|]. split; [done|].
    constructor; [|done]. by apply fileEntry_open_entry in Hopen.
Qed.

Lemma running_aligned (fes : list fileEntry) : ∀ base,
  Forall (fun l => 0 <= l) (fe_length <$> fes) →
  0 <= base → base + sum_Z (fe_length <$> fes) <= MaxInt64 →
  aligned base (zip (running base (fe_length <$> fes)) fes) ∧
  end_of base (zip (running base (fe_length <$> fes)) fes)
  = base + sum_Z (fe_length <$> fes) ∧
  total_from base (fe_length <$> fes) = base + sum_Z (fe_length <$> fes) ∧
  length (running base (fe_length <$> fes)) = length fes.
Proof.
  induction fes as [|fe fes IH]; intros base Hnn Hb Hsum; unfold sum_Z in *; cbn in *.
  - repeat split; lia.
  - apply Forall_cons in Hnn as [H0 Hnn].
    fold (sum_Z (fe_length <$> fes)) in *.
    assert (0 <= sum_Z (fe_length <$> fes)) as Hs.
    { clear -Hnn. unfold sum_Z. induction Hnn; cbn; lia. }
    assert (wrap64 (base + fe_length fe) = base + fe_length fe) as ->.
    { apply wrap64_id. int64_lia. }
    destruct (IH (base + fe_length fe)) as (H1 & H2 & H3 & H4); [done|lia|lia|].
    repeat split; try done; lia.
Qed.

(** X3.  When [NewFileStore] succeeds, there is one entry for each
    file of the metainfo (for the single file named by [info.Name] when
    it lists none), with the file's length and the joined path or its
    staging name; each offset is the sum of the lengths before it and
    the total size the sum of all, in [int64] arithmetic.  When no
    length is negative and the sum fits, the offsets and the entries
    are laid out one after the other from zero up to the total. *)
Theorem NewFileStore_offsets info storePath fs st totalSize fs' :
  NewFileStore info storePath fs = (Done (st, totalSize), fs') →
  let ls := fd_Length <$> sources info in
  Forall2 (entry_of storePath) (sources info) (files st) ∧
  offsets st = running 0 ls ∧
  totalSize = total_from 0 ls ∧
  (Forall (fun l => 0 <= l) ls → sum_Z ls <= MaxInt64 →
   length (offsets st) = length (files st) ∧
   aligned 0 (zip (offsets st) (files st)) ∧
   end_of 0 (zip (offsets st) (files st)) = totalSize ∧
   totalSize = sum_Z ls).
Proof.
  intros H ls. unfold NewFileStore in H. fold (sources info) in H.
  apply NewFileStore_loop_layout in H as (new & Hf & Ho & Ht & Hall).
  cbn in Hf, Ho. rewrite Hf, Ho. fold ls in Ht |- *.
  split; [done|]. split; [done|]. split; [done|].
  intros Hnn Hsum.
  assert (fe_length <$> new = ls) as Hls.
  { subst ls. clear -Hall. induction Hall as [|src fe srcs fes [Hl _] _ IH]; [done|].
    cbn. by rewrite Hl, IH. }
  rewrite <- Hls in *.
  destruct (running_aligned new 0) as (H1 & H2 & H3 & H4); [done|lia|lia|].
  rewrite Ht, H3. repeat split; try done; lia.
Qed.

Lemma NewFileStore_offsets_witness :
  (Forall (fun l => 0 <= l) [3; 5] ∧ sum_Z [3; 5] <= MaxInt64) ∧
  Forall2 (entry_of "/tmp/t") (sources info_rxy) (files (store_of built_rxy)) ∧
  offsets (store_of built_rxy) = running 0 [3; 5] ∧
  8 = total_from 0 [3; 5] ∧
  length (offsets (store_of built_rxy)) = length (files (store_of built_rxy)) ∧
  aligned 0 (zip (offsets (store_of built_rxy)) (files (store_of built_rxy))) ∧
  end_of 0 (zip (offsets (store_of built_rxy)) (files (store_of built_rxy))) = 8 ∧
  8 = sum_Z [3; 5].
Proof.
  assert (Forall (fun l => 0 <= l) [3; 5]) as Hnn
    by (repeat constructor; vm_compute; discriminate).
  assert (sum_Z [3; 5] <= MaxInt64) as Hsum by (vm_compute; discriminate).
  destruct (NewFileStore_offsets info_rxy "/tmp/t" fs_empty (store_of built_rxy) 8
              (snd built_rxy)) as (H1 & H2 & H3 & H4).
  { vm_compute. reflexivity. }
  destruct (H4 Hnn Hsum) as (H5 & H6 & H7 & H8).
  split; [split; assumption|].
  exact (conj H1 (conj H2 (conj H3 (conj H5 (conj H6 (conj H7 H8)))))).
Defined.

(** *** Staging and cleanup *)

Lemma str_length_app (a b : string) :
  String.length (a +:+ b) = (String.length a + String.length b)%nat.
Proof. induction a as [|x a IH]; [done|]. rewrite str_app_cons. cbn. by rewrite IH. Qed.

Lemma str_drop_app (a b : string) : str_drop (String.length a) (a +:+ b) = b.
Proof. induction a as [|x a IH]; [by destruct b|]. by rewrite str_app_cons. Qed.

Lemma HasSuffix_app a suffix : HasSuffix (a +:+ suffix) suffix = true.
Proof.
  unfold HasSuffix. rewrite str_length_app.
  replace (String.length a + String.length suffix - String.length suffix)%nat
    with (String.length a) by lia.
  rewrite str_drop_app, String.eqb_refl, andb_true_r. apply Nat.leb_le. lia.
Qed.

Lemma isPart_staged fe : isPart (staged fe) = true.
Proof.
  unfold staged. destruct (isPart fe) eqn:E; [done|]. apply HasSuffix_app.
Qed.

(** An occurrence of [.part] that starts in [s] lies in [s]: the dot
    of a following [.part] matches none of its other bytes. *)
Lemma HasPrefix_part_inside s t :
  s ≠ EmptyString → HasPrefix (s +:+ ".part" +:+ t) ".part" = HasPrefix s ".part".
Proof.
  intros Hs.
  destruct s as [|c1 [|c2 [|c3 [|c4 [|c5 s]]]]]; [done|..];
    rewrite ?str_app_cons, ?str_app_nil_l; cbn [HasPrefix];
    repeat match goal with
           | |- context [Ascii.eqb ?x ?y] => destruct (Ascii.eqb_spec x y); subst; cbn
           end; try done; rewrite ?HasPrefix_nil; done.
Qed.

Lemma remove_first_part a t :
  Contains a ".part" = false →
  remove_first (a +:+ ".part" +:+ t) ".part" = a +:+ t.
Proof.
  induction a as [|x a IH]; intros H.
  - rewrite !str_app_nil_l. cbn. by destruct t.
  - cbn [Contains] in H. apply orb_false_iff in H as [H1 H2].
    assert (HasPrefix (String x a +:+ ".part" +:+ t) ".part" = false) as Hp.
    { by rewrite HasPrefix_part_inside. }
    specialize (IH H2). set (u := ".part" +:+ t) in *.
    rewrite !str_app_cons in *. cbn [remove_first]. rewrite Hp.
    by rewrite IH.
Qed.

Lemma os_Create_creatable fs p :
  creatable fs p = true →
  os_Create fs p = (None, set_nodes fs (<[resolve fs p := File []]> (nodes fs))).
Proof.
  unfold creatable, os_Create. intros H. apply andb_true_iff in H as [H1 H2].
  apply negb_true_iff in H1. by rewrite H1, H2.
Qed.

Lemma os_Create_not_creatable fs p :
  creatable fs p = false → ∃ e, os_Create fs p = (Some e, fs).
Proof.
  unfold creatable, os_Create. intros H.
  destruct (is_dir fs (resolve fs p)); [by eexists|].
  cbn in H. rewrite H. by eexists.
Qed.

Lemma copyfile_ok fs fromname toname c :
  os_Stat fs fromname = Some (File c) → creatable fs toname = true →
  resolve fs toname ≠ resolve fs fromname →
  copyfile fs fromname toname
  = (None, set_nodes fs (<[resolve fs toname := File c]> (nodes fs))).
Proof.
  intros Hst Hcr Hne. unfold copyfile. rewrite Hst, (os_Create_creatable _ _ Hcr).
  apply os_Stat_File in Hst as [Hroot Hk].
  unfold os_Stat. cbn [nodes set_nodes cwd].
  change (resolve (set_nodes fs _) ?p) with (resolve fs p).
  rewrite Hroot, lookup_insert_ne, Hk by done.
  by rewrite insert_insert_eq.
Qed.

Lemma copyfile_onto_itself fs fromname toname c :
  os_Stat fs fromname = Some (File c) → creatable fs toname = true →
  resolve fs toname = resolve fs fromname →
  copyfile fs fromname toname
  = (None, set_nodes fs (<[resolve fs toname := File []]> (nodes fs))).
Proof.
  intros Hst Hcr Heq. unfold copyfile. rewrite Hst, (os_Create_creatable _ _ Hcr).
  apply os_Stat_File in Hst as [Hroot Hk].
  unfold os_Stat. cbn [nodes set_nodes cwd].
  change (resolve (set_nodes fs _) ?p) with (resolve fs p).
  rewrite Hroot, <- Heq, lookup_insert_eq.
  by rewrite insert_insert_eq.
Qed.

Lemma copyfile_not_creatable fs fromname toname :
  creatable fs toname = false → ∃ e, copyfile fs fromname toname = (Some e, fs).
Proof.
  intros Hcr. unfold copyfile. destruct (os_Stat fs fromname); [|by eexists].
  destruct (os_Create_not_creatable _ _ Hcr) as [e ->]. by eexists.
Qed.

(** X4.  [copyfile] gives the target the bytes of the source and
    touches no other file, when the source is a regular file and the
    target can be created; a file copied onto itself is left empty, the
    target being truncated before the source is read.  When the source
    does not exist or the target cannot be created it returns an error
    and changes nothing. *)
Theorem copyfile_result fs fromname toname :
  (∀ c, os_Stat fs fromname = Some (File c) → creatable fs toname = true →
        copyfile fs fromname toname
        = (None, set_nodes fs (<[resolve fs toname :=
                   File (if decide (resolve fs toname = resolve fs fromname)
                         then [] else c)]> (nodes fs)))) ∧
  (os_Stat fs fromname = None ∨ creatable fs toname = false →
   ∃ e, copyfile fs fromname toname = (Some e, fs)).
Proof.
  split.
  - intros c Hst Hcr. destruct (decide _) as [Heq|Hne].
    + by apply (copyfile_onto_itself fs fromname toname c).
    + by apply copyfile_ok.
  - intros [H|H].
    + unfold copyfile. rewrite H. by eexists.
    + by apply copyfile_not_creatable.
Qed.

Lemma set_nodes_id fs : set_nodes fs (nodes fs) = fs.
Proof. by destruct fs. Qed.

Lemma os_Truncate_same fs p c :
  os_Stat fs p = Some (File c) →
  os_Truncate fs p (Z.of_nat (length c)) = (None, fs).
Proof.
  intros Hst. apply os_Stat_File in Hst as [_ Hk]. unfold os_Truncate. rewrite Hk.
  destruct (Z.ltb_spec (Z.of_nat (length c)) 0); [lia|].
  rewrite Nat2Z.id, resize_exact by done. rewrite insert_id by done.
  by rewrite set_nodes_id.
Qed.

Lemma os_Stat_insert fs k nd p :
  resolve fs p = k → String.eqb k "/" = false →
  os_Stat (set_nodes fs (<[k := nd]> (nodes fs))) p = Some nd.
Proof.
  intros <- Hroot. unfold os_Stat. cbn.
  change (resolve (set_nodes fs _) p) with (resolve fs p).
  by rewrite Hroot, lookup_insert_eq.
Qed.

Lemma creatable_not_root fs p :
  creatable fs p = true → String.eqb (resolve fs p) "/" = false.
Proof.
  unfold creatable, is_dir. intros H. apply andb_true_iff in H as [H _].
  apply negb_true_iff in H. by apply orb_false_iff in H as [H _].
Qed.

Lemma SetPart_exact fs fe c :
  isPart fe = false →
  os_Stat fs (fe_name fe) = Some (File c) → Z.of_nat (length c) = fe_length fe →
  creatable fs (fe_name fe +:+ ".part") = true →
  resolve fs (fe_name fe +:+ ".part") ≠ resolve fs (fe_name fe) →
  SetPart fs fe
  = ({| fe_length := fe_length fe; fe_name := fe_name fe +:+ ".part" |},
     set_nodes fs (<[resolve fs (fe_name fe +:+ ".part") := File c]> (nodes fs))).
Proof.
  intros Hp Hst Hlen Hcr Hne. unfold SetPart. rewrite Hp.
  rewrite (copyfile_ok fs _ _ c) by done. cbn [snd fe_name fe_length].
  set (fs1 := set_nodes fs _).
  assert (os_Stat fs1 (fe_name fe +:+ ".part") = Some (File c)) as Hst1.
  { apply os_Stat_insert; [done|]. by apply creatable_not_root. }
  by rewrite <- Hlen, (os_Truncate_same fs1 _ c) by done.
Qed.

(** X5.  [SetPart] on a complete entry, its staging name being free to
    create, renames the entry to [name.part] and gives that file the
    bytes of the complete file, which stays in place; no other file
    changes. *)
Lemma copyfile_result_witness :
  copyfile fs_complete "/tmp/t/x" "/tmp/t/z"
  = (None, set_nodes fs_complete
             (<["/tmp/t/z"%string := File (bytes_of_string "ABC")]> (nodes fs_complete)))
  ∧ ∃ e, copyfile fs_complete "/tmp/t/none" "/tmp/t/z" = (Some e, fs_complete).
Proof.
  split.
  - apply (proj1 (copyfile_result fs_complete "/tmp/t/x" "/tmp/t/z")
             (bytes_of_string "ABC")); vm_compute; reflexivity.
  - apply (proj2 (copyfile_result fs_complete "/tmp/t/none" "/tmp/t/z")).
    left. vm_compute. reflexivity.
Defined.

Theorem SetPart_keeps_data fs fe c :
  isPart fe = false →
  os_Stat fs (fe_name fe) = Some (File c) → Z.of_nat (length c) = fe_length fe →
  creatable fs (fe_name fe +:+ ".part") = true →
  resolve fs (fe_name fe +:+ ".part") ≠ resolve fs (fe_name fe) →
  ∃ fs', SetPart fs fe
         = ({| fe_length := fe_length fe; fe_name := fe_name fe +:+ ".part" |}, fs') ∧
    os_Stat fs' (fe_name fe +:+ ".part") = Some (File c) ∧
    os_Stat fs' (fe_name fe) = Some (File c) ∧
    cwd fs' = cwd fs ∧
    ∀ k, k ≠ resolve fs (fe_name fe +:+ ".part") → nodes fs' !! k = nodes fs !! k.
Proof.
  intros Hp Hst Hlen Hcr Hne. rewrite (SetPart_exact fs fe c) by done.
  eexists. split; [reflexivity|]. split; [|split; [|split; [done|]]].
  - apply os_Stat_insert; [done|]. by apply creatable_not_root.
  - apply os_Stat_File in Hst as [Hroot Hk]. apply os_Stat_File.
    change (resolve (set_nodes _ _) ?p) with (resolve fs p). split; [done|].
    cbn. by rewrite lookup_insert_ne.
  - intros k Hk. cbn. by rewrite lookup_insert_ne.
Qed.

Lemma SetPart_keeps_data_witness :
  ∃ fs', SetPart fs_complete {| fe_length := 3; fe_name := "/tmp/t/x" |}
         = ({| fe_length := 3; fe_name := "/tmp/t/x.part" |}, fs') ∧
    os_Stat fs' "/tmp/t/x.part" = Some (File (bytes_of_string "ABC")) ∧
    os_Stat fs' "/tmp/t/x" = Some (File (bytes_of_string "ABC")) ∧
    cwd fs' = "/"%string ∧
    ∀ k, k ≠ "/tmp/t/x.part"%string → nodes fs' !! k = nodes fs_complete !! k.
Proof.
  apply (SetPart_keeps_data fs_complete {| fe_length := 3; fe_name := "/tmp/t/x" |}
           (bytes_of_string "ABC")); vm_compute; try reflexivity. discriminate.
Defined.

Lemma os_Remove_file fs p c :
  os_Stat fs p = Some (File c) →
  os_Remove fs p = (None, set_nodes fs (delete (resolve fs p) (nodes fs))).
Proof.
  intros Hst. apply os_Stat_File in Hst as [_ Hk]. unfold os_Remove. by rewrite Hk.
Qed.

Lemma str_app_nil_r (a : string) : a +:+ "" = a.
Proof. induction a as [|x a IH]; [done|]. rewrite str_app_cons. by f_equal. Qed.

Lemma fileEntry_Cleanup_exact fs fe a c :
  fe_name fe = a +:+ ".part" → Contains a ".part" = false →
  os_Stat fs (fe_name fe) = Some (File c) →
  creatable fs a = true → resolve fs a ≠ resolve fs (fe_name fe) →
  fileEntry_Cleanup fs fe
  = ({| fe_length := fe_length fe; fe_name := a |}, None,
     set_nodes fs (delete (resolve fs (fe_name fe))
                     (<[resolve fs a := File c]> (nodes fs)))).
Proof.
  intros Hn Ha Hst Hcr Hne. unfold fileEntry_Cleanup, isPart.
  rewrite Hn, HasSuffix_app.
  assert (remove_first (a +:+ ".part") ".part" = a) as ->.
  { pose proof (remove_first_part a "" Ha) as H.
    by rewrite !str_app_nil_r in H. }
  rewrite <- Hn in *.
  rewrite (copyfile_ok fs _ _ c) by done. cbn [snd].
  set (fs1 := set_nodes fs _).
  apply os_Stat_File in Hst as [Hroot Hk].
  assert (os_Stat fs1 (fe_name fe) = Some (File c)) as Hst1.
  { apply os_Stat_File. change (resolve fs1 ?p) with (resolve fs p). split; [done|].
    subst fs1. cbn. by rewrite lookup_insert_ne. }
  by rewrite (os_Remove_file fs1 _ c).
Qed.

(** X6.  [fileEntry.Cleanup] of an entry staged as [a.part], when [a]
    holds no [.part] and can be created, leaves the bytes of the
    staging file under [a], removes the staging file, renames the entry
    to [a] and returns no error. *)
Theorem fileEntry_Cleanup_moves fs fe a c :
  fe_name fe = a +:+ ".part" → Contains a ".part" = false →
  os_Stat fs (fe_name fe) = Some (File c) →
  creatable fs a = true → resolve fs a ≠ resolve fs (fe_name fe) →
  ∃ fs', fileEntry_Cleanup fs fe
         = ({| fe_length := fe_length fe; fe_name := a |}, None, fs') ∧
    os_Stat fs' a = Some (File c) ∧
    os_Stat fs' (fe_name fe) = None ∧
    cwd fs' = cwd fs ∧
    ∀ k, k ≠ resolve fs a → k ≠ resolve fs (fe_name fe) →
         nodes fs' !! k = nodes fs !! k.
Proof.
  intros Hn Ha Hst Hcr Hne. rewrite (fileEntry_Cleanup_exact fs fe a c) by done.
  apply os_Stat_File in Hst as [Hroot Hk].
  eexists. split; [reflexivity|]. split; [|split; [|split; [done|]]].
  - apply os_Stat_File. cbn. change (resolve (set_nodes _ _) ?p) with (resolve fs p).
    split; [by apply creatable_not_root|].
    rewrite lookup_delete_ne by done. apply lookup_insert_eq.
  - unfold os_Stat. cbn. change (resolve (set_nodes _ _) ?p) with (resolve fs p).
    rewrite Hroot. apply lookup_delete_eq.
  - intros k Hk1 Hk2. cbn. rewrite lookup_delete_ne, lookup_insert_ne by done. done.
Qed.

Lemma fileEntry_Cleanup_moves_witness :
  ∃ fs', fileEntry_Cleanup (snd built_rxy) {| fe_length := 3; fe_name := "/tmp/t/x.part" |}
         = ({| fe_length := 3; fe_name := "/tmp/t/x" |}, None, fs') ∧
    os_Stat fs' "/tmp/t/x" = Some (File (replicate 3 x00)) ∧
    os_Stat fs' "/tmp/t/x.part" = None ∧
    cwd fs' = cwd (snd built_rxy) ∧
    ∀ k, k ≠ resolve (snd built_rxy) "/tmp/t/x" →
         k ≠ resolve (snd built_rxy) "/tmp/t/x.part" →
         nodes fs' !! k = nodes (snd built_rxy) !! k.
Proof.
  apply (fileEntry_Cleanup_moves (snd built_rxy)
           {| fe_length := 3; fe_name := "/tmp/t/x.part" |} "/tmp/t/x" (replicate 3 x00));
    vm_compute; try reflexivity. discriminate.
Defined.

(** X7.  [fileEntry.Cleanup] returns the error of the removal only:
    when the final name cannot be created, the copy fails, the staging
    file is removed all the same and no error is returned, the bytes
    being in neither place. *)
Theorem fileEntry_Cleanup_loses_data fs fe c :
  isPart fe = true → os_Stat fs (fe_name fe) = Some (File c) →
  creatable fs (remove_first (fe_name fe) ".part") = false →
  fileEntry_Cleanup fs fe
  = ({| fe_length := fe_length fe; fe_name := remove_first (fe_name fe) ".part" |},
     None, set_nodes fs (delete (resolve fs (fe_name fe)) (nodes fs))).
Proof.
  intros Hp Hst Hcr. unfold fileEntry_Cleanup. rewrite Hp.
  destruct (copyfile_not_creatable fs (fe_name fe) _ Hcr) as [e ->]. cbn [snd].
  by rewrite (os_Remove_file fs _ c).
Qed.

Lemma fileEntry_Cleanup_loses_data_witness :
  fileEntry_Cleanup fs_clash {| fe_length := 4; fe_name := "/tmp/t/d.part" |}
  = ({| fe_length := 4; fe_name := "/tmp/t/d" |}, None,
     set_nodes fs_clash (delete "/tmp/t/d.part"%string (nodes fs_clash))).
Proof.
  apply (fileEntry_Cleanup_loses_data fs_clash
           {| fe_length := 4; fe_name := "/tmp/t/d.part" |} (bytes_of_string "DATA"));
    vm_compute; reflexivity.
Defined.

(** X8.  [fileEntry.Cleanup] takes out the first [.part] of the name,
    not the suffix: an entry staged from a name that holds [.part]
    before its end is renamed to a name that still ends in [.part]. *)
Theorem fileEntry_Cleanup_first_part fs fe a b :
  fe_name fe = a +:+ ".part" +:+ b +:+ ".part" → Contains a ".part" = false →
  fe_name (fileEntry_Cleanup fs fe).1.1 = a +:+ b +:+ ".part" ∧
  isPart (fileEntry_Cleanup fs fe).1.1 = true.
Proof.
  intros Hn Ha. unfold fileEntry_Cleanup, isPart.
  assert (HasSuffix (fe_name fe) ".part" = true) as ->.
  { rewrite Hn. rewrite <- !str_app_assoc. apply HasSuffix_app. }
  destruct (os_Remove _ _) as [err fs2]. cbn.
  rewrite Hn, remove_first_part by done. split; [done|].
  rewrite <- !str_app_assoc. apply HasSuffix_app.
Qed.

Lemma fileEntry_Cleanup_first_part_witness :
  fe_name (fileEntry_Cleanup fs_empty
             {| fe_length := 4; fe_name := "/tmp/t/my.partial.txt.part" |}).1.1
  = "/tmp/t/my" +:+ "ial.txt" +:+ ".part" ∧
  isPart (fileEntry_Cleanup fs_empty
            {| fe_length := 4; fe_name := "/tmp/t/my.partial.txt.part" |}).1.1 = true.
Proof.
  apply (fileEntry_Cleanup_first_part fs_empty
           {| fe_length := 4; fe_name := "/tmp/t/my.partial.txt.part" |}
           "/tmp/t/my" "ial.txt"); vm_compute; reflexivity.
Defined.

Lemma SetPart_all_isPart es : ∀ fs,
  Forall (fun fe => isPart fe = true) es → SetPart_all fs es = (es, fs).
Proof.
  induction es as [|fe es IH]; intros fs H; [done|].
  apply Forall_cons in H as [H1 H]. cbn [SetPart_all]. unfold SetPart. rewrite H1.
  by rewrite IH.
Qed.

(** X9.  [SetBad] twice from the same offset is [SetBad] once: the
    entries it staged are staged already and are left alone, with the
    file system. *)
Theorem SetBad_idempotent f fs from :
  SetBad (SetBad f fs from).1 (SetBad f fs from).2 from = SetBad f fs from.
Proof.
  destruct (SetBad_files f fs from) as [Ho Hf].
  destruct (SetBad f fs from) as [f' fs'] eqn:E. cbn [fst snd] in *.
  assert (find f' from = find f from) as Hfind by (unfold find; by rewrite Ho).
  unfold SetBad at 1. rewrite Hfind.
  set (r := find f from) in *.
  assert (drop r (files f') = staged <$> drop r (files f)) as Hd.
  { rewrite Hf. destruct (Nat.le_gt_cases r (length (files f))) as [Hle|Hgt].
    - rewrite drop_app_length'; [done|]. rewrite length_take. lia.
    - rewrite drop_ge; [|rewrite length_app, length_take, length_fmap, length_drop; lia].
      by rewrite (drop_ge (files f)) by lia. }
  assert (take r (files f') = take r (files f)) as Ht.
  { rewrite Hf. destruct (Nat.le_gt_cases r (length (files f))) as [Hle|Hgt].
    - rewrite take_app_length'; [done|]. rewrite length_take. lia.
    - rewrite (drop_ge (files f)) by lia. cbn. rewrite app_nil_r.
      by rewrite take_take, Nat.min_id. }
  rewrite Hd, SetPart_all_isPart.
  - rewrite Ht, Ho, <- Hf, <- Ho. by destruct f'.
  - apply Forall_fmap, Forall_forall. intros fe _. apply isPart_staged.
Qed.

Lemma HasPrefix_refl s : HasPrefix s s = true.
Proof. induction s as [|x s IH]; [done|]. cbn. by rewrite Ascii.eqb_refl. Qed.

Lemma Contains_drop k : ∀ s sub,
  Contains (str_drop k s) sub = true → Contains s sub = true.
Proof.
  induction k as [|k IH]; intros [|x s] sub H; try done.
  cbn [str_drop] in H. cbn [Contains]. rewrite (IH _ _ H). apply orb_true_r.
Qed.

Lemma HasSuffix_Contains s suffix :
  HasSuffix s suffix = true → Contains s suffix = true.
Proof.
  unfold HasSuffix. intros H. apply andb_true_iff in H as [_ H].
  apply String.eqb_eq in H. eapply Contains_drop. rewrite H.
  destruct suffix; cbn; [done|]. by rewrite Ascii.eqb_refl, HasPrefix_refl.
Qed.

(** X10.  Staging a complete entry with [SetPart] and cleaning it up
    again gives back the entry and the file system as they were, when
    the name holds no [.part], no staging file was there and the
    directories of both names exist. *)
Theorem SetPart_Cleanup_roundtrip fs fe c :
  Contains (fe_name fe) ".part" = false →
  os_Stat fs (fe_name fe) = Some (File c) → Z.of_nat (length c) = fe_length fe →
  os_Stat fs (fe_name fe +:+ ".part") = None →
  is_dir fs (parent (resolve fs (fe_name fe))) = true →
  is_dir fs (parent (resolve fs (fe_name fe +:+ ".part"))) = true →
  fileEntry_Cleanup (SetPart fs fe).2 (SetPart fs fe).1 = (fe, None, fs).
Proof.
  intros Hc Hst Hlen Hpart Hd1 Hd2.
  assert (isPart fe = false) as Hp.
  { unfold isPart. destruct (HasSuffix _ _) eqn:E; [|done].
    apply HasSuffix_Contains in E. congruence. }
  pose proof Hst as Hst0. apply os_Stat_File in Hst0 as [Hroot Hk].
  set (kn := resolve fs (fe_name fe)) in *.
  set (kp := resolve fs (fe_name fe +:+ ".part")) in *.
  assert (String.eqb kp "/" = false ∧ nodes fs !! kp = None) as [Hrootp Hkp].
  { unfold os_Stat in Hpart. fold kp in Hpart. by destruct (String.eqb kp "/"). }
  assert (kp ≠ kn) as Hne by congruence.
  assert (creatable fs (fe_name fe +:+ ".part") = true) as Hcr.
  { unfold creatable, is_dir. fold kp. rewrite Hrootp, Hkp. cbn. exact Hd2. }
  rewrite (SetPart_exact fs fe c) by done. cbn [fst snd]. fold kp.
  set (fs1 := set_nodes fs (<[kp := File c]> (nodes fs))).
  assert (creatable fs1 (fe_name fe) = true) as Hcr1.
  { unfold creatable. change (resolve fs1 ?p) with (resolve fs p). fold kn.
    apply andb_true_iff. split.
    - unfold is_dir. rewrite Hroot. subst fs1. cbn.
      by rewrite lookup_insert_ne, Hk by done.
    - unfold is_dir in *. destruct (String.eqb (parent kn) "/"); [done|].
      cbn in *. subst fs1. cbn. destruct (decide (kp = parent kn)) as [E|E].
      + rewrite <- E, Hkp in Hd1. done.
      + by rewrite lookup_insert_ne. }
  rewrite (fileEntry_Cleanup_exact fs1 _ (fe_name fe) c); cbn [fe_name fe_length];
    [|done|done| |done|].
  - change (resolve fs1 ?p) with (resolve fs p). fold kn kp.
    f_equal; [f_equal; by destruct fe|].
    subst fs1. cbn.
    rewrite (insert_id _ kn) by (by rewrite lookup_insert_ne).
    rewrite delete_insert_id by done. by destruct fs.
  - apply os_Stat_insert; [done|done].
  - change (resolve fs1 ?p) with (resolve fs p). fold kn kp. done.
Qed.

Lemma SetPart_Cleanup_roundtrip_witness :
  fileEntry_Cleanup
    (SetPart fs_complete {| fe_length := 3; fe_name := "/tmp/t/x" |}).2
    (SetPart fs_complete {| fe_length := 3; fe_name := "/tmp/t/x" |}).1
  = ({| fe_length := 3; fe_name := "/tmp/t/x" |}, None, fs_complete).
Proof.
  apply (SetPart_Cleanup_roundtrip fs_complete
           {| fe_length := 3; fe_name := "/tmp/t/x" |} (bytes_of_string "ABC"));
    vm_compute; reflexivity.
Defined.

(** *** Cleanup of the store *)

Lemma copyfile_frame fs fromname toname :
  cwd (copyfile fs fromname toname).2 = cwd fs ∧
  ∀ k, k ≠ resolve fs toname →
       nodes (copyfile fs fromname toname).2 !! k = nodes fs !! k.
Proof.
  unfold copyfile. destruct (os_Stat fs fromname); [|done].
  unfold os_Create. destruct (is_dir fs (resolve fs toname)); [done|].
  destruct (negb _); [done|]. cbn [fst snd].
  set (fs1 := set_nodes fs _).
  assert (∀ k, k ≠ resolve fs toname → nodes fs1 !! k = nodes fs !! k) as Hf.
  { intros k Hk. subst fs1. cbn. by rewrite lookup_insert_ne. }
  destruct (os_Stat fs1 fromname) as [[c|sz]|]; cbn; try done.
  split; [done|]. intros k Hk. change (resolve fs1 ?p) with (resolve fs p).
  rewrite lookup_insert_ne by done. by apply Hf.
Qed.

Lemma fileEntry_Cleanup_step fs fe :
  staged_file fs fe → resolve fs (realname fe) ≠ resolve fs (fe_name fe) →
  ∃ fe' fs', fileEntry_Cleanup fs fe = (fe', None, fs') ∧
    cwd fs' = cwd fs ∧
    nodes fs' !! resolve fs (fe_name fe) = None ∧
    ∀ k, k ≠ resolve fs (fe_name fe) → k ≠ resolve fs (realname fe) →
         nodes fs' !! k = nodes fs !! k.
Proof.
  intros [Hp [c Hst]] Hne. unfold fileEntry_Cleanup. rewrite Hp.
  fold (realname fe).
  destruct (copyfile_frame fs (fe_name fe) (realname fe)) as [Hcwd Hf].
  set (fs1 := (copyfile fs (fe_name fe) (realname fe)).2) in *.
  apply os_Stat_File in Hst as [Hroot Hk].
  assert (os_Stat fs1 (fe_name fe) = Some (File c)) as Hst1.
  { apply os_Stat_File. rewrite (resolve_cwd fs fs1) by done. split; [done|].
    rewrite Hf by done. done. }
  rewrite (os_Remove_file fs1 _ c) by done.
  rewrite (resolve_cwd fs fs1) by done.
  eexists _, _. split; [reflexivity|]. cbn. split; [done|].
  split; [apply lookup_delete_eq|].
  intros k Hk1 Hk2. rewrite lookup_delete_ne by done. by apply Hf.
Qed.

Lemma Cleanup_loop_gone es : ∀ fs e0,
  Forall (staged_file fs) es →
  NoDup ((fun fe => resolve fs (fe_name fe)) <$> es) →
  (∀ fe fe', fe ∈ es → fe' ∈ es →
             resolve fs (realname fe) ≠ resolve fs (fe_name fe')) →
  cwd (fileStore_Cleanup_loop fs es e0).2 = cwd fs ∧
  (es ≠ [] → (fileStore_Cleanup_loop fs es e0).1 = None) ∧
  (∀ fe, fe ∈ es →
         nodes (fileStore_Cleanup_loop fs es e0).2 !! resolve fs (fe_name fe) = None) ∧
  (∀ k, (∀ fe, fe ∈ es → k ≠ resolve fs (realname fe) ∧ k ≠ resolve fs (fe_name fe)) →
        nodes (fileStore_Cleanup_loop fs es e0).2 !! k = nodes fs !! k).
Proof.
  induction es as [|fe es IH]; intros fs e0 Hall Hnd Hreal.
  - cbn. split; [done|]. split; [done|]. split; [|done]. intros fe H. by apply elem_of_nil in H.
  - apply Forall_cons in Hall as [H1 Hall].
    cbn [fmap list_fmap] in Hnd. apply NoDup_cons in Hnd as [Hfresh Hnd].
    destruct (fileEntry_Cleanup_step fs fe H1) as (fe' & fs2 & Hstep & Hcwd & Hgone & Hframe).
    { apply Hreal; left. }
    cbn [fileStore_Cleanup_loop]. rewrite Hstep.
    assert (∀ x, x ∈ es → resolve fs (fe_name x) ≠ resolve fs (fe_name fe)) as Hother.
    { intros x Hx E. apply Hfresh. rewrite <- E.
      apply list_elem_of_fmap. by exists x. }
    assert (Forall (staged_file fs2) es) as Hall2.
    { apply Forall_forall. intros x Hx.
      rewrite Forall_forall in Hall. destruct (Hall x Hx) as [Hp [c Hst]].
      split; [done|]. exists c.
      apply os_Stat_File in Hst as [Hroot Hk]. apply os_Stat_File.
      rewrite (resolve_cwd fs fs2) by done. split; [done|].
      rewrite Hframe; [done|by apply Hother|].
      intros E. eapply Hreal; [left|right; exact Hx|]. done. }
    assert (∀ p, resolve fs2 p = resolve fs p) as Hres
      by (intros; by apply resolve_cwd).
    destruct (IH fs2 None Hall2) as (I1 & I2 & I3 & I4).
    { erewrite list_fmap_ext; [exact Hnd|]. intros _ x _. apply Hres. }
    { intros x y Hx Hy. rewrite !Hres. apply Hreal; by right. }
    split; [congruence|]. split; [|split].
    + intros _. destruct es as [|y es]; [done|]. by apply I2.
    + intros x Hx. apply elem_of_cons in Hx as [->|Hx].
      * rewrite I4; [done|]. intros y Hy. rewrite !Hres. split.
        -- intros E. eapply Hreal; [right; exact Hy|left|]. done.
        -- intros E. by eapply Hother.
      * rewrite <- (Hres (fe_name x)). by apply I3.
    + intros k Hk. rewrite I4.
      * apply Hframe; apply Hk; left.
      * intros y Hy. rewrite !Hres. apply Hk. by right.
Qed.

Lemma ReadAt_loop_missing es : ∀ fs acc p off n b,
  aligned b es → Forall (fun e => os_Stat fs (fe_name e.2) = None) es →
  p ≠ [] → 0 <= b → b <= off < end_of b es → end_of b es <= MaxInt64 →
  ∃ e, ReadAt_loop es fs acc p off n = (acc, p, n, Some e).
Proof.
  induction es as [|[o entry] es IH]; intros fs acc p off n b Hal Hno Hp Hb Hoff Hend.
  - cbn in Hoff. lia.
  - destruct p as [|x p]; [done|].
    cbn [aligned] in Hal. destruct Hal as (-> & HL & Hal).
    cbn [end_of] in Hoff, Hend.
    pose proof (end_of_ge _ _ Hal) as Hge.
    apply Forall_cons in Hno as [Hno1 Hno]. cbn [snd] in Hno1.
    cbn [ReadAt_loop].
    assert (wrap64 (off - b) = off - b) as -> by (apply wrap64_id; int64_lia).
    destruct (Z.ltb_spec (off - b) (fe_length entry)) as [Hin|Hout].
    + unfold fileEntry_ReadAt. rewrite Hno1. rewrite take_drop, Z.add_0_r. by eexists.
    + apply (IH fs acc _ off n (b + fe_length entry)); try done; lia.
Qed.

(** X11.  [fileStore.Cleanup] works on a copy of each entry: the store
    keeps the staging names while the staging files are removed.  For a
    store of staged entries with distinct files, no final name being a
    staging name of the store, every name of the store leads nowhere
    afterwards, and a read inside the store fails without a byte
    read. *)
Theorem fileStore_Cleanup_dangling f fs totalSize :
  store_backed f fs totalSize → distinct_files f fs →
  Forall (fun fe => isPart fe = true) (files f) →
  (∀ fe fe', fe ∈ files f → fe' ∈ files f →
             resolve fs (realname fe) ≠ resolve fs (fe_name fe')) →
  (∀ fe, fe ∈ files f → os_Stat (fileStore_Cleanup f fs).2 (fe_name fe) = None) ∧
  (∀ p off, p ≠ [] → 0 <= off < totalSize →
     ∃ e, fileStore_ReadAt f (fileStore_Cleanup f fs).2 p off = (p, 0, Some e)).
Proof.
  intros Hsb Hnd Hpart Hreal.
  pose proof Hsb as (Hlen & Hal & Hend & Hmax & Hbk).
  set (es := zip (offsets f) (files f)) in *.
  assert (es.*2 = files f) as H2 by (apply snd_zip; lia).
  assert (Forall (staged_file fs) (files f)) as Hst.
  { apply Forall_forall. intros fe Hfe. rewrite Forall_forall in Hpart, Hbk.
    split; [by apply Hpart|]. destruct (Hbk fe Hfe) as (c & Hc & _). by exists c. }
  assert (NoDup ((fun fe => resolve fs (fe_name fe)) <$> files f)) as Hnd'.
  { unfold distinct_files, keys in Hnd. fold es in Hnd. rewrite <- H2.
    by rewrite <- list_fmap_compose. }
  unfold fileStore_Cleanup.
  destruct (Cleanup_loop_gone (files f) fs None Hst Hnd' Hreal) as (Hcwd & _ & Hgone & _).
  set (fs' := (fileStore_Cleanup_loop fs (files f) None).2) in *.
  assert (∀ fe, fe ∈ files f → os_Stat fs' (fe_name fe) = None) as Hnone.
  { intros fe Hfe. rewrite Forall_forall in Hbk.
    destruct (Hbk fe Hfe) as (c & Hc & _). apply os_Stat_File in Hc as [Hroot _].
    unfold os_Stat. rewrite (resolve_cwd fs fs') by done. rewrite Hroot. by apply Hgone. }
  split; [done|].
  intros p off Hp Hoff. unfold fileStore_ReadAt.
  rewrite (proj1 (entries_from_find_all f off Hlen Hal ltac:(lia))). fold es.
  destruct (ReadAt_loop_missing es fs' [] p off 0 0) as [e ->]; try done; try lia.
  - apply Forall_forall. intros [o fe] Hin. cbn. apply Hnone. rewrite <- H2.
    apply list_elem_of_fmap. by exists (o, fe).
  - by exists e.
Qed.

Lemma fileStore_Cleanup_dangling_witness :
  (∀ fe, fe ∈ files (store_of built_rxy) →
     os_Stat (fileStore_Cleanup (store_of built_rxy) (snd built_rxy)).2 (fe_name fe)
     = None) ∧
  (∀ p off, p ≠ [] → 0 <= off < 8 →
     ∃ e, fileStore_ReadAt (store_of built_rxy)
            (fileStore_Cleanup (store_of built_rxy) (snd built_rxy)).2 p off
          = (p, 0, Some e)).
Proof.
  apply (fileStore_Cleanup_dangling (store_of built_rxy) (snd built_rxy) 8).
  - apply built_rxy_backed.
  - apply built_rxy_distinct.
  - rewrite store_of_built_rxy. repeat constructor.
  - rewrite store_of_built_rxy. cbn [files]. intros fe fe' H1 H2.
    apply elem_of_cons in H1 as [->|H1]; [|apply elem_of_cons in H1 as [->|H1]];
      [| |by apply elem_of_nil in H1];
      (apply elem_of_cons in H2 as [->|H2]; [|apply elem_of_cons in H2 as [->|H2]];
       [| |by apply elem_of_nil in H2]); vm_compute; discriminate.
Defined.

(** *** Directories and staging files *)

Lemma after_last_slash_ge s : ∀ i last,
  (last ≤ i)%nat → (last ≤ after_last_slash s i last)%nat.
Proof.
  induction s as [|c s IH]; intros i last H; cbn; [done|].
  destruct (Ascii.eqb c "/").
  - etrans; [|apply IH; lia]. lia.
  - apply IH. lia.
Qed.

Lemma after_last_slash_pos s : ∀ i last,
  contains_char "/" s = true → (last ≤ i)%nat →
  (i < after_last_slash s i last)%nat.
Proof.
  induction s as [|c s IH]; intros i last Hc H; cbn in *; [done|].
  destruct (Ascii.eqb c "/").
  - pose proof (after_last_slash_ge s (S i) (S i)). lia.
  - cbn in Hc. specialize (IH (S i) last Hc). lia.
Qed.

Lemma path_Split_dir s :
  contains_char "/" s = true → fst (path_Split s) ≠ EmptyString.
Proof.
  intros Hc. unfold path_Split. cbn [fst].
  pose proof (after_last_slash_pos s 0 0 Hc ltac:(lia)) as Hpos.
  destruct (after_last_slash s 0 0) as [|n]; [lia|]. by destruct s.
Qed.

Lemma HasPrefix_slash_contains s :
  HasPrefix s "/" = true → contains_char "/" s = true.
Proof.
  destruct s as [|c s]; [done|]. cbn. rewrite HasPrefix_nil, andb_true_r.
  intros ->. done.
Qed.

Lemma ensureDirectory_base fs p :
  let full := if negb (HasPrefix (Clean p) "/") then cwd fs +:+ "/" +:+ Clean p
              else Clean p in
  fst (path_Split full) ≠ EmptyString.
Proof.
  intros full. apply path_Split_dir. subst full.
  destruct (HasPrefix (Clean p) "/") eqn:E; cbn.
  - by apply HasPrefix_slash_contains.
  - rewrite !contains_char_app. cbn. apply orb_true_r.
Qed.

Lemma mkdirs_made K : ∀ cur m m',
  K ≠ [] → mkdirs K cur m = (None, m') →
  ∃ sz, m' !! (cur +:+ "/" +:+ join_with "/" K) = Some (Dir sz).
Proof.
  induction K as [|e K IH]; intros cur m m' Hne H; [done|].
  cbn [mkdirs] in H.
  destruct K as [|e2 K].
  - cbn [join_with]. destruct (m !! (cur +:+ "/" +:+ e)) as [[c|sz]|] eqn:E.
    + done.
    + cbn in H. injection H as <-. by exists sz.
    + cbn in H. injection H as <-. exists 4096. apply lookup_insert_eq.
  - rewrite join_with_cons.
    assert (cur +:+ "/" +:+ e +:+ "/" +:+ join_with "/" (e2 :: K)
            = (cur +:+ "/" +:+ e) +:+ "/" +:+ join_with "/" (e2 :: K)) as ->.
    { by rewrite !str_app_assoc. }
    destruct (m !! (cur +:+ "/" +:+ e)) as [[c|sz]|] eqn:E; [done| |];
      by apply IH in H.
Qed.

Lemma mkdirs_error K : ∀ cur m e m',
  mkdirs K cur m = (Some e, m') → ∃ k c, m !! k = Some (File c).
Proof.
  induction K as [|x K IH]; intros cur m e m' H; [done|].
  cbn [mkdirs] in H.
  destruct (m !! (cur +:+ "/" +:+ x)) as [[c|sz]|] eqn:E.
  - by exists (cur +:+ "/" +:+ x), c.
  - by apply IH in H.
  - apply IH in H as (k & c & Hk).
    destruct (decide (k = cur +:+ "/" +:+ x)) as [->|Hne].
    + by rewrite lookup_insert_eq in Hk.
    + rewrite lookup_insert_ne in Hk by done. by exists k, c.
Qed.

Lemma filter_real K :
  Forall (fun x => is_real x = true) K → filter (fun e => e ≠ EmptyString) K = K.
Proof.
  induction 1 as [|x K Hx _ IH]; [done|].
  rewrite filter_cons_True; [by rewrite IH|]. by destruct x.
Qed.

Lemma os_MkdirAll_made fs base fs' :
  HasPrefix base "/" = true → os_MkdirAll fs base = (None, fs') →
  is_dir fs' (Clean base) = true.
Proof.
  intros Hab H. unfold os_MkdirAll, resolve in H. rewrite Hab in H.
  rewrite Clean_render in H |- * by (by destruct base). rewrite Hab in *.
  unfold render in *.
  pose proof (clean_elems_rooted_real base Hab) as Hreal.
  pose proof (proj2 (clean_elems_kept base)) as Hsep.
  destruct (clean_elems base) as [|x K].
  - done.
  - assert (Split (String "/" (join_with "/" (x :: K))) "/" = ""%string :: x :: K) as HS.
    { cbn [Split]. rewrite Ascii.eqb_refl. f_equal.
      change "/"%string with (String "/"%char "") at 1. by apply Split_join. }
    rewrite HS in H. rewrite filter_cons_False in H by (intros E; by apply E).
    rewrite filter_real in H by done.
    destruct (mkdirs (x :: K) "" (nodes fs)) as [[e|] m'] eqn:E; [done|].
    injection H as <-.
    destruct (mkdirs_made (x :: K) _ _ _ ltac:(done) E) as [sz Hsz].
    rewrite str_app_nil_l, str_app_cons, str_app_nil_l in Hsz.
    unfold is_dir. cbn [nodes set_nodes]. by rewrite Hsz, orb_true_r.
Qed.

(** X12.  [ensureDirectory] never reaches its panic: the path it
    splits always holds a slash.  When it succeeds, the nodes that were
    there are kept and, for an absolute path, the directory of the path
    exists; it fails only when the file system holds a regular file. *)
Theorem ensureDirectory_result fs p :
  ensureDirectory fs p ≠ Fatal ∧
  (∀ fs', ensureDirectory fs p = Done fs' →
     cwd fs' = cwd fs ∧
     (∀ k v, nodes fs !! k = Some v → nodes fs' !! k = Some v) ∧
     (HasPrefix p "/" = true → is_dir fs' (parent (Clean p)) = true)) ∧
  (∀ e, ensureDirectory fs p = Failed e → ∃ k c, nodes fs !! k = Some (File c)).
Proof.
  split; [|split].
  - unfold ensureDirectory. pose proof (ensureDirectory_base fs p) as Hb. cbv zeta in Hb.
    destruct (String.eqb_spec (fst (path_Split
      (if negb (HasPrefix (Clean p) "/") then cwd fs +:+ "/" +:+ Clean p else Clean p))) "")
      as [E|_]; [done|].
    by destruct (os_MkdirAll _ _) as [[e|] ?].
  - intros fs' H. destruct (ensureDirectory_keeps _ _ _ H) as [Hc Hk].
    split; [done|]. split; [done|]. intros Hab.
    unfold ensureDirectory in H.
    assert (HasPrefix (Clean p) "/" = true) as Hcl.
    { destruct p as [|c p]; cbn in Hab; [done|]. unfold Clean.
      rewrite HasPrefix_nil, andb_true_r in Hab. cbv zeta. rewrite Hab.
      cbn [HasPrefix]. by rewrite HasPrefix_nil. }
    rewrite Hcl in H. cbn [negb] in H.
    destruct (String.eqb _ ""); [done|].
    destruct (os_MkdirAll fs _) as [[e|] fs2] eqn:E; [done|]. injection H as <-.
    apply os_MkdirAll_made in E; [done|].
    unfold path_Split. cbn [fst].
    pose proof (after_last_slash_pos (Clean p) 0 0
                  (HasPrefix_slash_contains _ Hcl) ltac:(lia)) as Hpos.
    destruct (after_last_slash (Clean p) 0 0) as [|n]; [lia|].
    destruct (Clean p) as [|c q]; [done|]. cbn in Hcl |- *.
    by rewrite HasPrefix_nil in *.
  - intros e H. unfold ensureDirectory in H.
    destruct (String.eqb _ ""); [done|].
    unfold os_MkdirAll in H.
    destruct (mkdirs _ _ _) as [[e'|] m'] eqn:E; [|done].
    by apply mkdirs_error in E.
Qed.

Lemma ensureDirectory_result_witness :
  ∃ fs', ensureDirectory fs_empty "/tmp/t/d/y" = Done fs' ∧
         is_dir fs' "/tmp/t/d" = true.
Proof.
  eexists. split; [vm_compute; reflexivity|].
  apply (proj1 (proj2 (ensureDirectory_result fs_empty "/tmp/t/d/y")) _ eq_refl).
  reflexivity.
Defined.




(** * Stores as [NewFileStore] leaves them *)

Lemma stale_free_cwd fs fs' storePath srcs : ∀ prev new,
  cwd fs' = cwd fs →
  stale_free fs' storePath prev srcs new = stale_free fs storePath prev srcs new.
Proof.
  induction srcs as [|src srcs IH]; intros prev new Hc; [done|].
  destruct new as [|fe new]; [done|]. cbn [stale_free].
  rewrite IH by done. f_equal.
  induction prev as [|p prev IHp]; [done|]. cbn [forallb].
  by rewrite IHp, !(resolve_cwd fs fs').
Qed.

Lemma sized_keeps fs fs' fe :
  cwd fs' = cwd fs →
  nodes fs' !! resolve fs (fe_name fe) = nodes fs !! resolve fs (fe_name fe) →
  sized fs fe → sized fs' fe.
Proof.
  intros Hc Hn (nd & Hst & Hsz). exists nd. split; [|done].
  unfold os_Stat in *. rewrite (resolve_cwd fs fs') by done.
  destruct (String.eqb _ "/"); [done|]. by rewrite Hn.
Qed.

Lemma ensureDirectory_sized fs p fs' fe :
  ensureDirectory fs p = Done fs' → sized fs fe → sized fs' fe.
Proof.
  intros H (nd & Hst & Hsz). destruct (ensureDirectory_keeps _ _ _ H) as [Hc Hk].
  exists nd. split; [|done]. unfold os_Stat in *. rewrite (resolve_cwd fs fs') by done.
  destruct (String.eqb _ "/"); [done|]. by apply Hk.
Qed.

Lemma fileEntry_open_sized fs name length fe fs' p :
  fileEntry_open fs name length = (fe, None, fs') →
  resolve fs (fe_name p) ≠ resolve fs (name +:+ ".part") →
  resolve fs (fe_name p) ≠ resolve fs (fe_name fe) →
  sized fs p → sized fs' p.
Proof.
  intros Hopen Hstale Hne Hs.
  destruct (after_removal_frame fs name) as [Hcwd1 Hframe1].
  destruct (fileEntry_open_cases fs name length)
    as [(st & Hst & Hsz & Heq)|[(e & Heq)|(fs3 & Heq & Hcwd & Hroot & Hnodes & _)]];
    rewrite Heq in Hopen; [|done|]; injection Hopen as <- <-.
  - apply (sized_keeps fs); [done| |done]. by apply Hframe1.
  - apply (sized_keeps fs); [done| |done]. cbn [fe_name] in Hne.
    rewrite Hnodes, lookup_insert_ne by done. by apply Hframe1.
Qed.

Lemma NewFileStore_loop_sized srcs : ∀ storePath st0 total0 fs st' total' fs',
  NewFileStore_loop srcs storePath st0 total0 fs = (Done (st', total'), fs') →
  Forall (fun src => 0 <= fd_Length src) srcs →
  cwd fs' = cwd fs ∧
  ∃ new, files st' = files st0 ++ new ∧
    (NoDup ((fun fe => resolve fs (fe_name fe)) <$> files st') →
     stale_free fs storePath (files st0) srcs new = true →
     Forall (sized fs) (files st0) → Forall (sized fs') (files st')).
Proof.
  induction srcs as [|src srcs IH]; intros storePath st0 total0 fs st' total' fs' H Hnn;
    cbn [NewFileStore_loop] in H.
  - injection H as <- <- <-. split; [done|]. exists []. by rewrite app_nil_r.
  - fold (full_path storePath src) in H.
    apply Forall_cons in Hnn as [Hn0 Hnn].
    destruct (ensureDirectory fs (full_path storePath src)) as [fs1| |] eqn:Hed;
      [|done|done].
    destruct (fileEntry_open fs1 _ _) as [[fe [e|]] fs2] eqn:Hopen; [done|].
    destruct (ensureDirectory_keeps _ _ _ Hed) as [Hc1 _].
    destruct (fileEntry_open_result _ _ _ _ _ Hopen Hn0) as (Hl & _ & Hsized & Hc2 & _).
    apply IH in H as (Hc3 & new & Hf & Himp); [|done]. cbn [files] in Hf, Himp.
    split; [congruence|].
    exists (fe :: new). rewrite <- (assoc_L (++)) in Hf. split; [done|].
    intros Hnd Hstale Hprev. cbn [stale_free] in Hstale.
    apply andb_true_iff in Hstale as [Hst1 Hst2].
    assert (∀ q, resolve fs2 q = resolve fs q) as Hres.
    { intros q. rewrite (resolve_cwd fs1 fs2), (resolve_cwd fs fs1); done. }
    apply Himp.
    + erewrite list_fmap_ext; [exact Hnd|]. intros _ x _. apply Hres.
    + by rewrite (stale_free_cwd fs fs2) by congruence.
    + apply Forall_app. split.
      * apply Forall_forall. intros p Hp. rewrite Forall_forall in Hprev.
        apply (fileEntry_open_sized fs1 _ _ fe fs2 p Hopen).
        -- rewrite !(resolve_cwd fs fs1) by done.
           rewrite forallb_forall in Hst1. specialize (Hst1 p).
           rewrite <- list_elem_of_In in Hst1. specialize (Hst1 Hp).
           apply negb_true_iff in Hst1. by apply String.eqb_neq in Hst1.
        -- rewrite !(resolve_cwd fs fs1) by done.
           rewrite Hf, fmap_app in Hnd. apply NoDup_app in Hnd as (_ & Hdis & _).
           intros E. apply (Hdis (resolve fs (fe_name p))).
           ++ apply list_elem_of_fmap. by exists p.
           ++ rewrite E. cbn. left.
        -- eapply ensureDirectory_sized; [exact Hed|]. by apply Hprev.
      * constructor; [|constructor]. destruct Hsized as (nd & Hnd1 & Hnd2).
        exists nd. split; [done|]. congruence.
Qed.

(** X30.  A store that [NewFileStore] returns is backed by the file
    system it leaves: when no length is negative and the sum fits, the
    entries lead to distinct files, none of them to a directory, and no
    entry bears the name [fileEntry.open] removes for a file after it
    (that file's path with [.part]), every entry leads to a regular
    file of the entry's length and the entries follow one another from
    offset zero up to the total size. *)
Theorem NewFileStore_backed info storePath fs st totalSize fs' :
  NewFileStore info storePath fs = (Done (st, totalSize), fs') →
  Forall (fun l => 0 <= l) (fd_Length <$> sources info) →
  sum_Z (fd_Length <$> sources info) <= MaxInt64 →
  distinct_files st fs' →
  stale_free fs' storePath [] (sources info) (files st) = true →
  Forall (fun fe => is_dir fs' (resolve fs' (fe_name fe)) = false) (files st) →
  store_backed st fs' totalSize.
Proof.
  intros H Hnn Hsum Hnd Hstale Hfile.
  assert (Forall (fun src => 0 <= fd_Length src) (sources info)) as Hnn'.
  { rewrite Forall_forall. intros src Hsrc. rewrite Forall_forall in Hnn.
    apply Hnn. apply list_elem_of_fmap. by exists src. }
  pose proof H as H0. unfold NewFileStore in H0. fold (sources info) in H0.
  pose proof H0 as H1.
  apply NewFileStore_loop_layout in H0 as (new & Hf & Ho & Ht & Hall).
  cbn in Hf, Ho.
  assert (fe_length <$> new = fd_Length <$> sources info) as Hls.
  { clear -Hall. induction Hall as [|src fe srcs fes [Hl _] _ IH]; [done|].
    cbn. by rewrite Hl, IH. }
  rewrite <- Hls in *.
  destruct (running_aligned new 0) as (A1 & A2 & A3 & A4); [done|lia|lia|].
  rewrite Z.add_0_l in *.
  assert (length (offsets st) = length (files st)) as Hlen by (by rewrite Hf, Ho).
  apply NewFileStore_loop_sized in H1 as (Hcwd & new' & Hf' & Himp).
  2:{ exact Hnn'. }
  cbn [files] in Hf', Himp.
  assert (Forall (sized fs') (files st)) as Hsized.
  { apply Himp; [| |constructor].
    - unfold distinct_files, keys in Hnd.
      rewrite <- (snd_zip (offsets st) (files st)) by lia.
      rewrite <- list_fmap_compose.
      erewrite list_fmap_ext; [exact Hnd|]. intros _ x _. cbn. by apply resolve_cwd.
    - cbn in Hf'. rewrite <- (stale_free_cwd fs fs') by done. by rewrite <- Hf'. }
  unfold store_backed. rewrite Hf, Ho in *. rewrite Ht, A3.
  split; [done|]. split; [done|]. split; [done|]. split; [done|].
  apply Forall_forall. intros fe Hfe.
  rewrite Forall_forall in Hsized, Hfile.
  destruct (Hsized fe Hfe) as (nd & Hst & Hsz). specialize (Hfile fe Hfe).
  unfold os_Stat in Hst. unfold is_dir in Hfile.
  apply orb_false_iff in Hfile as [Hroot Hdir]. rewrite Hroot in Hst.
  rewrite Hst in Hdir. destruct nd as [c|sz]; [|done].
  exists c. split; [|done]. unfold os_Stat. by rewrite Hroot, Hst.
Qed.

Lemma NewFileStore_backed_witness :
  store_backed (store_of built_complete) (snd built_complete) 8.
Proof.
  apply (NewFileStore_backed info_rxy "/tmp/t" fs_complete).
  - vm_compute. reflexivity.
  - repeat constructor; vm_compute; discriminate.
  - vm_compute. discriminate.
  - apply built_complete_distinct.
  - vm_compute. reflexivity.
  - vm_compute. repeat constructor.
Defined.

(** ** The handshake header *)

Lemma byte_val_range b : 0 <= byte_val b < 256.
Proof. destruct b; vm_compute; split; congruence. Qed.

Lemma byte_of_Z_val b : byte_of_Z (byte_val b) = b.
Proof. by destruct b. Qed.

Lemma hex_val_digit d :
  0 <= d < 16 → hex_val (hex_digit d) = Some d.
Proof.
  intros H.
  assert (d = 0 ∨ d = 1 ∨ d = 2 ∨ d = 3 ∨ d = 4 ∨ d = 5 ∨ d = 6 ∨ d = 7 ∨
          d = 8 ∨ d = 9 ∨ d = 10 ∨ d = 11 ∨ d = 12 ∨ d = 13 ∨ d = 14 ∨ d = 15)
    as Hd by lia.
  repeat (destruct Hd as [->|Hd]; [reflexivity|]). by subst.
Qed.

(** Decoding the hexadecimal text of some bytes gives the bytes back. *)
Lemma hex_decode_encode bs : hex_decode (hex_encode bs) = Some bs.
Proof.
  induction bs as [|b bs IH]; [done|].
  cbn [hex_encode hex_decode]. pose proof (byte_val_range b) as Hb.
  rewrite !hex_val_digit, IH.
  - do 2 f_equal. rewrite <- (byte_of_Z_val b) at 3. f_equal.
    pose proof (Z.div_mod (byte_val b) 16). lia.
  - apply Z.mod_pos_bound. lia.
  - split; [apply Z.div_pos; lia|]. apply Z.div_lt_upper_bound; lia.
Qed.

Lemma length_copy_bytes dst src : length (copy_bytes dst src) = length dst.
Proof. unfold copy_bytes. rewrite length_app, length_take, length_drop. lia. Qed.

Lemma copy_bytes_exact dst src :
  length src = length dst → copy_bytes dst src = src.
Proof.
  intros H. unfold copy_bytes. rewrite <- H, take_ge, drop_ge by lia.
  apply app_nil_r.
Qed.

Lemma length_copy_at h lo hi src :
  (lo ≤ hi ≤ length h)%nat → length (copy_at h lo hi src) = length h.
Proof.
  intros H. unfold copy_at.
  rewrite !length_app, length_copy_bytes, !length_take, !length_drop. lia.
Qed.

Lemma copy_at_before h lo hi src i :
  (i < lo ≤ length h)%nat → header_byte (copy_at h lo hi src) i = header_byte h i.
Proof.
  intros H. unfold header_byte, copy_at. rewrite !nth_lookup.
  rewrite lookup_app_l by (rewrite length_take; lia).
  by rewrite lookup_take_lt by lia.
Qed.

Lemma copy_at_region h lo hi src :
  (lo ≤ hi ≤ length h)%nat → length src = (hi - lo)%nat →
  take (hi - lo) (drop lo (copy_at h lo hi src)) = src.
Proof.
  intros H Hs. unfold copy_at.
  rewrite drop_app_length' by (rewrite length_take; lia).
  rewrite copy_bytes_exact by (rewrite length_take, length_drop; lia).
  by rewrite take_app_length'.
Qed.

Lemma copy_at_keeps_before h lo hi src n :
  (n ≤ lo ≤ length h)%nat → take n (copy_at h lo hi src) = take n h.
Proof.
  intros H. unfold copy_at.
  rewrite take_app_le by (rewrite length_take; lia).
  rewrite take_take. f_equal. lia.
Qed.

Lemma or_byte_length h i m : length (or_byte h i m) = length h.
Proof. unfold or_byte. apply length_insert. Qed.

Lemma or_byte_same h i m :
  (i < length h)%nat →
  header_byte (or_byte h i m) i = byte_val (byte_of_Z (Z.lor (header_byte h i) m)).
Proof.
  intros H. unfold or_byte at 1. unfold header_byte at 1.
  rewrite nth_lookup, list_lookup_insert_eq by done. done.
Qed.

Lemma or_byte_other h i j m :
  i ≠ j → header_byte (or_byte h i m) j = header_byte h j.
Proof.
  intros H. unfold or_byte, header_byte.
  by rewrite !nth_lookup, list_lookup_insert_ne.
Qed.

Lemma lor_bit_1 b : Z.land (byte_val (byte_of_Z (Z.lor (byte_val b) 1))) 1 = 1.
Proof. by destruct b. Qed.

Lemma lor_bit_16 b : Z.land (byte_val (byte_of_Z (Z.lor (byte_val b) 16))) 16 = 16.
Proof. by destruct b. Qed.

Lemma bytes_of_string_length s : length (bytes_of_string s) = String.length s.
Proof. induction s as [|c s IH]; [done|]. cbn. f_equal. exact IH. Qed.

Section HandshakeProofs.

Variable kBitTorrentHeader : list byte.

Lemma Header_made cs publicID binID :
  hex_decode publicID = Some binID →
  ∃ h, Header kBitTorrentHeader cs publicID [] = Done h ∧
       length h = 68%nat ∧
       Z.land (header_byte h 27) 1 = 1 ∧
       Z.land (header_byte h 25) 16 = 16 ∧
       take 25 h = take 25 (kBitTorrentHeader ++ replicate 68 x00) ∧
       (length binID = 20%nat → take 20 (drop 28 h) = binID) ∧
       (String.length (PeerID cs) = 20%nat →
        drop 48 h = bytes_of_string (PeerID cs)).
Proof.
  intros Hhex. unfold Header. cbn [length Nat.ltb Nat.leb]. rewrite Hhex.
  set (h0 := copy_bytes (replicate 68 x00) kBitTorrentHeader).
  assert (length h0 = 68%nat) as L0.
  { subst h0. by rewrite length_copy_bytes, length_replicate. }
  set (h1 := or_byte h0 27 1).
  set (h2 := or_byte h1 25 16).
  assert (length h2 = 68%nat) as L2 by (subst h2 h1; by rewrite !or_byte_length).
  set (h3 := copy_at h2 28 48 binID).
  assert (length h3 = 68%nat) as L3 by (subst h3; rewrite length_copy_at; lia).
  eexists. split; [reflexivity|].
  split; [rewrite length_copy_at; lia|].
  split; [|split; [|split; [|split]]].
  - rewrite copy_at_before by lia. subst h3. rewrite copy_at_before by lia.
    subst h2. rewrite or_byte_other by done. subst h1.
    rewrite or_byte_same by lia. unfold header_byte. apply lor_bit_1.
  - rewrite copy_at_before by lia. subst h3. rewrite copy_at_before by lia.
    subst h2. rewrite or_byte_same by (subst h1; rewrite or_byte_length; lia).
    unfold header_byte. apply lor_bit_16.
  - rewrite copy_at_keeps_before by lia. subst h3.
    rewrite copy_at_keeps_before by lia. subst h2 h1. unfold or_byte.
    rewrite !take_insert_ge by lia. subst h0. unfold copy_bytes.
    rewrite length_replicate.
    destruct (Nat.le_gt_cases 25 (length kBitTorrentHeader)).
    + rewrite !take_app_le by (rewrite ?length_take; lia).
      by rewrite take_take.
    + apply list_eq. intros i. rewrite !lookup_take.
      destruct (decide (i < 25)%nat) as [Hi|Hi]; [|done].
      destruct (decide (i < length kBitTorrentHeader)%nat) as [Hk|Hk].
      * rewrite !lookup_app_l by (rewrite ?length_take; lia).
        rewrite lookup_take_lt by lia. done.
      * rewrite !lookup_app_r by (rewrite ?length_take; lia).
        rewrite length_take, lookup_drop, !lookup_replicate_2 by lia. done.
  - intros Hb. unfold copy_at at 1.
    rewrite drop_app_le by (rewrite length_take; lia).
    rewrite take_app_le by (rewrite length_drop, length_take; lia).
    assert (take 20 (drop 28 (take 48 h3)) = take 20 (drop 28 h3)) as ->.
    { apply list_eq. intros i. rewrite !lookup_take, !lookup_drop.
      destruct (decide (i < 20)%nat); [|done]. by rewrite lookup_take_lt by lia. }
    apply (copy_at_region h2 28 48 binID); lia.
  - intros Hp. unfold copy_at.
    rewrite drop_app_length' by (rewrite length_take; lia).
    rewrite copy_bytes_exact.
    + rewrite drop_ge by lia. apply app_nil_r.
    + rewrite length_take, length_drop, bytes_of_string_length. lia.
Qed.

End HandshakeProofs.

(** X14.  [Header] returns the header kept from an earlier call when
    there is one, and aborts when the public id is no hexadecimal text.
    Otherwise the header has 68 bytes: the protocol prefix with the bits
    [0x01] of byte 27 and [0x10] of byte 25 set, the decoded public id
    in bytes 28 to 47 when it has 20 bytes, and the peer id in bytes 48
    to 67 when it has 20 bytes. *)
Theorem Header_layout (kBitTorrentHeader : list byte) cs publicID :
  (∀ kept, kept ≠ [] → Header kBitTorrentHeader cs publicID kept = Done kept) ∧
  (hex_decode publicID = None → Header kBitTorrentHeader cs publicID [] = Fatal) ∧
  (∀ binID, hex_decode publicID = Some binID →
     ∃ h, Header kBitTorrentHeader cs publicID [] = Done h ∧
          length h = 68%nat ∧
          Z.land (header_byte h 27) 1 = 1 ∧
          Z.land (header_byte h 25) 16 = 16 ∧
          take 25 h = take 25 (kBitTorrentHeader ++ replicate 68 x00) ∧
          (length binID = 20%nat → take 20 (drop 28 h) = binID) ∧
          (String.length (PeerID cs) = 20%nat →
           drop 48 h = bytes_of_string (PeerID cs))).
Proof.
  split; [|split].
  - intros kept H. unfold Header. by destruct kept.
  - intros H. unfold Header. cbn [length Nat.ltb Nat.leb]. by rewrite H.
  - intros binID H. by apply Header_made.
Qed.

Lemma Header_layout_witness :
  ∃ h, Header bt_header session0 public_a [] = Done h ∧
       length h = 68%nat ∧
       Z.land (header_byte h 27) 1 = 1 ∧
       Z.land (header_byte h 25) 16 = 16 ∧
       take 25 h = take 25 (bt_header ++ replicate 68 x00) ∧
       take 20 (drop 28 h) = bytes_of_string ih_a ∧
       drop 48 h = bytes_of_string (PeerID session0).
Proof.
  destruct (proj2 (proj2 (Header_layout bt_header session0 public_a))
              (bytes_of_string ih_a))
    as (h & H1 & H2 & H3 & H4 & H5 & H6 & H7); [vm_compute; reflexivity|].
  exists h.
  exact (conj H1 (conj H2 (conj H3 (conj H4 (conj H5
           (conj (H6 eq_refl) (H7 eq_refl))))))).
Defined.

(** X15.  An info-hash of 20 bytes that [Matches] accepts is the one
    the header carries: a peer that reads the header as [connectToPeer]
    does, taking bytes 8 to 27 of what follows the 20 bytes of
    protocol name, reads that info-hash. *)
Theorem Matches_Header (kBitTorrentHeader : list byte) cs publicID ih :
  Matches publicID ih = true → String.length ih = 20%nat →
  ∃ h, Header kBitTorrentHeader cs publicID [] = Done h ∧
       string_of_bytes (take 20 (drop 8 (drop 20 h))) = ih.
Proof.
  intros Hm Hl. unfold Matches in Hm. apply String.eqb_eq in Hm.
  destruct (Header_made kBitTorrentHeader cs publicID (bytes_of_string ih))
    as (h & Hh & _ & _ & _ & _ & Hid & _).
  { rewrite Hm. apply hex_decode_encode. }
  exists h. split; [done|]. rewrite drop_drop. cbn [Nat.add].
  rewrite Hid by (by rewrite bytes_of_string_length).
  apply string_of_list_byte_of_string.
Qed.

Lemma Matches_Header_witness :
  ∃ h, Header bt_header session0 public_a [] = Done h ∧
       string_of_bytes (take 20 (drop 8 (drop 20 h))) = ih_a.
Proof.
  apply (Matches_Header bt_header session0 public_a ih_a); vm_compute; reflexivity.
Defined.

Section ConnectionProofs.

Variable MAX_NUM_PEERS : nat.
Variable kBitTorrentHeader : list byte.

Lemma AddPeer_PeerID cs b :
  PeerID (AddPeer MAX_NUM_PEERS cs b).1 = PeerID cs.
Proof.
  unfold AddPeer. destruct (has_peer_id _ _); [done|].
  by destruct (_ <=? _)%nat.
Qed.

Lemma AddPeer_ids cs b k p :
  peers (AddPeer MAX_NUM_PEERS cs b).1 !! k = Some p →
  peers cs !! k = Some p ∨ peer_id p = conn_id b.
Proof.
  unfold AddPeer. destruct (has_peer_id _ _); [by left|].
  destruct (_ <=? _)%nat; [by left|]. cbn.
  destruct (decide (RemoteAddr b = k)) as [<-|Hne].
  - rewrite lookup_insert_eq. intros [= <-]. by right.
  - rewrite lookup_insert_ne by done. by left.
Qed.

End ConnectionProofs.

(** X16.  A session that reaches itself recognises its own header:
    when the remote end answers with the header of the session, whose
    peer id has 20 bytes, [connectToPeer] closes the connection and
    leaves the table as it is. *)
Theorem connectToPeer_own_header (MAX_NUM_PEERS : nat) (kBitTorrentHeader : list byte)
    cs publicID peer remote h :
  String.length (PeerID cs) = 20%nat →
  Header kBitTorrentHeader cs publicID [] = Done h →
  connectToPeer MAX_NUM_PEERS kBitTorrentHeader cs publicID [] peer
    (Handshaken remote (drop 20 h))
  = Done (cs, [EvLog "Tried to connecting to ourselves. Closing."; EvClose remote]).
Proof.
  intros Hp Hh. unfold connectToPeer. rewrite Hh.
  destruct (hex_decode publicID) as [binID|] eqn:Hx.
  2:{ unfold Header in Hh. cbn [length Nat.ltb Nat.leb] in Hh. by rewrite Hx in Hh. }
  destruct (Header_made kBitTorrentHeader cs publicID binID Hx)
    as (h' & Hh' & Hlen & _ & _ & _ & _ & Hid).
  rewrite Hh in Hh'. injection Hh' as <-.
  rewrite length_drop, Hlen. cbn [Nat.sub Nat.ltb Nat.leb].
  rewrite drop_drop. cbn [Nat.add].
  specialize (Hid Hp).
  assert (take 20 (drop 48 h) = bytes_of_string (PeerID cs)) as ->.
  { rewrite Hid. apply take_ge. rewrite bytes_of_string_length. lia. }
  unfold string_of_bytes, bytes_of_string.
  by rewrite string_of_list_byte_of_string, String.eqb_refl.
Qed.

Lemma connectToPeer_own_header_witness :
  ∃ h, Header bt_header session0 public_a [] = Done h ∧
       connectToPeer 2 bt_header session0 public_a [] "10.0.0.9:6881"
         (Handshaken "10.0.0.9:6881" (drop 20 h))
       = Done (session0, [EvLog "Tried to connecting to ourselves. Closing.";
                          EvClose "10.0.0.9:6881"]).
Proof.
  eexists. split; [vm_compute; reflexivity|].
  apply (connectToPeer_own_header 2 bt_header session0 public_a);
    vm_compute; reflexivity.
Defined.

(** X17.  [connectToPeer] never files a peer under the session's own
    peer id: a table without such a peer stays without one.
    [AcceptNewPeer] has no such check, and files an incoming connection
    that carries the session's own peer id. *)
Theorem connectToPeer_never_self (MAX_NUM_PEERS : nat) (kBitTorrentHeader : list byte)
    cs publicID kept :
  (∀ peer net cs' evs,
     connectToPeer MAX_NUM_PEERS kBitTorrentHeader cs publicID kept peer net
     = Done (cs', evs) →
     (∀ k p, peers cs !! k = Some p → peer_id p ≠ PeerID cs) →
     ∀ k p, peers cs' !! k = Some p → peer_id p ≠ PeerID cs') ∧
  (∀ b h, Header kBitTorrentHeader cs publicID kept = Done h →
     peers cs = ∅ → (0 < MAX_NUM_PEERS)%nat → conn_id b = PeerID cs →
     ∃ cs' evs,
       AcceptNewPeer MAX_NUM_PEERS kBitTorrentHeader cs publicID kept true b
       = Done (cs', evs) ∧
       peers cs' !! RemoteAddr b
       = Some (NewPeerState (RemoteAddr b) (PeerID cs'))).
Proof.
  split.
  - intros peer net cs' evs H Hinv k p Hk. unfold connectToPeer in H.
    destruct net as [| | |remote theirheader].
    + injection H as <- <-. by apply (Hinv k p).
    + destruct (Header _ _ _ _); [|done|done]. injection H as <- <-. by apply (Hinv k p).
    + destruct (Header _ _ _ _); [|done|done]. injection H as <- <-. by apply (Hinv k p).
    + destruct (Header _ _ _ _); [|done|done].
      destruct (_ <? _)%nat; [done|].
      destruct (String.eqb_spec (string_of_bytes (take 20 (drop 28 theirheader)))
                  (PeerID cs)) as [E|E].
      * injection H as <- <-. by apply (Hinv k p).
      * set (b := {| header := theirheader; infohash := _; conn_id := _;
                     RemoteAddr := remote |}) in *.
        destruct (AddPeer MAX_NUM_PEERS cs b) as [cs2 evs2] eqn:EA.
        injection H as <- <-.
        pose proof (AddPeer_PeerID MAX_NUM_PEERS cs b) as HP.
        pose proof (AddPeer_ids MAX_NUM_PEERS cs b k p) as HI.
        rewrite EA in HP, HI. cbn [fst] in HP, HI. rewrite HP.
        destruct (HI Hk) as [Hold|Hnew]; [by apply (Hinv k p)|].
        rewrite Hnew. exact E.
  - intros b h Hh Hempty Hmax Hid. unfold AcceptNewPeer. rewrite Hh.
    destruct (AddPeer MAX_NUM_PEERS cs b) as [cs2 evs2] eqn:EA.
    exists cs2, evs2. split; [done|].
    pose proof (AddPeer_admitted MAX_NUM_PEERS cs b) as HA.
    pose proof (AddPeer_PeerID MAX_NUM_PEERS cs b) as HP.
    rewrite EA in HA, HP. cbn [fst] in HA, HP. rewrite HA, HP.
    + rewrite lookup_insert_eq. by rewrite Hid.
    + apply has_peer_id_false. intros k p. by rewrite Hempty, lookup_empty.
    + rewrite Hempty, map_size_empty. lia.
Qed.

Lemma connectToPeer_never_self_witness :
  peers (AddPeer 2 session0 conn_ones).1 !! "10.0.0.9:6881"%string
  = Some (NewPeerState "10.0.0.9:6881" (conn_id conn_ones)) ∧
  peer_id (NewPeerState "10.0.0.9:6881" (conn_id conn_ones))
  ≠ PeerID (AddPeer 2 session0 conn_ones).1.
Proof.
  split; [vm_compute; reflexivity|].
  apply (proj1 (connectToPeer_never_self 2 bt_header session0 public_a [])
           "10.0.0.9:6881" (Handshaken "10.0.0.9:6881" (replicate 48 x01))
           (AddPeer 2 session0 conn_ones).1 (AddPeer 2 session0 conn_ones).2)
    with (k := "10.0.0.9:6881"%string).
  - vm_compute. reflexivity.
  - intros k' p' H. vm_compute in H. discriminate H.
  - vm_compute. reflexivity.
Defined.

(** ** Peer messages and the current torrent *)

Section MessageProofs.

Variable EXTENSION EXTENSION_HANDSHAKE : byte.
Variable decode_handshake : list byte -> string + gmap string Z.
Variable decode_IHMessage : list byte -> string + IHMessage.
Variable remote_ip : peerState -> string.

Lemma DoMessage_Fatal cs p message :
  DoMessage EXTENSION EXTENSION_HANDSHAKE decode_handshake decode_IHMessage
    remote_ip cs p message = Fatal ↔ message = Some [EXTENSION].
Proof.
  unfold DoMessage. split.
  - destruct message as [[|m0 [|m1 rest]]|]; try done.
    + destruct (Byte.eqb m0 EXTENSION) eqn:E; [|done].
      apply byte_dec_bl in E as ->. done.
    + destruct (Byte.eqb m0 EXTENSION); [|done]. by destruct (Byte.eqb m1 _).
  - intros ->. replace (Byte.eqb EXTENSION EXTENSION) with true; [done|].
    symmetry. by apply byte_dec_lb.
Qed.

Lemma DoMetadata_announce cs msg p err p' evs a :
  DoMetadata decode_IHMessage remote_ip cs msg p = (err, p', evs, Some a) →
  ∃ m, decode_IHMessage msg = inr m ∧
       an_infohash a = InfoHash (Info m) ∧
       an_infohash a ≠ currentIH cs ∧ an_infohash a ≠ EmptyString ∧
       Port m ≠ 0 ∧
       an_peer a = remote_ip p +:+ ":" +:+ Itoa (Port m) ∧
       err = None ∧ p' = p ∧ evs = [].
Proof.
  unfold DoMetadata. destruct (decode_IHMessage msg) as [e|m]; [done|].
  destruct (String.eqb_spec (InfoHash (Info m)) "") as [|Hne]; [done|].
  destruct (Z.eqb_spec (Port m) 0) as [|Hp]; [done|]. cbn [orb].
  destruct (String.eqb_spec (currentIH cs) (InfoHash (Info m))) as [|Hc]; [done|].
  cbn [negb]. intros [= <- <- <- <-]. exists m. cbn. repeat split; done.
Qed.

Lemma DoMessage_announce cs p message err p' evs a :
  DoMessage EXTENSION EXTENSION_HANDSHAKE decode_handshake decode_IHMessage
    remote_ip cs p message = Done (err, p', evs, Some a) →
  ∃ m body, message = Some (EXTENSION :: body) ∧
       ourExtensions cs !! header_byte body 0 = Some "bs_metadata"%string ∧
       decode_IHMessage (drop 1 body) = inr m ∧
       an_infohash a = InfoHash (Info m) ∧
       an_infohash a ≠ currentIH cs ∧ an_infohash a ≠ EmptyString ∧
       Port m ≠ 0 ∧
       an_peer a = remote_ip p +:+ ":" +:+ Itoa (Port m) ∧
       err = None ∧ p' = p ∧ evs = [].
Proof.
  unfold DoMessage. destruct message as [[|m0 [|m1 rest]]|]; try done.
  - by destruct (negb _).
  - destruct (Byte.eqb m0 EXTENSION) eqn:E0; [|done]. cbn [negb].
    apply byte_dec_bl in E0 as ->.
    destruct (Byte.eqb m1 EXTENSION_HANDSHAKE).
    + unfold DoHandshake. by destruct (decode_handshake _).
    + unfold DoOther. intros [= H].
      destruct (ourExtensions cs !! header_byte (m1 :: rest) 0) as [ext|] eqn:Hx; [|done].
      destruct (String.eqb_spec ext "bs_metadata") as [->|_].
      * apply DoMetadata_announce in H as (m & Hm). exists m, (m1 :: rest).
        split; [done|]. split; [done|]. exact Hm.
      * by destruct (String.eqb ext "ut_pex").
Qed.

Lemma DoMessage_handshake cs p body m :
  decode_handshake body = inr m →
  DoMessage EXTENSION EXTENSION_HANDSHAKE decode_handshake decode_IHMessage
    remote_ip cs p (Some (EXTENSION :: EXTENSION_HANDSHAKE :: body))
  = Done (None, set_theirExtensions p m,
          [EvSendIH (address p) (byte_of_Z (default 0 (m !! "bs_metadata"%string)))
             (NewIHMessage (cs_Port cs) (currentIH cs) "" (rev cs))], None).
Proof.
  intros H. unfold DoMessage.
  replace (Byte.eqb EXTENSION EXTENSION) with true by (symmetry; by apply byte_dec_lb).
  replace (Byte.eqb EXTENSION_HANDSHAKE EXTENSION_HANDSHAKE) with true
    by (symmetry; by apply byte_dec_lb).
  cbn [negb]. unfold DoHandshake.
  change (drop 1 (EXTENSION_HANDSHAKE :: body)) with body. by rewrite H.
Qed.

End MessageProofs.

(** X18.  [DoMessage] reads the second byte of every message of the
    extension type: a message of that one byte alone is indexed past its
    end, and this is the only message on which the call does not
    return.  The nil message of a reader that exited is the error
    [EOF], the empty message a keep-alive without effect, and a message
    of another type the error of an invalid type. *)
Theorem DoMessage_short (EXTENSION EXTENSION_HANDSHAKE : byte)
    (decode_handshake : list byte -> string + gmap string Z)
    (decode_IHMessage : list byte -> string + IHMessage)
    (remote_ip : peerState -> string) cs p :
  (∀ message,
     DoMessage EXTENSION EXTENSION_HANDSHAKE decode_handshake decode_IHMessage
       remote_ip cs p message = Fatal ↔ message = Some [EXTENSION]) ∧
  DoMessage EXTENSION EXTENSION_HANDSHAKE decode_handshake decode_IHMessage
    remote_ip cs p None = Done (Some "EOF"%string, p, [], None) ∧
  DoMessage EXTENSION EXTENSION_HANDSHAKE decode_handshake decode_IHMessage
    remote_ip cs p (Some []) = Done (None, p, [], None) ∧
  (∀ m0 rest, m0 ≠ EXTENSION →
     DoMessage EXTENSION EXTENSION_HANDSHAKE decode_handshake decode_IHMessage
       remote_ip cs p (Some (m0 :: rest))
     = Done (Some "invalid message type"%string, p, [], None)).
Proof.
  split; [intros; apply DoMessage_Fatal|]. split; [done|]. split; [done|].
  intros m0 rest Hne. unfold DoMessage.
  destruct (Byte.eqb m0 EXTENSION) eqn:E; [|done].
  apply byte_dec_bl in E. done.
Qed.

Lemma DoMessage_short_witness :
  DoMessage EXT EXT_HANDSHAKE handshake_none announce_b ip_of session0 peer_a
    (Some [EXT]) = Fatal ∧
  DoMessage EXT EXT_HANDSHAKE handshake_none announce_b ip_of session0 peer_a
    (Some [x01; x02]) = Done (Some "invalid message type"%string, peer_a, [], None).
Proof.
  split.
  - apply (proj1 (DoMessage_short EXT EXT_HANDSHAKE handshake_none announce_b ip_of
                    session0 peer_a)). reflexivity.
  - apply (proj2 (proj2 (proj2 (DoMessage_short EXT EXT_HANDSHAKE handshake_none
                                  announce_b ip_of session0 peer_a)))).
    discriminate.
Defined.

(** X19.  [DoMessage] passes an announce on only for a message of the
    extension that the session calls [bs_metadata], whose body decodes
    to an info-hash that is not empty and not the current one and to a
    port that is not zero; the announce names the remote IP with that
    port, and nothing else happens. *)
Theorem DoMessage_announces (EXTENSION EXTENSION_HANDSHAKE : byte)
    (decode_handshake : list byte -> string + gmap string Z)
    (decode_IHMessage : list byte -> string + IHMessage)
    (remote_ip : peerState -> string) cs p message err p' evs a :
  DoMessage EXTENSION EXTENSION_HANDSHAKE decode_handshake decode_IHMessage
    remote_ip cs p message = Done (err, p', evs, Some a) →
  ∃ m body, message = Some (EXTENSION :: body) ∧
       ourExtensions cs !! header_byte body 0 = Some "bs_metadata"%string ∧
       decode_IHMessage (drop 1 body) = inr m ∧
       an_infohash a = InfoHash (Info m) ∧
       an_infohash a ≠ currentIH cs ∧ an_infohash a ≠ EmptyString ∧
       Port m ≠ 0 ∧
       an_peer a = remote_ip p +:+ ":" +:+ Itoa (Port m) ∧
       err = None ∧ p' = p ∧ evs = [].
Proof. apply DoMessage_announce. Qed.

Lemma DoMessage_announces_witness :
  ∃ m body, Some [EXT; x02; x64; x65] = Some (EXT :: body) ∧
       ourExtensions session0 !! header_byte body 0 = Some "bs_metadata"%string ∧
       announce_b (drop 1 body) = inr m ∧
       ih_b = InfoHash (Info m) ∧
       ih_b ≠ currentIH session0 ∧ ih_b ≠ EmptyString ∧
       Port m ≠ 0 ∧
       ("10.0.0.1:6881"%string = ip_of peer_a +:+ ":" +:+ Itoa (Port m)) ∧
       (None : option string) = None ∧ peer_a = peer_a ∧ ([] : list event) = [].
Proof.
  apply (DoMessage_announces EXT EXT_HANDSHAKE handshake_none announce_b ip_of
           session0 peer_a (Some [EXT; x02; x64; x65]) None peer_a []
           {| an_infohash := ih_b; an_peer := "10.0.0.1:6881" |}).
  vm_compute. reflexivity.
Defined.

Lemma broadcast_none cs ih :
  (∀ k q, peers cs !! k = Some q → theirExtensions q !! "bs_metadata"%string = None) →
  broadcast cs ih = [].
Proof.
  intros H. unfold broadcast.
  assert (∀ kv, kv ∈ map_to_list (peers cs) →
          theirExtensions kv.2 !! "bs_metadata"%string = None) as Hall.
  { intros [k q] Hin. apply elem_of_map_to_list in Hin. by apply (H k q). }
  induction (map_to_list (peers cs)) as [|kv l IH]; [done|].
  cbn [flat_map]. rewrite (Hall kv) by left.
  apply IH. intros kv' Hin. apply Hall. by right.
Qed.

(** X20.  After an extension handshake the peer has the extensions of
    the handshake and is sent the current info-hash, under the code it
    gave to [bs_metadata] and under the code 0 when it gave none;
    [broadcast] sends nothing to such a peer. *)
Theorem DoHandshake_sends_unasked (EXTENSION EXTENSION_HANDSHAKE : byte)
    (decode_handshake : list byte -> string + gmap string Z)
    (decode_IHMessage : list byte -> string + IHMessage)
    (remote_ip : peerState -> string) cs p body m :
  decode_handshake body = inr m →
  DoMessage EXTENSION EXTENSION_HANDSHAKE decode_handshake decode_IHMessage
    remote_ip cs p (Some (EXTENSION :: EXTENSION_HANDSHAKE :: body))
  = Done (None, set_theirExtensions p m,
          [EvSendIH (address p) (byte_of_Z (default 0 (m !! "bs_metadata"%string)))
             (NewIHMessage (cs_Port cs) (currentIH cs) "" (rev cs))], None) ∧
  (m !! "bs_metadata"%string = None →
   ∀ ih, broadcast (set_peers cs {[ address p := set_theirExtensions p m ]}) ih = []).
Proof.
  intros H. split; [by apply DoMessage_handshake|].
  intros Hnone ih. apply broadcast_none. intros k q Hk. cbn in Hk.
  apply lookup_singleton_Some in Hk as [_ <-]. done.
Qed.

Lemma DoHandshake_sends_unasked_witness :
  DoMessage EXT EXT_HANDSHAKE handshake_none announce_b ip_of session0 peer_a
    (Some (EXT :: EXT_HANDSHAKE :: [x64; x65]))
  = Done (None, set_theirExtensions peer_a ∅,
          [EvSendIH (address peer_a)
             (byte_of_Z (default 0 ((∅ : gmap string Z) !! "bs_metadata"%string)))
             (NewIHMessage (cs_Port session0) (currentIH session0) "" (rev session0))],
          None) ∧
  broadcast (set_peers session0
               {[ address peer_a := set_theirExtensions peer_a ∅ ]}) ih_a = [].
Proof.
  destruct (DoHandshake_sends_unasked EXT EXT_HANDSHAKE handshake_none announce_b
              ip_of session0 peer_a [x64; x65] ∅) as [H1 H2]; [reflexivity|].
  split; [exact H1|]. apply H2. reflexivity.
Defined.

Lemma str_take_length n : ∀ s,
  (n ≤ String.length s)%nat → String.length (str_take n s) = n.
Proof.
  induction n as [|n IH]; intros [|c s] H; cbn in *; try done; try lia.
  f_equal. apply IH. lia.
Qed.

Lemma HasPrefix_take n : ∀ s pre,
  HasPrefix s pre = true → (String.length pre ≤ n)%nat →
  HasPrefix (str_take n s) pre = true.
Proof.
  induction n as [|n IH]; intros s pre Hp Hn.
  - destruct pre; [by destruct s|cbn in Hn; lia].
  - destruct pre as [|c pre]; [apply HasPrefix_nil|].
    destruct s as [|d s]; [done|]. cbn in *.
    apply andb_true_iff in Hp as [-> Hp]. cbn. apply IH; [done|lia].
Qed.

(** X21.  A session that [NewControlSession] returns has a peer id of
    20 bytes that starts with [-tt], no peer, and the port, directory,
    info-hash and extensions it was made with.  When the process id and
    the random number have fewer than 16 digits together, the 20 bytes
    are not there and the call does not return. *)
Theorem NewControlSession_PeerID env listenPort dir :
  (∀ cs, NewControlSession env listenPort dir = Done cs →
     String.length (PeerID cs) = 20%nat ∧ HasPrefix (PeerID cs) "-tt" = true ∧
     peers cs = ∅ ∧ cs_Port cs = listenPort ∧ bitshareDir cs = dir ∧
     currentIH cs = InfoHash (Info (env_current env)) ∧
     ourExtensions cs = {[ 1 := "ut_pex"%string; 2 := "bs_metadata"%string ]}) ∧
  (env_dht_ok env = true → env_open_failed env = false →
   (String.length (Itoa (env_pid env)) + String.length (Itoa (env_rand env)) < 16)%nat →
   NewControlSession env listenPort dir = Fatal).
Proof.
  unfold NewControlSession.
  remember ("-tt" +:+ Itoa (env_pid env) +:+ "_" +:+ Itoa (env_rand env)) as sid
    eqn:Hsid.
  assert (String.length sid
          = (4 + String.length (Itoa (env_pid env))
             + String.length (Itoa (env_rand env)))%nat) as Hlen.
  { rewrite Hsid, !str_length_app. cbn. lia. }
  split.
  - intros cs H. destruct (env_dht_ok env); [|done]. cbn [negb] in H.
    destruct (env_open_failed env); [done|].
    destruct (Nat.ltb_spec (String.length sid) 20) as [|Hge]; [done|].
    injection H as <-. cbn [PeerID peers cs_Port bitshareDir currentIH ourExtensions].
    split; [change (String.length (str_take 20 sid) = 20%nat); by apply str_take_length|].
    split; [|done]. change (HasPrefix (str_take 20 sid) "-tt" = true).
    apply HasPrefix_take; [|cbn; lia]. rewrite Hsid. apply HasPrefix_app.
  - intros -> -> Hshort. cbn [negb].
    destruct (Nat.ltb_spec (String.length sid) 20) as [|Hge]; [done|lia].
Qed.

Lemma NewControlSession_PeerID_witness :
  (String.length (PeerID session0) = 20%nat ∧
   HasPrefix (PeerID session0) "-tt" = true) ∧
  NewControlSession
    {| env_pid := 7; env_rand := 12345; env_dht_ok := true;
       env_open_failed := false; env_current := zeroIHMessage |} 6881 "/tmp/share"
  = Fatal.
Proof.
  split.
  - destruct (proj1 (NewControlSession_PeerID (env0 zeroIHMessage) 6881 "/tmp/share")
                session0) as (H1 & H2 & _); [vm_compute; reflexivity|].
    split; [exact H1|exact H2].
  - apply (proj2 (NewControlSession_PeerID
                    {| env_pid := 7; env_rand := 12345; env_dht_ok := true;
                       env_open_failed := false; env_current := zeroIHMessage |}
                    6881 "/tmp/share")); [reflexivity|reflexivity|].
    vm_compute. lia.
Defined.

(** X22.  A session as [NewControlSession] makes it understands two
    extensions besides the handshake: a message under the code 1 is
    accepted and ignored, one under the code 2 is handled as metadata,
    and any other code is the error of an unknown extension. *)
Theorem fresh_session_extensions (EXTENSION EXTENSION_HANDSHAKE : byte)
    (decode_handshake : list byte -> string + gmap string Z)
    (decode_IHMessage : list byte -> string + IHMessage)
    (remote_ip : peerState -> string) env listenPort dir cs p m1 body :
  NewControlSession env listenPort dir = Done cs → m1 ≠ EXTENSION_HANDSHAKE →
  (byte_val m1 = 1 →
   DoMessage EXTENSION EXTENSION_HANDSHAKE decode_handshake decode_IHMessage
     remote_ip cs p (Some (EXTENSION :: m1 :: body)) = Done (None, p, [], None)) ∧
  (byte_val m1 = 2 →
   DoMessage EXTENSION EXTENSION_HANDSHAKE decode_handshake decode_IHMessage
     remote_ip cs p (Some (EXTENSION :: m1 :: body))
   = Done (DoMetadata decode_IHMessage remote_ip cs body p)) ∧
  (byte_val m1 ≠ 1 → byte_val m1 ≠ 2 →
   DoMessage EXTENSION EXTENSION_HANDSHAKE decode_handshake decode_IHMessage
     remote_ip cs p (Some (EXTENSION :: m1 :: body))
   = Done (Some ("Unknown extension: " +:+ Itoa (byte_val m1)), p, [], None)).
Proof.
  intros Hcs Hne.
  assert (ourExtensions cs = {[ 1 := "ut_pex"%string; 2 := "bs_metadata"%string ]})
    as Hext.
  { unfold NewControlSession in Hcs. destruct (negb _); [done|].
    destruct (env_open_failed env); [done|]. destruct (_ <? _)%nat; [done|].
    by injection Hcs as <-. }
  assert (∀ r, (if Byte.eqb m1 EXTENSION_HANDSHAKE then Done r
                else Done (DoOther decode_IHMessage remote_ip cs (m1 :: body) p))
               = Done (DoOther decode_IHMessage remote_ip cs (m1 :: body) p)) as Hother.
  { intros r. destruct (Byte.eqb m1 EXTENSION_HANDSHAKE) eqn:E; [|done].
    by apply byte_dec_bl in E. }
  unfold DoMessage.
  replace (Byte.eqb EXTENSION EXTENSION) with true by (symmetry; by apply byte_dec_lb).
  cbn [negb]. rewrite Hother. unfold DoOther, header_byte. cbn [nth drop].
  rewrite Hext.
  split; [|split].
  - intros ->. done.
  - intros ->. done.
  - intros H1 H2. rewrite lookup_insert_ne by done.
    rewrite lookup_singleton_ne by done. done.
Qed.

Lemma fresh_session_extensions_witness :
  NewControlSession (env0 zeroIHMessage) 6881 "/tmp/share" = Done session0 ∧
  DoMessage EXT EXT_HANDSHAKE handshake_none announce_b ip_of session0 peer_a
    (Some (EXT :: x07 :: []))
  = Done (Some ("Unknown extension: " +:+ Itoa (byte_val x07)), peer_a, [], None).
Proof.
  assert (NewControlSession (env0 zeroIHMessage) 6881 "/tmp/share" = Done session0)
    as E by (vm_compute; reflexivity).
  split; [exact E|].
  apply (proj2 (proj2 (fresh_session_extensions EXT EXT_HANDSHAKE handshake_none
                         announce_b ip_of (env0 zeroIHMessage) 6881 "/tmp/share"
                         session0 peer_a x07 [] E ltac:(discriminate)))).
  - vm_compute. discriminate.
  - vm_compute. discriminate.
Defined.

(** X23.  The only connection [AddPeer] closes is the incoming one,
    when the table is full.  A connection from an address that is in
    the table, under another peer id, takes the place of the entry: the
    table keeps its size and the connection of the old entry is not
    closed. *)
Theorem AddPeer_closes_only_rejected (MAX_NUM_PEERS : nat) cs b :
  (∀ a, EvClose a ∈ (AddPeer MAX_NUM_PEERS cs b).2 →
        a = RemoteAddr b ∧ (MAX_NUM_PEERS ≤ size (peers cs))%nat ∧
        (AddPeer MAX_NUM_PEERS cs b).1 = cs) ∧
  (∀ old, peers cs !! RemoteAddr b = Some old →
     has_peer_id (peers cs) (conn_id b) = false →
     (size (peers cs) < MAX_NUM_PEERS)%nat →
     peers (AddPeer MAX_NUM_PEERS cs b).1 !! RemoteAddr b
     = Some (NewPeerState (RemoteAddr b) (conn_id b)) ∧
     size (peers (AddPeer MAX_NUM_PEERS cs b).1) = size (peers cs) ∧
     ∀ a, EvClose a ∉ (AddPeer MAX_NUM_PEERS cs b).2).
Proof.
  assert (has_peer_id (peers cs) (conn_id b) = false →
          (size (peers cs) < MAX_NUM_PEERS)%nat →
          ∀ a, EvClose a ∉ (AddPeer MAX_NUM_PEERS cs b).2) as Hnone.
  { intros Hid Hlt a. unfold AddPeer. rewrite Hid.
    destruct (Nat.leb_spec MAX_NUM_PEERS (size (peers cs))); [lia|]. cbn [snd].
    intros Hin. apply elem_of_app in Hin as [Hin|Hin].
    - destruct (_ =? _); [|by apply elem_of_nil in Hin].
      by apply list_elem_of_singleton in Hin.
    - apply elem_of_cons in Hin as [Hin|Hin]; [done|].
      destruct (_ =? _); [|by apply elem_of_nil in Hin].
      by apply list_elem_of_singleton in Hin. }
  split.
  - intros a Hin. destruct (has_peer_id (peers cs) (conn_id b)) eqn:Hid.
    { rewrite AddPeer_known_id in Hin by done. by apply elem_of_nil in Hin. }
    destruct (Nat.le_gt_cases MAX_NUM_PEERS (size (peers cs))) as [Hfull|Hroom].
    + unfold AddPeer in *. rewrite Hid in *.
      destruct (Nat.leb_spec MAX_NUM_PEERS (size (peers cs))); [|lia]. cbn in *.
      apply elem_of_cons in Hin as [Hin|Hin]; [done|].
      apply list_elem_of_singleton in Hin. by injection Hin as ->.
    + by destruct (Hnone eq_refl Hroom a).
  - intros old Hold Hid Hlt.
    rewrite AddPeer_admitted by done. split; [apply lookup_insert_eq|].
    split; [|by apply Hnone].
    rewrite map_size_insert, Hold. done.
Qed.

Lemma AddPeer_closes_only_rejected_witness :
  peers (AddPeer 2 session1 (conn "10.0.0.1:6881" "peer-B")).1 !! "10.0.0.1:6881"%string
  = Some (NewPeerState "10.0.0.1:6881" "peer-B") ∧
  size (peers (AddPeer 2 session1 (conn "10.0.0.1:6881" "peer-B")).1)
  = size (peers session1) ∧
  ∀ a, EvClose a ∉ (AddPeer 2 session1 (conn "10.0.0.1:6881" "peer-B")).2.
Proof.
  apply (proj2 (AddPeer_closes_only_rejected 2 session1 (conn "10.0.0.1:6881" "peer-B"))
           peer_a); vm_compute; (reflexivity || lia).
Defined.


Lemma Quit_fold l : ∀ c evs,
  Forall (fun kv : string * peerState => address kv.2 = kv.1) l →
  fold_left (fun acc (kv : string * peerState) =>
               let '(c, evs) := acc in
               let '(c', e) := ClosePeer c (snd kv) in
               (c', evs ++ e)) l (c, evs)
  = (set_peers c (fold_left (fun m kv => delete kv.1 m) l (peers c)),
     evs ++ ((fun kv => EvClose kv.1) <$> l)).
Proof.
  induction l as [|kv l IH]; intros c evs Hall.
  - cbn. rewrite app_nil_r. by destruct c.
  - apply Forall_cons in Hall as [Hk Hall]. cbn [fold_left ClosePeer].
    rewrite IH by done. cbn. rewrite Hk, <- (assoc_L (++)). done.
Qed.

Lemma fold_delete_lookup (l : list (string * peerState)) :
  ∀ (m : gmap string peerState) k,
  fold_left (fun m kv => delete kv.1 m) l m !! k
  = if decide (k ∈ l.*1) then None else m !! k.
Proof.
  induction l as [|kv l IH]; intros m k; cbn [fold_left fmap list_fmap].
  - destruct (decide _) as [H|_]; [by apply elem_of_nil in H|done].
  - rewrite IH. destruct (decide (k ∈ l.*1)) as [Hin|Hnin].
    + rewrite decide_True; [done|by right].
    + destruct (decide (k = kv.1)) as [->|Hne].
      * rewrite decide_True by left. apply lookup_delete_eq.
      * rewrite decide_False; [by apply lookup_delete_ne|].
        intros Hc. apply elem_of_cons in Hc as [|]; done.
Qed.

Lemma AddPeer_keyed (MAX_NUM_PEERS : nat) cs b :
  keyed_by_address (peers cs) →
  keyed_by_address (peers (AddPeer MAX_NUM_PEERS cs b).1).
Proof.
  intros H. unfold AddPeer. destruct (has_peer_id _ _); [done|].
  destruct (_ <=? _)%nat; [done|]. cbn. intros k p.
  destruct (decide (RemoteAddr b = k)) as [<-|Hne].
  - rewrite lookup_insert_eq. by intros [= <-].
  - rewrite lookup_insert_ne by done. apply H.
Qed.

Lemma AddPeers_keyed (MAX_NUM_PEERS : nat) conns : ∀ cs,
  keyed_by_address (peers cs) →
  keyed_by_address (peers (AddPeers MAX_NUM_PEERS cs conns)).
Proof.
  induction conns as [|b conns IH]; intros cs H; [done|].
  cbn [AddPeers fold_left]. apply IH. by apply AddPeer_keyed.
Qed.

Lemma Quit_keyed cs :
  keyed_by_address (peers cs) →
  Quit cs = (set_peers cs ∅, (fun kv => EvClose kv.1) <$> map_to_list (peers cs)).
Proof.
  intros Hk. unfold Quit. rewrite Quit_fold.
  - cbn [app]. f_equal. f_equal. apply map_eq. intros k.
    rewrite fold_delete_lookup, lookup_empty.
    destruct (decide _) as [|Hnin]; [done|].
    destruct (peers cs !! k) as [p|] eqn:E; [|done].
    destruct Hnin. apply list_elem_of_fmap. exists (k, p). split; [done|].
    by apply elem_of_map_to_list.
  - apply Forall_forall. intros [k p] Hin. apply elem_of_map_to_list in Hin.
    by apply Hk.
Qed.

(** X24.  [Quit] closes every peer of a table in which each peer is
    filed under its address, and leaves the table empty; so it does
    after any sequence of [AddPeer] calls from an empty table. *)
Theorem Quit_closes_all (MAX_NUM_PEERS : nat) :
  (∀ cs, keyed_by_address (peers cs) →
     peers (Quit cs).1 = ∅ ∧
     (Quit cs).2 = (fun kv => EvClose kv.1) <$> map_to_list (peers cs)) ∧
  (∀ cs conns, peers cs = ∅ →
     peers (Quit (AddPeers MAX_NUM_PEERS cs conns)).1 = ∅).
Proof.
  split.
  - intros cs Hk. by rewrite Quit_keyed.
  - intros cs conns Hempty. rewrite Quit_keyed; [done|].
    apply AddPeers_keyed. intros k p. by rewrite Hempty, lookup_empty.
Qed.

Lemma Quit_closes_all_witness :
  peers (Quit (AddPeers 2 session0
                 [conn "10.0.0.1:6881" "peer-A"; conn "10.0.0.2:6881" "peer-B"])).1 = ∅.
Proof. apply (proj2 (Quit_closes_all 2) session0). reflexivity. Defined.


Lemma Atoi_no_dash s c :
  contains_char "-" s = false → Atoi s = Some c → 0 <= c <= MaxInt64.
Proof.
  unfold Atoi. destruct s as [|x s]; [done|]. cbn [contains_char].
  intros Hnd. apply orb_false_iff in Hnd as [Hx Hs]. rewrite Hx. cbn [orb].
  destruct (if Ascii.eqb x "+" then s else String x s) as [|y body] eqn:Hb; [done|].
  destruct (parse_digits (String y body) 0) as [n|] eqn:Hp; [|done].
  pose proof (parse_digits_nonneg _ _ _ Hp ltac:(lia)) as Hn.
  destruct (_ && _) eqn:Hr; [|done]. intros [= <-].
  apply andb_true_iff in Hr as [_ Hr]. lia.
Qed.


Lemma SetCurrent_counter cs ih :
  ∃ c h evs,
    0 <= c <= MaxInt64 ∧
    SetCurrent true cs ih
    = Done (set_current cs ih
              (Itoa (wrap64 (c + 1)) +:+ "-" +:+
               hex_encode (SHA1.Sum (bytes_of_string (ih +:+ h)))), evs) ∧
    ((∀ p0 p1, Split (rev cs) "-" ≠ [p0; p1]) → c = 0 ∧ h = EmptyString).
Proof.
  unfold SetCurrent.
  pose proof (Split_sep_free (rev cs) "-") as Hfree.
  destruct (Split (rev cs) "-") as [|p0 [|p1 [|p2 l]]] eqn:HS.
  - exists 0, ""%string. eexists. split; [by vm_compute|]. split; [reflexivity|done].
  - exists 0, ""%string. eexists. split; [by vm_compute|]. split; [reflexivity|done].
  - apply Forall_cons in Hfree as [H0 _]. cbn [nth].
    destruct (Atoi p0) as [c|] eqn:HA.
    + exists c, p1. eexists. split; [by apply (Atoi_no_dash p0)|].
      split; [reflexivity|]. intros H. by destruct (H p0 p1).
    + exists 0, p1. eexists. split; [by vm_compute|].
      split; [reflexivity|]. intros H. by destruct (H p0 p1).
  - exists 0, ""%string. eexists. split; [by vm_compute|]. split; [reflexivity|done].
Qed.



Lemma broadcast_elem cs ih a code m :
  EvSendIH a code m ∈ broadcast cs ih ↔
  ∃ k p c, peers cs !! k = Some p ∧
           theirExtensions p !! "bs_metadata"%string = Some c ∧
           a = address p ∧ code = byte_of_Z c ∧
           m = NewIHMessage (cs_Port cs) ih "" (rev cs).
Proof.
  unfold broadcast. rewrite list_elem_of_In, in_flat_map. split.
  - intros ([k p] & Hkp & Hin).
    apply list_elem_of_In, elem_of_map_to_list in Hkp. cbn [snd] in Hin.
    destruct (theirExtensions p !! "bs_metadata"%string) as [c|] eqn:Hc; [|done].
    destruct Hin as [Hin|[]]. unfold ihMessage in Hin. rewrite Hc in Hin.
    injection Hin as <- <- <-. by exists k, p, c.
  - intros (k & p & c & Hk & Hc & -> & -> & ->). exists (k, p). split.
    + by apply list_elem_of_In, elem_of_map_to_list.
    + cbn [snd]. rewrite Hc. left. unfold ihMessage. by rewrite Hc.
Qed.

(** X26.  [SetCurrent] leaves the peers as they are, persists a
    message with the port, the new info-hash and the new revision in
    [current] under the session's directory, and sends that message to
    the peers that gave a code to [bs_metadata], under that code, and
    to no other peer. *)
Theorem SetCurrent_notifies cs ih cs' evs :
  SetCurrent true cs ih = Done (cs', evs) →
  let mess := NewIHMessage (cs_Port cs) ih "" (rev cs') in
  peers cs' = peers cs ∧
  EvPersist (Join [bitshareDir cs; "current"%string]) mess ∈ evs ∧
  (∀ a code m, EvSendIH a code m ∈ evs ↔
     ∃ k p c, peers cs !! k = Some p ∧
              theirExtensions p !! "bs_metadata"%string = Some c ∧
              a = address p ∧ code = byte_of_Z c ∧ m = mess).
Proof.
  unfold SetCurrent.
  set (pl := match Split (rev cs) "-" with
             | [_; _] => _
             | _ => _
             end).
  assert (∀ a code m, EvSendIH a code m ∉ pl.2) as Hlog.
  { intros a code m Hin. subst pl.
    destruct (Split (rev cs) "-") as [|p0 [|p1 [|p2 l]]]; cbn [snd] in Hin;
      try (by apply elem_of_nil in Hin); by apply list_elem_of_singleton in Hin. }
  destruct pl as [pts log]. cbn [snd negb] in *. intros [= <- <-].
  cbn [peers set_current rev cs_Port currentIH bitshareDir].
  split; [done|]. split.
  - apply elem_of_app. right. left.
  - intros a code m. rewrite elem_of_app, elem_of_cons, broadcast_elem.
    cbn [peers set_current rev cs_Port currentIH bitshareDir].
    split; [|intros H; by right; right].
    intros [Hin|[Hin|Hin]]; [by destruct (Hlog a code m)|done|done].
Qed.

Lemma SetCurrent_notifies_witness :
  ∃ cs' evs, SetCurrent true session1 ih_a = Done (cs', evs) ∧
    peers cs' = peers session1 ∧
    EvPersist (Join [bitshareDir session1; "current"%string])
      (NewIHMessage (cs_Port session1) ih_a "" (rev cs')) ∈ evs ∧
    EvSendIH "10.0.0.1:6881" x03
      (NewIHMessage (cs_Port session1) ih_a "" (rev cs')) ∈ evs.
Proof.
  destruct (SetCurrent_counter session1 ih_a) as (c & h & evs & _ & Heq & _).
  eexists _, evs. split; [exact Heq|].
  destruct (SetCurrent_notifies session1 ih_a _ evs Heq) as (H1 & H2 & H3).
  split; [exact H1|]. split; [exact H2|].
  apply H3. exists "10.0.0.1:6881"%string, peer_a, 3. repeat split.
Defined.

(** ** Loading and saving a metainfo *)


Section LoadingProofs.

Context `{Codec}.
Variable http_get : string -> string + list byte.
Variable parseMagnet : string -> string + list string.
Variable DecodeInfoHash : string -> string + string.

(** A descriptor parsed from content has the SHA-1 of its encoded info
    dictionary as info-hash, and comes without error. *)
Lemma NewMetaInfoFromContent_Some content m err :
  NewMetaInfoFromContent content = (Some m, err) →
  err = None ∧
  ∃ w, encode_Info (mi_Info m) = inr w ∧
       mi_InfoHash m = string_of_bytes (SHA1.Sum w).
Proof.
  unfold NewMetaInfoFromContent.
  destruct (decode_MetaInfo _) as [e|m1]; [done|].
  destruct (encode_Info (mi_Info m1)) as [e|w] eqn:E; [done|].
  intros [= <- <-]. split; [done|]. by exists w.
Qed.

Lemma NewMetaInfoFromFile_Some fs torrent m err :
  NewMetaInfoFromFile fs torrent = (Some m, err) →
  err = None ∧
  ∃ w, encode_Info (mi_Info m) = inr w ∧
       mi_InfoHash m = string_of_bytes (SHA1.Sum w).
Proof.
  unfold NewMetaInfoFromFile. destruct (ReadFile fs torrent) as [e|c]; [done|].
  apply NewMetaInfoFromContent_Some.
Qed.

Lemma NewMetaInfo_Some fs torrent m err :
  NewMetaInfo http_get parseMagnet DecodeInfoHash fs torrent = Done (Some m, err) →
  err = None ∧
  ((HasPrefix torrent "http:" = false ∧ HasPrefix torrent "magnet:" = true ∧
    m = MetaInfo_of_hash (mi_InfoHash m) ∧
    ∃ h l, parseMagnet torrent = inr (h :: l) ∧
           DecodeInfoHash h = inr (mi_InfoHash m))
   ∨ (∃ w, encode_Info (mi_Info m) = inr w ∧
           mi_InfoHash m = string_of_bytes (SHA1.Sum w))).
Proof.
  unfold NewMetaInfo. destruct (HasPrefix torrent "http:") eqn:Hh.
  { unfold NewMetaInfoFromHTTP. destruct (http_get torrent) as [e|c]; [done|].
    intros [= E]. apply NewMetaInfoFromContent_Some in E as [-> E]. by split; [|right]. }
  destruct (HasPrefix torrent "magnet:") eqn:Hm.
  { unfold NewMetaInfoFromMagnet.
    destruct (parseMagnet torrent) as [e|[|h l]] eqn:Hp; [done|done|].
    destruct (DecodeInfoHash h) as [e|ih] eqn:Hd; [done|].
    intros [= <- <-]. split; [done|]. left. repeat split. by exists h, l. }
  destruct (NewMetaInfoFromContent (bytes_of_string torrent)) as [m0 [e|]] eqn:Hc.
  - intros [= E]. apply NewMetaInfoFromFile_Some in E as [-> E]. by split; [|right].
  - intros [= -> <-]. apply NewMetaInfoFromContent_Some in Hc as [_ E]. by split; [|right].
Qed.

Lemma NewMetaInfo_no_file fs fs' torrent :
  HasPrefix torrent "http:" = true ∨ HasPrefix torrent "magnet:" = true ∨
  (NewMetaInfoFromContent (bytes_of_string torrent)).2 = None →
  NewMetaInfo http_get parseMagnet DecodeInfoHash fs torrent
  = NewMetaInfo http_get parseMagnet DecodeInfoHash fs' torrent.
Proof.
  unfold NewMetaInfo. intros Hc.
  destruct (HasPrefix torrent "http:"); [done|].
  destruct (HasPrefix torrent "magnet:"); [done|].
  destruct Hc as [|[|Hc]]; [done|done|].
  destruct (NewMetaInfoFromContent _) as [m [e|]]; [done|done].
Qed.

Lemma RawInfo_hash content m err i :
  NewMetaInfoFromContent content = (Some m, err) → mi_Info m = Some i →
  ∃ w, RawInfo m None = Done (w, match w with [] => None | _ => Some w end) ∧
       mi_InfoHash m = string_of_bytes (SHA1.Sum w).
Proof.
  intros Hc Hi. apply NewMetaInfoFromContent_Some in Hc as [_ (w & Hw & Hh)].
  exists w. split; [|done]. unfold RawInfo. rewrite Hi. rewrite Hi in Hw.
  rewrite Hw. by destruct w.
Qed.

End LoadingProofs.

(** X27.  A descriptor that [NewMetaInfo] returns comes without
    error.  From a magnet link it holds nothing but the decoded first
    info-hash of the link; from a URL, from content or from a file its
    info-hash is the SHA-1 of its encoded info dictionary.  The file
    system is read only for a string that has neither prefix and does
    not parse as content.  A magnet link without an info-hash is
    indexed past its end. *)
Theorem NewMetaInfo_results `{Codec} (http_get : string -> string + list byte)
    (parseMagnet : string -> string + list string)
    (DecodeInfoHash : string -> string + string) fs torrent :
  (∀ m err,
     NewMetaInfo http_get parseMagnet DecodeInfoHash fs torrent = Done (Some m, err) →
     err = None ∧
     ((HasPrefix torrent "http:" = false ∧ HasPrefix torrent "magnet:" = true ∧
       m = MetaInfo_of_hash (mi_InfoHash m) ∧
       ∃ h l, parseMagnet torrent = inr (h :: l) ∧
              DecodeInfoHash h = inr (mi_InfoHash m))
      ∨ (∃ w, encode_Info (mi_Info m) = inr w ∧
              mi_InfoHash m = string_of_bytes (SHA1.Sum w)))) ∧
  (HasPrefix torrent "http:" = true ∨ HasPrefix torrent "magnet:" = true ∨
   (NewMetaInfoFromContent (bytes_of_string torrent)).2 = None →
   ∀ fs', NewMetaInfo http_get parseMagnet DecodeInfoHash fs' torrent
          = NewMetaInfo http_get parseMagnet DecodeInfoHash fs torrent) ∧
  (HasPrefix torrent "http:" = false → HasPrefix torrent "magnet:" = true →
   parseMagnet torrent = inr [] →
   NewMetaInfo http_get parseMagnet DecodeInfoHash fs torrent = Fatal).
Proof.
  split; [|split].
  - intros m err. apply NewMetaInfo_Some.
  - intros Hc fs'. by apply NewMetaInfo_no_file.
  - intros Hh Hm Hp. unfold NewMetaInfo, NewMetaInfoFromMagnet. by rewrite Hh, Hm, Hp.
Qed.

Lemma NewMetaInfo_results_witness :
  (None : option string) = None ∧
  ((HasPrefix "magnet:?xt=urn:btih:a" "http:" = false ∧
    HasPrefix "magnet:?xt=urn:btih:a" "magnet:" = true ∧
    MetaInfo_of_hash ih_a = MetaInfo_of_hash (mi_InfoHash (MetaInfo_of_hash ih_a)) ∧
    ∃ h l, magnet_hashes "magnet:?xt=urn:btih:a" = inr (h :: l) ∧
           infohash_a h = inr (mi_InfoHash (MetaInfo_of_hash ih_a)))
   ∨ (∃ w, @encode_Info bencode_codec (mi_Info (MetaInfo_of_hash ih_a)) = inr w ∧
           mi_InfoHash (MetaInfo_of_hash ih_a) = string_of_bytes (SHA1.Sum w))).
Proof.
  apply (proj1 (@NewMetaInfo_results bencode_codec no_http magnet_hashes infohash_a
                  fs_empty "magnet:?xt=urn:btih:a") (MetaInfo_of_hash ih_a) None).
  reflexivity.
Defined.

(** X28.  For a descriptor parsed from content, the bytes [RawInfo]
    returns are those the info-hash is the SHA-1 of, when there is an
    info dictionary; without one it returns no byte.  Bytes kept from
    an earlier call are returned as they are. *)
Theorem RawInfo_InfoHash `{Codec} content m err :
  NewMetaInfoFromContent content = (Some m, err) →
  (∀ i, mi_Info m = Some i →
     ∃ w, RawInfo m None = Done (w, match w with [] => None | _ => Some w end) ∧
          mi_InfoHash m = string_of_bytes (SHA1.Sum w)) ∧
  (mi_Info m = None → RawInfo m None = Done ([], None)) ∧
  (∀ kept, RawInfo m (Some kept) = Done (kept, Some kept)).
Proof.
  intros Hc. split; [|split].
  - intros i Hi. by eapply RawInfo_hash.
  - intros Hn. unfold RawInfo. by rewrite Hn.
  - done.
Qed.

Lemma RawInfo_InfoHash_witness :
  ∃ w, @RawInfo bencode_codec meta_a None
       = Done (w, match w with [] => None | _ => Some w end) ∧
       mi_InfoHash meta_a = string_of_bytes (SHA1.Sum w).
Proof.
  refine (proj1 (@RawInfo_InfoHash bencode_codec content_a meta_a None _) info_a _).
  - vm_compute. reflexivity.
  - reflexivity.
Defined.

(** X29.  [saveToDisk] writes the encoding of the metainfo to the file
    named by the hexadecimal text of its info-hash under the directory,
    and touches no other file; [NewMetaInfoFromFile] on that name then
    parses the bytes that were written.  It fails without a change when
    the file cannot be created, and otherwise only when the encoder
    fails. *)
Theorem saveToDisk_load `{Codec}
    (encode_MetaInfo : MetaInfo -> string * list byte + list byte) m dir fs :
  let name := Join [dir; hex_encode (bytes_of_string (mi_InfoHash m))] in
  (creatable fs name = false →
   ∃ e, saveToDisk encode_MetaInfo m dir fs = (Some e, fs)) ∧
  (creatable fs name = true →
   ∃ err w fs',
     saveToDisk encode_MetaInfo m dir fs = (err, fs') ∧
     (err = None ↔ encode_MetaInfo m = inr w) ∧
     ReadFile fs' name = inr w ∧
     NewMetaInfoFromFile fs' name = NewMetaInfoFromContent w ∧
     cwd fs' = cwd fs ∧
     ∀ k, k ≠ resolve fs name → nodes fs' !! k = nodes fs !! k).
Proof.
  intros name. split.
  - intros Hcr. unfold saveToDisk. fold name.
    destruct (os_Create_not_creatable _ _ Hcr) as [e ->]. by exists e.
  - intros Hcr. unfold saveToDisk. fold name.
    rewrite (os_Create_creatable _ _ Hcr).
    set (fs1 := set_nodes fs _).
    change (resolve fs1 name) with (resolve fs name).
    assert (∀ w, ReadFile (set_nodes fs1 (<[resolve fs name := File w]> (nodes fs1))) name
                 = inr w) as Hread.
    { intros w. unfold ReadFile.
      rewrite (os_Stat_insert fs1 (resolve fs name) (File w) name); [done|done|].
      by apply creatable_not_root. }
    assert (∀ w k, k ≠ resolve fs name →
              nodes (set_nodes fs1 (<[resolve fs name := File w]> (nodes fs1))) !! k
              = nodes fs !! k) as Hframe.
    { intros w k Hk. subst fs1. cbn. by rewrite !lookup_insert_ne. }
    destruct (encode_MetaInfo m) as [[e w]|w].
    + eexists (Some e), w, _. split; [reflexivity|]. split; [done|].
      split; [apply Hread|]. split; [|split; [done|apply Hframe]].
      unfold NewMetaInfoFromFile. by rewrite Hread.
    + eexists None, w, _. split; [reflexivity|]. split; [done|].
      split; [apply Hread|]. split; [|split; [done|apply Hframe]].
      unfold NewMetaInfoFromFile. by rewrite Hread.
Qed.

Lemma saveToDisk_load_witness :
  ∃ err w fs',
    saveToDisk encode_as_a meta_a "/tmp/share" fs_share = (err, fs') ∧
    (err = None ↔ encode_as_a meta_a = inr w) ∧
    ReadFile fs' (Join ["/tmp/share"%string;
                        hex_encode (bytes_of_string (mi_InfoHash meta_a))]) = inr w ∧
    @NewMetaInfoFromFile bencode_codec fs'
      (Join ["/tmp/share"%string; hex_encode (bytes_of_string (mi_InfoHash meta_a))])
    = @NewMetaInfoFromContent bencode_codec w ∧
    cwd fs' = cwd fs_share ∧
    ∀ k, k ≠ resolve fs_share
               (Join ["/tmp/share"%string;
                      hex_encode (bytes_of_string (mi_InfoHash meta_a))]) →
         nodes fs' !! k = nodes fs_share !! k.
Proof.
  apply (proj2 (@saveToDisk_load bencode_codec encode_as_a meta_a "/tmp/share" fs_share)).
  vm_compute. reflexivity.
Defined.
